(** * KillBill client utilities: a shallow embedding of [utils.js] and
    [constants.js], with the properties stated about them.

    A JavaScript Number is an IEEE-754 binary64 value; it is modelled by
    Rocq's primitive [float], whose operations are the processor's and
    whose specification ([FloatAxioms]) relates them to [SpecFloat].
    Strings are [string]; a JavaScript object with fixed fields is a
    record; [null] and [undefined] are [None]. *)

From Stdlib Require Import ZArith Lia List String Ascii Bool.
From Stdlib Require Import Floats.

Set Warnings "-inexact-float".

(** ** The host language: Number, Math, String *)

Module JS.

Local Open Scope float_scope.

Definition Number := float.

(** The Number with the integer value [n] (rounded to nearest, as a
    numeric literal is). *)
Definition of_Z (n : Z) : Number :=
  SF2Prim (binary_normalize prec emax n 0 false).

(** [Math.PI]. *)
Definition Math_PI : Number := 3.141592653589793.

Definition Math_sqrt (v : Number) : Number := sqrt v.

Definition Math_abs (v : Number) : Number := abs v.

(** [Math.max] and [Math.min] of two arguments: NaN is contagious and
    [-0] is smaller than [+0]. *)
Definition Math_max (a b : Number) : Number :=
  if is_nan a || is_nan b then nan
  else if a <? b then b
  else if b <? a then a
  else if get_sign a then b else a.

Definition Math_min (a b : Number) : Number :=
  if is_nan a || is_nan b then nan
  else if a <? b then a
  else if b <? a then b
  else if get_sign a then a else b.

(** The integer [floor (±m * 2^e)] for [e < 0]. *)
Definition floor_dyadic (s : bool) (m : positive) (e : Z) : Z :=
  Z.shiftr (cond_Zopp s (Zpos m)) (- e).

(** [Math.floor]: integral values, zeros, infinities and NaN are returned
    as they are. *)
Definition Math_floor (v : Number) : Number :=
  match Prim2SF v with
  | S754_finite s m e =>
      if (0 <=? e)%Z then v
      else let n := floor_dyadic s m e in
           if (n =? 0)%Z then zero else of_Z n
  | _ => v
  end.

(** [Math.round]: the nearest integer, a tie going up; a result that is
    zero keeps the sign of the argument. *)
Definition Math_round (v : Number) : Number :=
  match Prim2SF v with
  | S754_finite s m e =>
      if (0 <=? e)%Z then v
      else let n := Z.shiftr (2 * cond_Zopp s (Zpos m) + 2 ^ (- e)) (- e + 1) in
           if (n =? 0)%Z then (if s then neg_zero else zero) else of_Z n
  | _ => v
  end.

(** The remainder operator [%]: exact, with the sign of the dividend. *)
Definition rem (a b : Number) : Number :=
  match Prim2SF a, Prim2SF b with
  | S754_nan, _ | _, S754_nan => nan
  | S754_infinity _, _ => nan
  | _, S754_zero _ => nan
  | S754_zero _, _ => a
  | S754_finite _ _ _, S754_infinity _ => a
  | S754_finite sa ma ea, S754_finite _ mb eb =>
      let e := Z.min ea eb in
      let r := Z.modulo (Zpos ma * 2 ^ (ea - e)) (Zpos mb * 2 ^ (eb - e)) in
      if (r =? 0)%Z then (if sa then neg_zero else zero)
      else SF2Prim (binary_normalize prec emax (cond_Zopp sa r) e false)
  end.

(** The mathematical integer obtained by dropping the fraction of a finite
    Number (0 for NaN and the infinities). *)
Definition truncate (v : Number) : Z :=
  match Prim2SF v with
  | S754_finite s m e =>
      cond_Zopp s (if (0 <=? e)%Z then Zpos m * 2 ^ e else Z.shiftr (Zpos m) (- e))
  | _ => 0%Z
  end.

(** [ToInt32]: truncation, then wrap-around into [-2^31, 2^31). *)
Definition wrap32 (n : Z) : Z :=
  let k := (n mod 2 ^ 32)%Z in
  if (k <? 2 ^ 31)%Z then k else (k - 2 ^ 32)%Z.

Definition ToInt32 (v : Number) : Z := wrap32 (truncate v).

(** The left shift operator [<<] on Numbers. *)
Definition shl (a : Number) (k : Z) : Number :=
  of_Z (wrap32 (Z.shiftl (ToInt32 a) (Z.land k 31))).

(** Does the Number hold an integer? *)
Definition is_integer (v : Number) : bool :=
  match Prim2SF v with
  | S754_zero _ => true
  | S754_finite _ m e =>
      (0 <=? e)%Z || (Zpos m mod 2 ^ (- e) =? 0)%Z
  | _ => false
  end.

Local Open Scope string_scope.

(** Digits of a non-negative integer in a radix up to 16, lower case. *)
Definition digit_char (d : Z) : ascii :=
  match d with
  | 0%Z => "0" | 1%Z => "1" | 2%Z => "2" | 3%Z => "3" | 4%Z => "4"
  | 5%Z => "5" | 6%Z => "6" | 7%Z => "7" | 8%Z => "8" | 9%Z => "9"
  | 10%Z => "a" | 11%Z => "b" | 12%Z => "c" | 13%Z => "d" | 14%Z => "e"
  | _ => "f"
  end%char.

Fixpoint digits_aux (fuel : nat) (radix n : Z) (acc : string) : string :=
  match fuel with
  | O => acc
  | S fuel' =>
      let acc' := String (digit_char (n mod radix)) acc in
      if (n <? radix)%Z then acc'
      else digits_aux fuel' radix (n / radix) acc'
  end.

Definition digits (radix n : Z) : string :=
  digits_aux (S (Z.to_nat (Z.log2 n))) radix n "".

Definition integer_toString (radix n : Z) : string :=
  if (n <? 0)%Z then "-" ++ digits radix (- n) else digits radix n.

Fixpoint repeat_char (n : nat) (c : ascii) : string :=
  match n with
  | O => ""
  | S n' => String c (repeat_char n' c)
  end.

(** *** Numbers in decimal

    [Number::toString] of ECMAScript prints the shortest decimal that
    reads back as the Number and, among those, the nearest to it. *)

(** The Number nearest to [s * 10 ^ p], a tie going to the even
    mantissa: what reading the decimal gives. *)
Definition read_decimal (s p : Z) : spec_float :=
  if (0 <=? p)%Z then binary_normalize prec emax (s * 10 ^ p) 0 false
  else
    let '(q, e, l) := SFdiv_core_binary prec emax s 0 (10 ^ (- p)) 0 in
    binary_round_aux prec emax false q e l.

Definition reads_back (m : positive) (e : Z) (s p : Z) : bool :=
  (0 <? s)%Z &&
  match SFcompare (read_decimal s p) (S754_finite false m e) with
  | Some Eq => true
  | _ => false
  end.

(** The exponent [n] with [10 ^ (n - 1) <= num / den < 10 ^ n]. *)
Fixpoint decimal_exponent_below_one (fuel : nat) (num den n : Z) : Z :=
  match fuel with
  | O => n
  | S fuel' =>
      if (den <=? num * 10)%Z then n
      else decimal_exponent_below_one fuel' (num * 10) den (n - 1)
  end.

Definition decimal_exponent (num den : Z) : Z :=
  if (den <=? num)%Z then Z.of_nat (String.length (digits 10 (num / den)))
  else decimal_exponent_below_one 400 num den 0.

(** The decimal [s * 10 ^ (n - k)] of [k] digits for the Number
    [m * 2 ^ e = num / den]: of the two around the Number, one that reads
    back, the nearer one if both do, the even one on a tie. *)
Definition decimal_candidate (m : positive) (e num den n k : Z) : option Z :=
  let p := (n - k)%Z in
  let tn := if (p <=? 0)%Z then (num * 10 ^ (- p))%Z else num in
  let td := if (p <=? 0)%Z then den else (den * 10 ^ p)%Z in
  let lo := (tn / td)%Z in
  let hi := (lo + 1)%Z in
  match reads_back m e lo p, reads_back m e hi p with
  | true, true =>
      Some (match (2 * (tn mod td) ?= td)%Z with
            | Lt => lo
            | Gt => hi
            | Eq => if Z.even lo then lo else hi
            end)
  | true, false => Some lo
  | false, true => Some hi
  | false, false => None
  end.

(** The least number of digits [k], from [k] on, with such a decimal. *)
Fixpoint shortest_decimal (fuel : nat) (m : positive) (e num den n k : Z)
    : option (Z * Z) :=
  match fuel with
  | O => None
  | S fuel' =>
      match decimal_candidate m e num den n k with
      | Some s => Some (s, k)
      | None => shortest_decimal fuel' m e num den n (k + 1)
      end
  end.

Fixpoint strip_zeros (fuel : nat) (s : Z) : Z :=
  match fuel with
  | O => s
  | S fuel' => if (s mod 10 =? 0)%Z then strip_zeros fuel' (s / 10)%Z else s
  end.

(** The digits [D] of a decimal and its exponent [n] (the value is
    [0.D * 10 ^ n]) as ECMAScript writes them: in full for [n] up to 21,
    with leading zeros for [n] down to [-5], with an exponent otherwise. *)
Definition decimal_format (D : string) (n : Z) : string :=
  let k := Z.of_nat (String.length D) in
  if (k <=? n)%Z && (n <=? 21)%Z then D ++ repeat_char (Z.to_nat (n - k)) "0"
  else if (0 <? n)%Z && (n <=? 21)%Z then
    substring 0 (Z.to_nat n) D ++ "." ++ substring (Z.to_nat n) (Z.to_nat (k - n)) D
  else if (-6 <? n)%Z && (n <=? 0)%Z then
    "0." ++ repeat_char (Z.to_nat (- n)) "0" ++ D
  else
    let x := (if (n - 1 <? 0)%Z then "-" else "+") ++ digits 10 (Z.abs (n - 1)) in
    match D with
    | String d "" => String d ("e" ++ x)
    | String d rest => String d ("." ++ rest ++ "e" ++ x)
    | "" => ""
    end.

(** The decimal of the positive Number [m * 2 ^ e]. *)
Definition decimal_toString (m : positive) (e : Z) : option string :=
  let num := if (0 <=? e)%Z then (Zpos m * 2 ^ e)%Z else Zpos m in
  let den := if (0 <=? e)%Z then 1%Z else (2 ^ (- e))%Z in
  let n := decimal_exponent num den in
  match shortest_decimal 17 m e num den n 1 with
  | Some (s, k) =>
      let len := Z.of_nat (String.length (digits 10 s)) in
      Some (decimal_format (digits 10 (strip_zeros 17 s)) (n + (len - k)))
  | None => None
  end.

(** [Number.prototype.toString(radix)].  An integer of magnitude below
    [2 ^ 53] is printed by its digits in every radix.  In radix 10 every
    other Number is printed too, by the shortest decimal that reads back
    as it.  In another radix ECMAScript leaves the digits of a fraction or
    of a larger integer to the implementation: they are not modelled, and
    the result is [None]. *)
Definition Number_toString (radix : Z) (v : Number) : option string :=
  if is_nan v then Some "NaN"
  else if (v =? infinity)%float then Some "Infinity"
  else if (v =? neg_infinity)%float then Some "-Infinity"
  else if is_integer v && (Z.abs (truncate v) <? 2 ^ 53)%Z then
    Some (integer_toString radix (truncate v))
  else if (radix =? 10)%Z then
    match Prim2SF v with
    | S754_finite s m e =>
        match decimal_toString m e with
        | Some d => Some ((if s then "-" else "") ++ d)
        | None => None
        end
    | _ => None
    end
  else None.

(** [String.prototype.padStart(len, c)] with a one-character filler. *)
Definition padStart (len : nat) (c : ascii) (s : string) : string :=
  repeat_char (len - String.length s) c ++ s.

(** [String.prototype.slice(1)]. *)
Definition slice1 (s : string) : string :=
  match s with
  | "" => ""
  | String _ rest => rest
  end.

(** The value of a hexadecimal digit, either case. *)
Definition hex_value (c : ascii) : option Z :=
  let n := Z.of_nat (nat_of_ascii c) in
  if (48 <=? n)%Z && (n <=? 57)%Z then Some (n - 48)%Z
  else if (97 <=? n)%Z && (n <=? 102)%Z then Some (n - 87)%Z
  else if (65 <=? n)%Z && (n <=? 70)%Z then Some (n - 55)%Z
  else None.

(** [parseInt(s, 16)] on a string without leading white space, sign or
    [0x] prefix: the longest prefix of hexadecimal digits, NaN if empty. *)
Fixpoint parse_hex_prefix (s : string) (acc : option Z) : option Z :=
  match s with
  | "" => acc
  | String c rest =>
      match hex_value c with
      | Some d =>
          parse_hex_prefix rest
            (Some (match acc with Some a => 16 * a + d | None => d end)%Z)
      | None => acc
      end
  end.

Definition parseInt16 (s : string) : Number :=
  match parse_hex_prefix s None with
  | Some n => of_Z n
  | None => nan
  end.

(** [a || d] where [a] may be [undefined]: the default replaces
    [undefined], zero and NaN. *)
Definition or_default (a : option Number) (d : Number) : Number :=
  match a with
  | Some v => if is_zero v || is_nan v then d else v
  | None => d
  end.

(** A [while] loop over one Number variable; [None] when the fuel does
    not suffice. *)
Fixpoint while (fuel : nat) (cond : Number -> bool) (body : Number -> Number)
    (v : Number) : option Number :=
  match fuel with
  | O => None
  | S fuel' => if cond v then while fuel' cond body (body v) else Some v
  end.

End JS.

(** ** The host's timers *)

(** [setTimeout] and [clearTimeout] of the browser, for the timers that one
    closure of [utils.js] owns.  A timer holds its callback as data of type
    [C]; the clock counts milliseconds.  The host runs a timer at a moment
    of its choice from the time the timer is due. *)
Module timers.

Import JS.

Section Timers.

Context {C : Type}.

Record Timer := { id : nat; due : Z; callback : C }.

Record Host := { now : Z; next_id : nat; active : list Timer }.

(** The delay in milliseconds: the argument is converted to a 32-bit
    integer, and a negative delay counts as zero. *)
Definition delay_ms (delay : Number) : Z := Z.max 0 (ToInt32 delay).

(** [setTimeout(callback, delay)]: the handle of the new timer, and the
    host with the timer. *)
Definition setTimeout (cb : C) (delay : Number) (h : Host) : nat * Host :=
  (next_id h,
   {| now := now h; next_id := S (next_id h);
      active := active h ++ {| id := next_id h; due := now h + delay_ms delay;
                               callback := cb |} :: nil |}).

(** [clearTimeout(handle)]; [undefined] and the handle of a timer that is
    no longer active are ignored. *)
Definition clearTimeout (handle : option nat) (h : Host) : Host :=
  match handle with
  | Some n =>
      {| now := now h; next_id := next_id h;
         active := filter (fun t => negb (Nat.eqb (id t) n)) (active h) |}
  | None => h
  end.

(** The host takes the timer [n] out to run it, if it is active and due. *)
Definition take (n : nat) (h : Host) : option (Timer * Host) :=
  match find (fun t => Nat.eqb (id t) n) (active h) with
  | Some t =>
      if (due t <=? now h)%Z then Some (t, clearTimeout (Some n) h) else None
  | None => None
  end.

(** Time passes. *)
Definition elapse (dt : Z) (h : Host) : Host :=
  {| now := now h + Z.max 0 dt; next_id := next_id h; active := active h |}.

Definition start : Host := {| now := 0; next_id := 1; active := nil |}.

End Timers.

Arguments Timer : clear implicits.
Arguments Host : clear implicits.

End timers.

(** ** constants.js *)

(** The constants table.  The properties that [utils.js] reads through
    [?.] and [||] may be missing from a table, so they are options. *)
Module constants.

Import JS.
Local Open Scope float_scope.

Record Player := { SPEED : Number; HEALTH : Number; HEIGHT : Number;
                   SENSITIVITY : Number }.

Record World := { SIZE : option Number; GRAVITY : Number;
                  GROUND_LEVEL : Number }.

Record Rifle := { DAMAGE : Number; AMMO : Number; BULLET_SPEED : Number }.

Record Weapons := { RIFLE : Rifle; MAX_RANGE : option Number;
                    FALLOFF_START : option Number }.

Record Networks := { UPDATE_RATE : Number; SERVER_PORT : Number;
                     MAX_PLAYERS : Number }.

Record Table := { PLAYER : Player; WORLD : option World;
                  WEAPONS : option Weapons; NETWORKS : Networks }.

(** The table of [constants.js]: [WEAPONS] has no [MAX_RANGE] and no
    [FALLOFF_START]. *)
Definition GAME_CONSTANTS : Table :=
  {| PLAYER := {| SPEED := 10; HEALTH := 100; HEIGHT := 1.8;
                  SENSITIVITY := 0.002 |};
     WORLD := Some {| SIZE := Some 200; GRAVITY := 9.8; GROUND_LEVEL := 0 |};
     WEAPONS := Some {| RIFLE := {| DAMAGE := 25; AMMO := 30;
                                    BULLET_SPEED := 100 |};
                        MAX_RANGE := None; FALLOFF_START := None |};
     NETWORKS := {| UPDATE_RATE := 20; SERVER_PORT := 3000;
                    MAX_PLAYERS := 20 |} |}.

(** [t.WEAPONS?.MAX_RANGE], [t.WEAPONS?.FALLOFF_START], [t.WORLD?.SIZE]. *)
Definition weapons_max_range (t : Table) : option Number :=
  match WEAPONS t with Some w => MAX_RANGE w | None => None end.

Definition weapons_falloff_start (t : Table) : option Number :=
  match WEAPONS t with Some w => FALLOFF_START w | None => None end.

Definition world_size (t : Table) : option Number :=
  match WORLD t with Some w => SIZE w | None => None end.

End constants.

(** ** utils.js *)

Record Vector3 := { x : JS.Number; y : JS.Number; z : JS.Number }.

(** A point of the screen: the two fields that [distance2D] reads. *)
Module point2.
Record t := { x : JS.Number; y : JS.Number }.
End point2.

Module math.

Import JS.
Local Open Scope float_scope.

Definition degToRad (degrees : Number) : Number := degrees * (Math_PI / 180).

Definition radToDeg (radians : Number) : Number := radians * (180 / Math_PI).

Definition distance3D (pos1 pos2 : Vector3) : Number :=
  let dx := x pos2 - x pos1 in
  let dy := y pos2 - y pos1 in
  let dz := z pos2 - z pos1 in
  Math_sqrt (dx * dx + dy * dy + dz * dz).

Definition distance2D (pos1 pos2 : point2.t) : Number :=
  let dx := point2.x pos2 - point2.x pos1 in
  let dy := point2.y pos2 - point2.y pos1 in
  Math_sqrt (dx * dx + dy * dy).

Definition clamp (value min max : Number) : Number :=
  Math_min (Math_max value min) max.

Definition lerp (start end_ factor : Number) : Number :=
  start + (end_ - start) * factor.

(** [randomRange(min, max)] and [randomInt(min, max)]; the argument
    [random] is the Number that [Math.random()] returns: at least 0 and
    below 1, with positive sign. *)
Definition randomRange (random min max : Number) : Number :=
  random * (max - min) + min.

Definition randomInt (random min max : Number) : Number :=
  Math_floor (random * (max - min + 1)) + min.

(** The two loops of [normalizeAngle], each given [fuel] iterations. *)
Definition normalizeAngle (fuel : nat) (angle : Number) : option Number :=
  match while fuel (fun a => a <? 0) (fun a => a + Math_PI * 2) angle with
  | Some a => while fuel (fun a => Math_PI * 2 <=? a) (fun a => a - Math_PI * 2) a
  | None => None
  end.

Definition approximately (a b tolerance : Number) : bool :=
  Math_abs (a - b) <? tolerance.

End math.

Module vector.

Import JS.
Local Open Scope float_scope.

Definition create (x0 y0 z0 : Number) : Vector3 := {| x := x0; y := y0; z := z0 |}.

Definition add (vec1 vec2 : Vector3) : Vector3 :=
  {| x := x vec1 + x vec2; y := y vec1 + y vec2; z := z vec1 + z vec2 |}.

Definition subtract (vec1 vec2 : Vector3) : Vector3 :=
  {| x := x vec1 - x vec2; y := y vec1 - y vec2; z := z vec1 - z vec2 |}.

Definition multiply (vec : Vector3) (scalar : Number) : Vector3 :=
  {| x := x vec * scalar; y := y vec * scalar; z := z vec * scalar |}.

Definition length (vec : Vector3) : Number :=
  Math_sqrt (x vec * x vec + y vec * y vec + z vec * z vec).

Definition normalize (vec : Vector3) : Vector3 :=
  let len := length vec in
  if len =? 0 then {| x := 0; y := 0; z := 0 |}
  else {| x := x vec / len; y := y vec / len; z := z vec / len |}.

Definition dot (vec1 vec2 : Vector3) : Number :=
  x vec1 * x vec2 + y vec1 * y vec2 + z vec1 * z vec2.

Definition cross (vec1 vec2 : Vector3) : Vector3 :=
  {| x := y vec1 * z vec2 - z vec1 * y vec2;
     y := z vec1 * x vec2 - x vec1 * z vec2;
     z := x vec1 * y vec2 - y vec1 * x vec2 |}.

End vector.

Module collision.

Import JS.
Local Open Scope float_scope.

(** The result of a ray query that hits; a miss is [None] ([null]). *)
Record Hit := { hit : bool; distance : Number; point : Vector3 }.

Definition pointInSphere (p sphereCenter : Vector3) (radius : Number) : bool :=
  math.distance3D p sphereCenter <=? radius.

Definition pointInBox (p boxMin boxMax : Vector3) : bool :=
  (x boxMin <=? x p) && (x p <=? x boxMax) &&
  (y boxMin <=? y p) && (y p <=? y boxMax) &&
  (z boxMin <=? z p) && (z p <=? z boxMax).

Definition raySphere (rayOrigin rayDirection sphereCenter : Vector3)
    (radius : Number) : option Hit :=
  let oc := vector.subtract rayOrigin sphereCenter in
  let a := vector.dot rayDirection rayDirection in
  let b := 2 * vector.dot oc rayDirection in
  let c := vector.dot oc oc - radius * radius in
  let discriminant := b * b - 4 * a * c in
  if discriminant <? 0 then None
  else
    let t := (- b - Math_sqrt discriminant) / (2 * a) in
    if 0 <? t then
      Some {| hit := true; distance := t;
              point := vector.add rayOrigin (vector.multiply rayDirection t) |}
    else None.

Definition sphereSphere (center1 : Vector3) (radius1 : Number)
    (center2 : Vector3) (radius2 : Number) : bool :=
  let distance := math.distance3D center1 center2 in
  distance <=? radius1 + radius2.

End collision.

Module general.

Import JS.
Local Open Scope float_scope.

(** The template [`${mins}:${secs.toString().padStart(2, '0')}`]. *)
Definition formatTime (seconds : Number) : option string :=
  let mins := Math_floor (seconds / 60) in
  let secs := Math_floor (rem seconds 60) in
  match Number_toString 10 mins, Number_toString 10 secs with
  | Some m, Some s => Some (m ++ ":" ++ padStart 2 "0" s)%string
  | _, _ => None
  end.

(** What happens to a debounced or throttled function: it is called with
    some arguments, time passes, or the host runs the timer [n]. *)
Inductive event (A : Type) :=
  | Call (args : A)
  | Wait (dt : Z)
  | Fire (n : nat).

Arguments Call {A} args.
Arguments Wait {A} dt.
Arguments Fire {A} n.

(** [debounce(func, wait)].  The state of the function it returns: the
    variable [timeout], the timers it has set (the callback [later] of a
    timer is held as the arguments it closes over), and the calls of
    [func] made so far, each with its time and arguments.  [func] is taken
    to return normally and to leave the timers alone. *)
Section Debounce.

Context {A : Type}.

Record Debounced := { timeout : option nat; host : timers.Host A;
                      invoked : list (Z * A) }.

Definition debounce : Debounced :=
  {| timeout := None; host := timers.start; invoked := nil |}.

(** [later]: [clearTimeout(timeout); func(...args)]. *)
Definition later (args : A) (s : Debounced) : Debounced :=
  let h := timers.clearTimeout (timeout s) (host s) in
  {| timeout := timeout s; host := h;
     invoked := invoked s ++ (timers.now h, args) :: nil |}.

(** [executedFunction(...args)]:
    [clearTimeout(timeout); timeout = setTimeout(later, wait)]. *)
Definition executedFunction (wait : Number) (args : A) (s : Debounced)
    : Debounced :=
  let h := timers.clearTimeout (timeout s) (host s) in
  let '(handle, h') := timers.setTimeout args wait h in
  {| timeout := Some handle; host := h'; invoked := invoked s |}.

Definition debounce_step (wait : Number) (s : Debounced) (e : event A)
    : Debounced :=
  match e with
  | Call args => executedFunction wait args s
  | Wait dt =>
      {| timeout := timeout s; host := timers.elapse dt (host s);
         invoked := invoked s |}
  | Fire n =>
      match timers.take n (host s) with
      | Some (t, h) =>
          later (timers.callback t)
            {| timeout := timeout s; host := h; invoked := invoked s |}
      | None => s
      end
  end.

Definition debounce_run (wait : Number) (trace : list (event A)) : Debounced :=
  fold_left (debounce_step wait) trace debounce.

End Debounce.

Arguments Debounced : clear implicits.

(** [throttle(func, limit)].  The state of the function it returns: the
    variable [inThrottle] ([undefined] at first, which counts as false),
    the timers it has set (each resets [inThrottle]) and the calls of
    [func] made so far. *)
Section Throttle.

Context {A : Type}.

Record Throttled := { inThrottle : bool; throttle_host : timers.Host unit;
                      applied : list (Z * A) }.

Definition throttle : Throttled :=
  {| inThrottle := false; throttle_host := timers.start; applied := nil |}.

(** The returned function: [if (!inThrottle) { func.apply(context, args);
    inThrottle = true; setTimeout(() => inThrottle = false, limit); }]. *)
Definition throttled (limit : Number) (args : A) (s : Throttled) : Throttled :=
  if negb (inThrottle s) then
    let calls := applied s ++ (timers.now (throttle_host s), args) :: nil in
    let '(_, h) := timers.setTimeout tt limit (throttle_host s) in
    {| inThrottle := true; throttle_host := h; applied := calls |}
  else s.

Definition throttle_step (limit : Number) (s : Throttled) (e : event A)
    : Throttled :=
  match e with
  | Call args => throttled limit args s
  | Wait dt =>
      {| inThrottle := inThrottle s;
         throttle_host := timers.elapse dt (throttle_host s);
         applied := applied s |}
  | Fire n =>
      match timers.take n (throttle_host s) with
      | Some (_, h) =>
          {| inThrottle := false; throttle_host := h; applied := applied s |}
      | None => s
      end
  end.

Definition throttle_run (limit : Number) (trace : list (event A)) : Throttled :=
  fold_left (throttle_step limit) trace throttle.

End Throttle.

Arguments Throttled : clear implicits.

End general.

Module color.

Import JS.
Local Open Scope float_scope.

Record RGB := { r : Number; g : Number; b : Number }.

Definition is_hex (c : ascii) : bool :=
  match hex_value c with Some _ => true | None => false end.

(** The groups of [/^([a-f\d]{2})([a-f\d]{2})([a-f\d]{2})$/i] on a string
    whose optional [#] is already consumed. *)
Definition match_groups (s : string) : option (string * string * string) :=
  match s with
  | String c1 (String c2 (String c3 (String c4 (String c5 (String c6 EmptyString))))) =>
      if is_hex c1 && is_hex c2 && is_hex c3 && is_hex c4 && is_hex c5 && is_hex c6
      then Some (String c1 (String c2 EmptyString),
                 String c3 (String c4 EmptyString),
                 String c5 (String c6 EmptyString))
      else None
  | _ => None
  end.

(** [/^#?([a-f\d]{2})([a-f\d]{2})([a-f\d]{2})$/i.exec(hex)]: the [#] is
    tried first, then the match without it. *)
Definition regex_exec (hex : string) : option (string * string * string) :=
  match hex with
  | String "#" rest =>
      match match_groups rest with
      | Some groups => Some groups
      | None => match_groups hex
      end
  | _ => match_groups hex
  end.

Definition hexToRgb (hex : string) : option RGB :=
  match regex_exec hex with
  | Some (g1, g2, g3) =>
      Some {| r := parseInt16 g1; g := parseInt16 g2; b := parseInt16 g3 |}
  | None => None
  end.

(** ["#" + ((1 << 24) + (r << 16) + (g << 8) + b).toString(16).slice(1)];
    [None] where the digits of the sum are not modelled. *)
Definition rgbToHex (r0 g0 b0 : Number) : option string :=
  match Number_toString 16 (shl 1 24 + shl r0 16 + shl g0 8 + b0) with
  | Some digits => Some ("#" ++ slice1 digits)%string
  | None => None
  end.

Definition lerpColor (color1 color2 : string) (factor : Number) : option string :=
  match hexToRgb color1, hexToRgb color2 with
  | Some c1, Some c2 =>
      let r0 := Math_round (math.lerp (r c1) (r c2) factor) in
      let g0 := Math_round (math.lerp (g c1) (g c2) factor) in
      let b0 := Math_round (math.lerp (b c1) (b c2) factor) in
      rgbToHex r0 g0 b0
  | _, _ => Some color1
  end.

End color.

Module game.

Import JS.
Local Open Scope float_scope.

(** The functions of the [game] group read the global [GAME_CONSTANTS];
    it is the argument [env], [None] when the global is undefined. *)
Definition calculateDamage (env : option constants.Table)
    (baseDamage distance : Number) : Number :=
  match env with
  | None => baseDamage
  | Some t =>
      let maxRange := or_default (constants.weapons_max_range t) 100 in
      let falloffStart := or_default (constants.weapons_falloff_start t) 50 in
      if distance <=? falloffStart then baseDamage
      else if maxRange <=? distance then 0
      else
        let falloffFactor :=
          1 - ((distance - falloffStart) / (maxRange - falloffStart)) in
        Math_round (baseDamage * falloffFactor)
  end.

Definition isInBounds (env : option constants.Table) (position : Vector3) : bool :=
  match env with
  | None => true
  | Some t =>
      let worldSize := or_default (constants.world_size t) 200 in
      let halfSize := worldSize / 2 in
      (- halfSize <=? x position) && (x position <=? halfSize) &&
      (- halfSize <=? z position) && (z position <=? halfSize)
  end.

Definition clampToBounds (env : option constants.Table) (position : Vector3)
    : Vector3 :=
  match env with
  | None => position
  | Some t =>
      let worldSize := or_default (constants.world_size t) 200 in
      let halfSize := worldSize / 2 in
      {| x := math.clamp (x position) (- halfSize) halfSize;
         y := y position;
         z := math.clamp (z position) (- halfSize) halfSize |}
  end.

Definition getHealthPercentage (currentHealth maxHealth : Number) : Number :=
  math.clamp ((currentHealth / maxHealth) * 100) 0 100.

End game.

(** * Properties *)

Import JS.

(** Linear arithmetic with divisions and remainders by constants. *)
Ltac dlia := Z.to_euclidean_division_equations; lia.

(** ** Comparisons of Numbers *)

Section Comparisons.

Local Open Scope float_scope.

Lemma SFcompare_antisym (a b : spec_float) :
  SFcompare b a = option_map CompOpp (SFcompare a b).
Proof.
  destruct a as [sa|sa| |sa ma ea], b as [sb|sb| |sb mb eb]; simpl;
    try reflexivity;
    try (destruct sa; reflexivity); try (destruct sb; reflexivity);
    try (destruct sa, sb; reflexivity).
  change (Pos.compare_cont Eq mb ma) with (Pos.compare mb ma).
  change (Pos.compare_cont Eq ma mb) with (Pos.compare ma mb).
  rewrite (Z.compare_antisym ea eb), (Pos.compare_antisym ma mb).
  destruct sa, sb; try reflexivity;
    destruct (ea ?= eb)%Z; simpl; try reflexivity;
    destruct (ma ?= mb)%positive; reflexivity.
Qed.

Lemma SFcompare_refl (a : spec_float) :
  a <> S754_nan -> SFcompare a a = Some Eq.
Proof.
  destruct a as [s|s| |s m e]; simpl; intros Hn; try congruence.
  - destruct s; reflexivity.
  - destruct s; rewrite Z.compare_refl, Pos.compare_cont_refl; reflexivity.
Qed.

Lemma is_nan_spec (a : Number) :
  is_nan a = true <-> Prim2SF a = S754_nan.
Proof.
  unfold is_nan. rewrite eqb_spec. unfold SFeqb. split.
  - destruct (Prim2SF a) eqn:E; trivial;
      rewrite SFcompare_refl; simpl; congruence.
  - intros ->. reflexivity.
Qed.

Lemma is_nan_false (a : Number) :
  is_nan a = false <-> Prim2SF a <> S754_nan.
Proof.
  rewrite <- is_nan_spec. destruct (is_nan a); split; congruence.
Qed.

Lemma compare_defined (a b : Number) :
  is_nan a = false -> is_nan b = false ->
  exists c, SFcompare (Prim2SF a) (Prim2SF b) = Some c.
Proof.
  rewrite !is_nan_false. intros Ha Hb.
  destruct (Prim2SF a), (Prim2SF b); simpl; try congruence; eauto.
Qed.

Lemma ltb_leb (a b : Number) : (a <? b) = true -> (a <=? b) = true.
Proof.
  rewrite ltb_spec, leb_spec. unfold SFltb, SFleb.
  destruct (SFcompare _ _) as [[]|]; congruence.
Qed.

Lemma leb_refl (a : Number) : is_nan a = false -> (a <=? a) = true.
Proof.
  rewrite is_nan_false, leb_spec. unfold SFleb. intros Ha.
  now rewrite SFcompare_refl.
Qed.

Lemma not_ltb_leb (a b : Number) :
  is_nan a = false -> is_nan b = false -> (b <? a) = false -> (a <=? b) = true.
Proof.
  intros Ha Hb. destruct (compare_defined b a Hb Ha) as [c Hc].
  rewrite ltb_spec, leb_spec. unfold SFltb, SFleb.
  rewrite (SFcompare_antisym (Prim2SF b) (Prim2SF a)), Hc.
  destruct c; simpl; congruence.
Qed.

Lemma leb_not_ltb (a b : Number) : (a <=? b) = true -> (b <? a) = false.
Proof.
  rewrite ltb_spec, leb_spec. unfold SFltb, SFleb.
  rewrite (SFcompare_antisym (Prim2SF a) (Prim2SF b)).
  destruct (SFcompare _ _) as [[]|]; simpl; congruence.
Qed.

Lemma leb_not_nan (a b : Number) :
  (a <=? b) = true -> is_nan a = false /\ is_nan b = false.
Proof.
  rewrite leb_spec, !is_nan_false. unfold SFleb.
  destruct (Prim2SF a), (Prim2SF b); simpl; intros H; split; congruence.
Qed.

(** [Math.max] and [Math.min] return one of their arguments unless one of
    them is NaN. *)
Lemma Math_max_cases (a b : Number) :
  is_nan a = false -> is_nan b = false ->
  (Math_max a b = a /\ (b <=? a) = true) \/ (Math_max a b = b /\ (a <=? b) = true).
Proof.
  intros Ha Hb. unfold Math_max. rewrite Ha, Hb. simpl.
  destruct (a <? b) eqn:Hab.
  - right. split; trivial. now apply ltb_leb.
  - destruct (b <? a) eqn:Hba.
    + left. split; trivial. now apply ltb_leb.
    + destruct (get_sign a).
      * right. split; trivial. now apply not_ltb_leb.
      * left. split; trivial. now apply not_ltb_leb.
Qed.

Lemma Math_min_cases (a b : Number) :
  is_nan a = false -> is_nan b = false ->
  (Math_min a b = a /\ (a <=? b) = true) \/ (Math_min a b = b /\ (b <=? a) = true).
Proof.
  intros Ha Hb. unfold Math_min. rewrite Ha, Hb. simpl.
  destruct (a <? b) eqn:Hab.
  - left. split; trivial. now apply ltb_leb.
  - destruct (b <? a) eqn:Hba.
    + right. split; trivial. now apply ltb_leb.
    + destruct (get_sign a).
      * left. split; trivial. now apply not_ltb_leb.
      * right. split; trivial. now apply not_ltb_leb.
Qed.

(** [clamp(v, lo, hi)] lies in [[lo, hi]] when [lo <= hi] and [v] is a
    number. *)
Lemma clamp_in_range (v lo hi : Number) :
  is_nan v = false -> (lo <=? hi) = true ->
  (lo <=? math.clamp v lo hi) = true /\ (math.clamp v lo hi <=? hi) = true.
Proof.
  intros Hv Hlh. destruct (leb_not_nan _ _ Hlh) as [Hlo Hhi].
  unfold math.clamp.
  destruct (Math_max_cases v lo Hv Hlo) as [[-> H1]|[-> H1]].
  - destruct (Math_min_cases v hi Hv Hhi) as [[-> H2]|[-> H2]]; split; trivial.
    now apply leb_refl.
  - destruct (Math_min_cases lo hi Hlo Hhi) as [[-> H2]|[-> H2]]; split; trivial;
      now apply leb_refl.
Qed.

End Comparisons.

(** ** Binary64 rounding: digits, shifts and the rounded mantissa *)

Section Digits.

Local Open Scope Z_scope.

Lemma digits2_pos_size (p : positive) : digits2_pos p = Pos.size p.
Proof. induction p; simpl; congruence. Qed.

Lemma Zdigits2_log2 (n : Z) : 0 < n -> Zdigits2 n = Z.log2 n + 1.
Proof.
  destruct n as [|p|p]; try lia. intros _. simpl.
  rewrite digits2_pos_size. destruct p; simpl; lia.
Qed.

Lemma Zdigits2_bounds (n : Z) :
  0 < n -> 2 ^ (Zdigits2 n - 1) <= n < 2 ^ Zdigits2 n.
Proof.
  intros Hn. rewrite (Zdigits2_log2 n Hn).
  replace (Z.log2 n + 1 - 1) with (Z.log2 n) by lia.
  apply (Z.log2_spec n Hn).
Qed.

Lemma Zdigits2_unique (n k : Z) :
  2 ^ (k - 1) <= n < 2 ^ k -> 0 < n -> Zdigits2 n = k.
Proof.
  intros H Hn. rewrite (Zdigits2_log2 n Hn).
  assert (0 <= k - 1).
  { destruct (Z.le_gt_cases 0 (k - 1)) as [|Hk]; trivial.
    assert (k <= 0) by lia.
    assert (2 ^ k <= 1).
    { destruct (Z.eq_dec k 0) as [->|]; [simpl; lia|].
      rewrite Z.pow_neg_r; lia. }
    lia. }
  rewrite (Z.log2_unique n (k - 1)); try lia.
  replace (Z.succ (k - 1)) with k by lia. trivial.
Qed.

Lemma Zdigits2_pos (n : Z) : 0 < n -> 0 < Zdigits2 n.
Proof. destruct n; simpl; lia. Qed.

Lemma Zdigits2_0 : Zdigits2 0 = 0.
Proof. reflexivity. Qed.

Lemma Zdigits2_nonneg (n : Z) : 0 <= Zdigits2 n.
Proof. destruct n; simpl; lia. Qed.

Lemma Zdigits2_mul_pow2 (n j : Z) :
  0 < n -> 0 <= j -> Zdigits2 (n * 2 ^ j) = Zdigits2 n + j.
Proof.
  intros Hn Hj. pose proof (Zdigits2_bounds n Hn) as [Hl Hu].
  pose proof (Zdigits2_pos n Hn).
  assert (0 < 2 ^ j) by (apply Z.pow_pos_nonneg; lia).
  apply Zdigits2_unique; [|nia].
  replace (Zdigits2 n + j - 1) with (Zdigits2 n - 1 + j) by lia.
  rewrite !Z.pow_add_r by lia. nia.
Qed.

Lemma Zdigits2_le (n k : Z) : 0 <= k -> 0 <= n < 2 ^ k -> Zdigits2 n <= k.
Proof.
  intros Hk [Hn Hu]. destruct (Z.eq_dec n 0) as [->|]; [simpl; lia|].
  pose proof (Zdigits2_bounds n ltac:(lia)) as [Hl _].
  destruct (Z.le_gt_cases (Zdigits2 n) k) as [|Hgt]; trivial.
  assert (2 ^ k <= 2 ^ (Zdigits2 n - 1)) by (apply Z.pow_le_mono_r; lia).
  lia.
Qed.

Lemma Zdigits2_ge (n k : Z) : 2 ^ (k - 1) <= n -> 0 < n -> k <= Zdigits2 n.
Proof.
  intros Hl Hn. pose proof (Zdigits2_bounds n Hn) as [_ Hu].
  destruct (Z.le_gt_cases k (Zdigits2 n)) as [|Hgt]; trivial.
  assert (2 ^ Zdigits2 n <= 2 ^ (k - 1))
    by (apply Z.pow_le_mono_r; pose proof (Zdigits2_nonneg n); lia).
  lia.
Qed.

Lemma Zdigits2_div_pow2 (n j : Z) :
  0 < n -> 0 <= j < Zdigits2 n -> Zdigits2 (n / 2 ^ j) = Zdigits2 n - j.
Proof.
  intros Hn Hj. pose proof (Zdigits2_bounds n Hn) as [Hl Hu].
  assert (Hp : 0 < 2 ^ j) by (apply Z.pow_pos_nonneg; lia).
  assert (E1 : 2 ^ (Zdigits2 n - 1) = 2 ^ (Zdigits2 n - j - 1) * 2 ^ j)
    by (rewrite <- Z.pow_add_r by lia; f_equal; lia).
  assert (E2 : 2 ^ Zdigits2 n = 2 ^ (Zdigits2 n - j) * 2 ^ j)
    by (rewrite <- Z.pow_add_r by lia; f_equal; lia).
  assert (Hq : 2 ^ (Zdigits2 n - j - 1) <= n / 2 ^ j).
  { apply Z.div_le_lower_bound; lia. }
  assert (Hq' : n / 2 ^ j < 2 ^ (Zdigits2 n - j)).
  { apply Z.div_lt_upper_bound; lia. }
  assert (0 < 2 ^ (Zdigits2 n - j - 1)) by (apply Z.pow_pos_nonneg; lia).
  apply Zdigits2_unique; lia.
Qed.

End Digits.

Section Shifts.

Local Open Scope Z_scope.

Lemma fexp_eq (e : Z) : fexp prec emax e = Z.max (e - 53) (-1074).
Proof. reflexivity. Qed.

Lemma fexp_mono (a b : Z) : a <= b -> fexp prec emax a <= fexp prec emax b.
Proof. rewrite !fexp_eq. lia. Qed.

(** One shift to the right halves the mantissa; the bit shifted out
    becomes the round bit, which joins the sticky bit. *)
Lemma shr_1_spec (m : Z) (r s : bool) :
  0 <= m ->
  shr_1 (Build_shr_record m r s) = Build_shr_record (m / 2) (Z.odd m) (r || s).
Proof.
  intros Hm. destruct m as [|p|p]; try lia.
  - reflexivity.
  - unfold shr_1. destruct p as [p|p|].
    + f_equal. rewrite Pos2Z.inj_xI.
      apply (Z.div_unique _ _ _ 1); lia.
    + f_equal. rewrite Pos2Z.inj_xO.
      apply (Z.div_unique _ _ _ 0); lia.
    + reflexivity.
Qed.

Definition shr_exact (mrs : shr_record) : bool :=
  negb (shr_r mrs || shr_s mrs).

(** [F] shifts a record by [k] bits: the mantissa is divided by [2 ^ k],
    and the result is exact iff the start was and the bits shifted out
    were all zero. *)
Definition shifts (F : shr_record -> shr_record) (k : Z) : Prop :=
  forall m r s, 0 <= m ->
  shr_m (F (Build_shr_record m r s)) = m / 2 ^ k /\
  (shr_exact (F (Build_shr_record m r s)) = true
   <-> m mod 2 ^ k = 0 /\ r = false /\ s = false).

Lemma shifts_1 : shifts shr_1 1.
Proof.
  intros m r s Hm. rewrite (shr_1_spec m r s Hm). cbn [shr_m].
  split; [reflexivity|]. unfold shr_exact. cbn [shr_r shr_s].
  change (2 ^ 1) with 2. rewrite Zmod_odd.
  destruct (Z.odd m), r, s; simpl; intuition congruence.
Qed.

Lemma shifts_comp (F G : shr_record -> shr_record) (j k : Z) :
  0 <= j -> 0 <= k -> shifts F j -> shifts G k ->
  shifts (fun mrs => G (F mrs)) (j + k).
Proof.
  intros Hj Hk HF HG m r s Hm.
  destruct (HF m r s Hm) as [E1 X1].
  destruct (F (Build_shr_record m r s)) as [m1 r1 s1].
  cbn [shr_m] in E1. unfold shr_exact in X1. cbn [shr_r shr_s] in X1.
  assert (Hp : 0 < 2 ^ j) by (apply Z.pow_pos_nonneg; lia).
  assert (Hq : 0 < 2 ^ k) by (apply Z.pow_pos_nonneg; lia).
  assert (Hm1 : 0 <= m1) by (subst m1; apply Z.div_pos; lia).
  destruct (HG m1 r1 s1 Hm1) as [E2 X2]. split.
  - rewrite E2, E1, Z.div_div, <- Z.pow_add_r by lia. reflexivity.
  - rewrite X2, Z.pow_add_r by lia.
    rewrite (Z.rem_mul_r m (2 ^ j) (2 ^ k)) by lia.
    pose proof (Z.mod_pos_bound m (2 ^ j) Hp).
    pose proof (Z.mod_pos_bound (m / 2 ^ j) (2 ^ k) Hq).
    subst m1. split.
    + intros (A & B & C).
      assert (Hx : negb (r1 || s1) = true) by (rewrite B, C; reflexivity).
      apply X1 in Hx. destruct Hx as (A' & B' & C'). repeat split; trivial. nia.
    + intros (A & B & C).
      assert (m mod 2 ^ j = 0) by nia.
      assert (m / 2 ^ j mod 2 ^ k = 0) by nia.
      assert (Hx : negb (r1 || s1) = true) by (apply X1; auto).
      destruct r1, s1; simpl in Hx; try discriminate. auto.
Qed.

Lemma shr_iter_spec (p : positive) : shifts (iter_pos shr_1 p) (Zpos p).
Proof.
  induction p as [p IH|p IH|].
  - rewrite Pos2Z.inj_xI.
    replace (2 * Zpos p + 1) with (1 + (Zpos p + Zpos p)) by lia.
    apply (shifts_comp shr_1 (fun mrs => iter_pos shr_1 p (iter_pos shr_1 p mrs)));
      try lia; [apply shifts_1|].
    apply (shifts_comp (iter_pos shr_1 p) (iter_pos shr_1 p)); trivial; lia.
  - rewrite Pos2Z.inj_xO.
    replace (2 * Zpos p) with (Zpos p + Zpos p) by lia.
    apply (shifts_comp (iter_pos shr_1 p) (iter_pos shr_1 p)); trivial; lia.
  - apply shifts_1.
Qed.

Lemma loc_exact_iff (mrs : shr_record) :
  loc_of_shr_record mrs = loc_Exact <-> shr_exact mrs = true.
Proof.
  destruct mrs as [m [] []]; unfold shr_exact; simpl; split; congruence.
Qed.

Lemma shr_record_of_loc_m (m : Z) (l : location) :
  shr_m (shr_record_of_loc m l) = m.
Proof. destruct l as [|[]]; reflexivity. Qed.

Lemma shr_record_of_loc_exact (m : Z) (l : location) :
  shr_exact (shr_record_of_loc m l) = true <-> l = loc_Exact.
Proof.
  destruct l as [|[]]; unfold shr_exact; simpl; split; congruence.
Qed.

(** [shr] by [n >= 0] bits divides the mantissa by [2 ^ n]; the result is
    exact iff the start was and no one bit was shifted out. *)
Lemma shr_spec (m : Z) (l : location) (e n : Z) :
  0 <= m -> 0 <= n ->
  let '(mrs, e') := shr (shr_record_of_loc m l) e n in
  e' = e + n /\ shr_m mrs = m / 2 ^ n /\
  (shr_exact mrs = true <-> m mod 2 ^ n = 0 /\ l = loc_Exact).
Proof.
  intros Hm Hn. destruct n as [|p|p]; try lia.
  - cbn [shr]. rewrite shr_record_of_loc_m, shr_record_of_loc_exact.
    rewrite Z.pow_0_r, Z.div_1_r, Z.mod_1_r. intuition lia.
  - cbn [shr].
    destruct (shr_record_of_loc m l) as [m0 r0 s0] eqn:E.
    assert (m0 = m) by (rewrite <- (shr_record_of_loc_m m l), E; reflexivity).
    subst m0.
    destruct (shr_iter_spec p m r0 s0 Hm) as [E1 X1].
    split; [reflexivity|]. split; [exact E1|].
    rewrite X1, <- (shr_record_of_loc_exact m l), E. unfold shr_exact.
    cbn [shr_r shr_s]. destruct r0, s0; simpl; intuition congruence.
Qed.

Lemma round_nearest_even_cases (m : Z) (l : location) :
  (round_nearest_even m l = m \/ round_nearest_even m l = m + 1) /\
  (l = loc_Exact -> round_nearest_even m l = m).
Proof.
  destruct l as [|[]]; simpl; try (destruct (Z.even m)); intuition congruence.
Qed.

End Shifts.

Section RoundAux.

Local Open Scope Z_scope.

(** The float with mantissa [u <= 2 ^ 53] on the exponent [e]; the
    mantissa [2 ^ 53] moves to the next exponent, and an exponent above
    971 gives an infinity. *)
Definition pack (s : bool) (u e : Z) : spec_float :=
  match u with
  | Zpos m =>
      if u =? 2 ^ 53 then
        if e + 1 <=? 971 then S754_finite s (2 ^ 52)%positive (e + 1)
        else S754_infinity s
      else if e <=? 971 then S754_finite s m e else S754_infinity s
  | _ => S754_zero s
  end.

Lemma shr_nonpos (mrs : shr_record) (e n : Z) : n <= 0 -> shr mrs e n = (mrs, e).
Proof. destruct n; try reflexivity. lia. Qed.

Lemma quotient_below_2_53 (mx ex : Z) :
  0 <= mx -> ex <= fexp prec emax (Zdigits2 mx + ex) ->
  mx / 2 ^ (fexp prec emax (Zdigits2 mx + ex) - ex) < 2 ^ 53.
Proof.
  intros Hm He. set (n := fexp prec emax (Zdigits2 mx + ex) - ex).
  assert (Hn : 0 <= n) by (unfold n; lia).
  assert (Hp : 0 < 2 ^ n) by (apply Z.pow_pos_nonneg; lia).
  apply Z.div_lt_upper_bound; trivial.
  destruct (Z.eq_dec mx 0) as [->|Hz]; [lia|].
  pose proof (Zdigits2_bounds mx ltac:(lia)) as [_ Hu].
  pose proof (Zdigits2_pos mx ltac:(lia)) as Hd.
  assert (Zdigits2 mx <= n + 53)
    by (unfold n; rewrite fexp_eq; lia).
  assert (2 ^ Zdigits2 mx <= 2 ^ (n + 53)) by (apply Z.pow_le_mono_r; lia).
  rewrite Z.pow_add_r in * by lia. lia.
Qed.

(** The result of [binary_round_aux] on a mantissa that is fine enough:
    the quotient [q] of the mantissa on the exponent of its binade, or
    [q + 1]; it is [q] when nothing is lost. *)
Lemma binary_round_aux_spec (s : bool) (mx ex : Z) (lx : location) :
  0 <= mx -> ex <= fexp prec emax (Zdigits2 mx + ex) ->
  let e1 := fexp prec emax (Zdigits2 mx + ex) in
  let q := mx / 2 ^ (e1 - ex) in
  exists u, (u = q \/ u = q + 1) /\
            (lx = loc_Exact -> mx mod 2 ^ (e1 - ex) = 0 -> u = q) /\
            binary_round_aux prec emax s mx ex lx = pack s u e1.
Proof.
  intros Hm He e1 q.
  assert (Hq53 : q < 2 ^ 53) by (apply quotient_below_2_53; trivial).
  assert (Hn : 0 <= e1 - ex) by (unfold e1; lia).
  assert (Hq0 : 0 <= q)
    by (apply Z.div_pos; trivial; apply Z.pow_pos_nonneg; lia).
  assert (He1 : -1074 <= e1) by (unfold e1; rewrite fexp_eq; lia).
  unfold binary_round_aux, shr_fexp. fold e1.
  pose proof (shr_spec mx lx ex (e1 - ex) Hm Hn) as H1.
  destruct (shr (shr_record_of_loc mx lx) ex (e1 - ex)) as [mrs' e'].
  destruct H1 as (-> & E1 & X1). fold q in E1.
  replace (ex + (e1 - ex)) with e1 by lia.
  destruct (round_nearest_even_cases (shr_m mrs') (loc_of_shr_record mrs'))
    as [Hu Hx].
  set (u := round_nearest_even (shr_m mrs') (loc_of_shr_record mrs')) in *.
  rewrite E1 in Hu.
  exists u. split; [exact Hu|]. split.
  - intros -> Hmod. rewrite <- E1. apply Hx. apply loc_exact_iff, X1. auto.
  - assert (Hu53 : 0 <= u <= 2 ^ 53) by lia.
    destruct (Z.eq_dec u (2 ^ 53)) as [E|NE].
    + rewrite E. change (Zdigits2 (2 ^ 53)) with 54.
      replace (fexp prec emax (54 + e1) - e1) with 1
        by (rewrite fexp_eq; lia).
      change (shr_record_of_loc (2 ^ 53) loc_Exact)
        with (Build_shr_record (2 ^ 53) false false).
      cbn [shr iter_pos shr_1 shr_m]. unfold pack.
      change (2 ^ 53 =? 2 ^ 53) with true. cbn iota.
      change (emax - prec) with 971. reflexivity.
    + assert (Hd : Zdigits2 u <= 53) by (apply Zdigits2_le; lia).
      rewrite shr_nonpos by (rewrite fexp_eq; lia).
      rewrite shr_record_of_loc_m. unfold pack.
      destruct u as [|p|p]; try lia; trivial.
      rewrite (proj2 (Z.eqb_neq _ _) NE).
      change (emax - prec) with 971. reflexivity.
Qed.

End RoundAux.

(** ** Values of binary64 numbers *)

Section Values.

Local Open Scope Z_scope.

(** The value of a finite number, counted in units of [2 ^ -1074] (the
    smallest positive binary64 number): an integer. *)
Definition Zval (a : spec_float) : Z :=
  match a with
  | S754_finite s m e => cond_Zopp s (Zpos m * 2 ^ (e + 1074))
  | _ => 0
  end.

Definition SFfinite (a : spec_float) : bool :=
  match a with
  | S754_finite _ _ _ | S754_zero _ => true
  | _ => false
  end.

(** The sign bit of a number that is not NaN. *)
Definition SFsign (a : spec_float) : bool :=
  match a with
  | S754_finite s _ _ | S754_zero s | S754_infinity s => s
  | S754_nan => false
  end.

Definition canonical (u e : Z) : Prop :=
  0 <= u <= 2 ^ 53 /\ -1074 <= e /\ (e = -1074 \/ 2 ^ 52 <= u).

Lemma valid_finite_iff (s : bool) (m : positive) (e : Z) :
  valid_binary (S754_finite s m e) = true <->
  Zpos m < 2 ^ 53 /\ -1074 <= e <= 971 /\ (e = -1074 \/ 2 ^ 52 <= Zpos m).
Proof.
  unfold valid_binary, bounded, canonical_mantissa.
  rewrite andb_true_iff, Z.eqb_eq, Z.leb_le, fexp_eq.
  change (emax - prec) with 971.
  change (Zpos (digits2_pos m)) with (Zdigits2 (Zpos m)).
  pose proof (Zdigits2_bounds (Zpos m) ltac:(lia)) as [Hl Hu].
  pose proof (Zdigits2_pos (Zpos m) ltac:(lia)) as Hd.
  split.
  - intros [Hc He].
    assert (Hd53 : Zdigits2 (Zpos m) <= 53) by lia.
    assert (2 ^ Zdigits2 (Zpos m) <= 2 ^ 53) by (apply Z.pow_le_mono_r; lia).
    split; [lia|]. split; [lia|].
    destruct (Z.eq_dec e (-1074)) as [|Hne]; [now left|right].
    assert (Zdigits2 (Zpos m) = 53) by lia.
    replace (2 ^ 52) with (2 ^ (Zdigits2 (Zpos m) - 1)); trivial.
    now replace (Zdigits2 (Zpos m)) with 53.
  - intros (Hm & He & Hc).
    assert (Hd53 : Zdigits2 (Zpos m) <= 53) by (apply Zdigits2_le; lia).
    split; [|lia]. destruct Hc as [->|Hc]; [lia|].
    assert (53 <= Zdigits2 (Zpos m)) by (apply Zdigits2_ge; simpl; lia).
    lia.
Qed.

Lemma pack_valid (s : bool) (u e : Z) :
  canonical u e -> valid_binary (pack s u e) = true.
Proof.
  intros (Hu & He & Hc). unfold pack.
  destruct u as [|p|p]; try reflexivity.
  destruct (Z.eqb_spec (Zpos p) (2 ^ 53)) as [E|NE].
  - destruct (Z.leb_spec (e + 1) 971); [|reflexivity].
    apply valid_finite_iff. change (Zpos (2 ^ 52)) with (2 ^ 52). lia.
  - destruct (Z.leb_spec e 971); [|reflexivity].
    apply valid_finite_iff. lia.
Qed.

Lemma pow2_pos (k : Z) : 0 <= k -> 0 < 2 ^ k.
Proof. intros. apply Z.pow_pos_nonneg; lia. Qed.

(** A packed number is finite below [2 ^ 1024], and then has the value
    of its mantissa. *)
Lemma pack_finite (s : bool) (u e : Z) :
  canonical u e -> u * 2 ^ (e + 1074) < 2 ^ 2098 ->
  SFfinite (pack s u e) = true /\
  Zval (pack s u e) = cond_Zopp s (u * 2 ^ (e + 1074)).
Proof.
  intros (Hu & He & Hc) Hlt. unfold pack.
  destruct u as [|p|p]; try lia.
  { split; [reflexivity|]. destruct s; reflexivity. }
  assert (Hp : 0 < 2 ^ (e + 1074)) by (apply pow2_pos; lia).
  assert (Hbig : 972 <= e -> 2 ^ 2098 <= Zpos p * 2 ^ (e + 1074)).
  { intros Hge. destruct Hc as [->|Hc]; [lia|].
    assert (2 ^ 2046 <= 2 ^ (e + 1074)) by (apply Z.pow_le_mono_r; lia).
    change (2 ^ 2098) with (2 ^ 52 * 2 ^ 2046). nia. }
  destruct (Z.eqb_spec (Zpos p) (2 ^ 53)) as [E|NE].
  - destruct (Z.leb_spec (e + 1) 971) as [Hle|Hgt].
    + split; [reflexivity|]. cbn [Zval]. f_equal. rewrite E.
      replace (e + 1 + 1074) with (1 + (e + 1074)) by lia.
      rewrite Z.pow_add_r by lia.
      change (Zpos (2 ^ 52)) with (2 ^ 52). change (2 ^ 53) with (2 ^ 52 * 2 ^ 1).
      ring.
    + exfalso. assert (971 <= e) by lia.
      assert (2 ^ 2045 <= 2 ^ (e + 1074)) by (apply Z.pow_le_mono_r; lia).
      rewrite E in Hlt. change (2 ^ 2098) with (2 ^ 53 * 2 ^ 2045) in Hlt. nia.
  - destruct (Z.leb_spec e 971) as [Hle|Hgt].
    + split; reflexivity.
    + exfalso. specialize (Hbig ltac:(lia)). lia.
Qed.

Lemma pack_overflow (s : bool) (u e : Z) :
  canonical u e -> 2 ^ 2098 <= u * 2 ^ (e + 1074) ->
  pack s u e = S754_infinity s.
Proof.
  intros (Hu & He & Hc) Hge. unfold pack.
  assert (Hp : 0 < 2 ^ (e + 1074)) by (apply pow2_pos; lia).
  destruct u as [|p|p]; try lia.
  assert (Hsmall : e <= 970 -> Zpos p * 2 ^ (e + 1074) < 2 ^ 2098).
  { intros Hle.
    assert (2 ^ (e + 1074) <= 2 ^ 2044) by (apply Z.pow_le_mono_r; lia).
    change (2 ^ 2098) with (2 ^ 54 * 2 ^ 2044). nia. }
  destruct (Z.eqb_spec (Zpos p) (2 ^ 53)) as [E|NE].
  - destruct (Z.leb_spec (e + 1) 971) as [Hle|Hgt]; trivial.
    specialize (Hsmall ltac:(lia)). lia.
  - destruct (Z.leb_spec e 971) as [Hle|Hgt]; trivial.
    destruct (Z.eq_dec e 971) as [->|]; [|specialize (Hsmall ltac:(lia)); lia].
    exfalso. change (2 ^ (971 + 1074)) with (2 ^ 2045) in *.
    change (2 ^ 2098) with (2 ^ 53 * 2 ^ 2045) in Hge. nia.
Qed.

Lemma pack_sign (s : bool) (u e : Z) : SFsign (pack s u e) = s.
Proof.
  unfold pack. destruct u; trivial.
  destruct (_ =? _); [destruct (_ <=? _)|destruct (_ <=? _)]; reflexivity.
Qed.

Lemma mul_compare_r (n m p : Z) : 0 < p -> (n * p ?= m * p) = (n ?= m).
Proof.
  intros Hp. destruct (Z.compare_spec n m) as [->|H|H].
  - apply Z.compare_refl.
  - apply Z.compare_lt_iff. nia.
  - apply Z.compare_gt_iff. nia.
Qed.

(** Two valid numbers on different exponents are ordered as the
    exponents. *)
Lemma valid_exponent_lt (s1 s2 : bool) (m1 m2 : positive) (e1 e2 : Z) :
  valid_binary (S754_finite s1 m1 e1) = true ->
  valid_binary (S754_finite s2 m2 e2) = true ->
  e1 < e2 -> Zpos m1 * 2 ^ (e1 + 1074) < Zpos m2 * 2 ^ (e2 + 1074).
Proof.
  rewrite !valid_finite_iff. intros (H1 & He1 & _) (H2 & He2 & Hc2) Hlt.
  assert (Hp : 0 < 2 ^ (e1 + 1074)) by (apply pow2_pos; lia).
  replace (e2 + 1074) with ((e2 - e1) + (e1 + 1074)) by lia.
  rewrite (Z.pow_add_r 2 (e2 - e1) (e1 + 1074)) by lia.
  assert (2 ^ 1 <= 2 ^ (e2 - e1)) by (apply Z.pow_le_mono_r; lia).
  change (2 ^ 1) with 2 in *. change (2 ^ 53) with (2 * 2 ^ 52) in *.
  destruct Hc2 as [->|Hc2]; [lia|].
  assert (Zpos m1 < Zpos m2 * 2 ^ (e2 - e1)) by nia.
  rewrite Z.mul_assoc. apply Z.mul_lt_mono_pos_r; trivial.
Qed.

Lemma SFcompare_Zval (a b : spec_float) :
  valid_binary a = true -> valid_binary b = true ->
  SFfinite a = true -> SFfinite b = true ->
  SFcompare a b = Some (Zval a ?= Zval b).
Proof.
  intros Va Vb Fa Fb.
  destruct a as [sa|sa| |sa ma ea], b as [sb|sb| |sb mb eb];
    try discriminate; cbn [SFcompare Zval].
  - reflexivity.
  - assert (0 < Zpos mb * 2 ^ (eb + 1074)).
    { apply valid_finite_iff in Vb. apply Z.mul_pos_pos; [lia|apply pow2_pos; lia]. }
    destruct sb; cbn [cond_Zopp]; f_equal; symmetry;
      [apply Z.compare_gt_iff|apply Z.compare_lt_iff]; lia.
  - assert (0 < Zpos ma * 2 ^ (ea + 1074)).
    { apply valid_finite_iff in Va. apply Z.mul_pos_pos; [lia|apply pow2_pos; lia]. }
    destruct sa; cbn [cond_Zopp]; f_equal; symmetry;
      [apply Z.compare_lt_iff|apply Z.compare_gt_iff]; lia.
  - pose proof (proj1 (valid_finite_iff _ _ _) Va) as (Ha & Hea & _).
    pose proof (proj1 (valid_finite_iff _ _ _) Vb) as (Hb & Heb & _).
    assert (Pa : 0 < 2 ^ (ea + 1074)) by (apply pow2_pos; lia).
    assert (Pb : 0 < 2 ^ (eb + 1074)) by (apply pow2_pos; lia).
    change (Pos.compare_cont Eq ma mb) with (Zpos ma ?= Zpos mb).
    assert (Hcmp : (ea ?= eb) = Lt ->
              Zpos ma * 2 ^ (ea + 1074) < Zpos mb * 2 ^ (eb + 1074)).
    { intros H. apply Z.compare_lt_iff in H.
      apply (valid_exponent_lt sa sb); trivial. }
    assert (Hcmp' : (ea ?= eb) = Gt ->
              Zpos mb * 2 ^ (eb + 1074) < Zpos ma * 2 ^ (ea + 1074)).
    { intros H. apply Z.compare_gt_iff in H.
      apply (valid_exponent_lt sb sa); trivial. }
    destruct sa, sb; cbn [cond_Zopp]; f_equal; symmetry.
    + destruct (ea ?= eb) eqn:E.
      * apply Z.compare_eq in E. subst eb.
        rewrite Z.compare_opp, mul_compare_r by lia.
        apply Z.compare_antisym.
      * apply Z.compare_gt_iff. specialize (Hcmp eq_refl). lia.
      * apply Z.compare_lt_iff. specialize (Hcmp' eq_refl). lia.
    + apply Z.compare_lt_iff. nia.
    + apply Z.compare_gt_iff. nia.
    + destruct (ea ?= eb) eqn:E.
      * apply Z.compare_eq in E. subst eb.
        apply mul_compare_r; lia.
      * apply Z.compare_lt_iff. apply (Hcmp eq_refl).
      * apply Z.compare_gt_iff. apply (Hcmp' eq_refl).
Qed.

(** Valid finite numbers of one sign are determined by their value. *)
Lemma Zval_inj (a b : spec_float) :
  valid_binary a = true -> valid_binary b = true ->
  SFfinite a = true -> SFfinite b = true ->
  SFsign a = SFsign b -> Zval a = Zval b -> a = b.
Proof.
  intros Va Vb Fa Fb Hs Hv.
  pose proof (SFcompare_Zval a b Va Vb Fa Fb) as Hc.
  rewrite Hv, Z.compare_refl in Hc.
  destruct a as [sa|sa| |sa ma ea], b as [sb|sb| |sb mb eb];
    try discriminate; cbn [SFsign] in Hs; subst.
  - reflexivity.
  - cbn [SFcompare] in Hc. destruct sb; discriminate.
  - cbn [SFcompare] in Hc. destruct sb; discriminate.
  - cbn [SFcompare] in Hc.
    change (Pos.compare_cont Eq ma mb) with (Pos.compare ma mb) in Hc.
    destruct sb; destruct (ea ?= eb) eqn:E; try discriminate;
      apply Z.compare_eq in E; subst;
      destruct (ma ?= mb)%positive eqn:E'; try discriminate;
      apply Pos.compare_eq in E'; subst; reflexivity.
Qed.

End Values.

(** ** Rounding against the numbers of the format *)

Section Sandwich.

Local Open Scope Z_scope.

Lemma binary_round_aux_canonical (s : bool) (mx ex : Z) (lx : location) :
  0 <= mx -> ex <= fexp prec emax (Zdigits2 mx + ex) ->
  let e1 := fexp prec emax (Zdigits2 mx + ex) in
  let q := mx / 2 ^ (e1 - ex) in
  exists u, q <= u <= q + 1 /\
            (lx = loc_Exact -> mx mod 2 ^ (e1 - ex) = 0 -> u = q) /\
            canonical u e1 /\
            binary_round_aux prec emax s mx ex lx = pack s u e1.
Proof.
  intros Hm He e1 q.
  destruct (binary_round_aux_spec s mx ex lx Hm He) as (u & Hu & Hx & E).
  fold e1 in Hu, Hx, E. fold q in Hu, Hx.
  pose proof (quotient_below_2_53 mx ex Hm He) as Hq53. fold e1 q in Hq53.
  assert (Hn : 0 <= e1 - ex) by (unfold e1; lia).
  assert (Hp : 0 < 2 ^ (e1 - ex)) by (apply pow2_pos; lia).
  assert (Hq0 : 0 <= q) by (apply Z.div_pos; lia).
  exists u. split; [lia|]. split; [exact Hx|]. split; [|exact E].
  split; [lia|]. split; [unfold e1; rewrite fexp_eq; lia|].
  destruct (Z.eq_dec e1 (-1074)) as [|Hne]; [now left|right].
  destruct (Z.eq_dec mx 0) as [->|Hz].
  { exfalso. unfold e1 in *. rewrite Zdigits2_0, fexp_eq in *. lia. }
  pose proof (Zdigits2_bounds mx ltac:(lia)) as [Hl _].
  assert (En : e1 - ex = Zdigits2 mx - 53) by (unfold e1 in *; rewrite fexp_eq in *; lia).
  assert (2 ^ 52 <= q); [|lia].
  apply Z.div_le_lower_bound; trivial.
  rewrite En, Z.mul_comm, <- Z.pow_add_r by lia.
  now replace (52 + (Zdigits2 mx - 53)) with (Zdigits2 mx - 1) by lia.
Qed.

(** A number of the format that is at most the exact value is at most
    the quotient on the grid. *)
Lemma grid_lower (sw : bool) (mw : positive) (ew mx ex : Z) :
  valid_binary (S754_finite sw mw ew) = true ->
  0 <= mx -> ex <= fexp prec emax (Zdigits2 mx + ex) ->
  (ex <= ew -> Zpos mw * 2 ^ (ew - ex) <= mx) ->
  let e1 := fexp prec emax (Zdigits2 mx + ex) in
  Zpos mw * 2 ^ (ew + 1074) <= mx / 2 ^ (e1 - ex) * 2 ^ (e1 + 1074).
Proof.
  intros Vw Hm He Hle e1.
  pose proof (proj1 (valid_finite_iff _ _ _) Vw) as (Hw53 & Hew & Hcw).
  assert (He1 : -1074 <= e1) by (unfold e1; rewrite fexp_eq; lia).
  assert (Hn : 0 <= e1 - ex) by (unfold e1; lia).
  assert (Hp : 0 < 2 ^ (e1 - ex)) by (apply pow2_pos; lia).
  assert (Hp1 : 0 < 2 ^ (e1 + 1074)) by (apply pow2_pos; lia).
  destruct (Z.le_gt_cases e1 ew) as [Hge|Hlt].
  - specialize (Hle ltac:(lia)).
    replace (ew - ex) with ((ew - e1) + (e1 - ex)) in Hle by lia.
    rewrite Z.pow_add_r, Z.mul_assoc in Hle by lia.
    assert (Zpos mw * 2 ^ (ew - e1) <= mx / 2 ^ (e1 - ex))
      by (apply Z.div_le_lower_bound; lia).
    replace (ew + 1074) with ((ew - e1) + (e1 + 1074)) by lia.
    rewrite Z.pow_add_r, Z.mul_assoc by lia.
    apply Z.mul_le_mono_nonneg_r; lia.
  - assert (Vw' : fexp prec emax (Zdigits2 (Zpos mw) + ew) = ew).
    { unfold valid_binary, bounded, canonical_mantissa in Vw.
      apply andb_true_iff in Vw. destruct Vw as [Vw _].
      now apply Z.eqb_eq in Vw. }
    assert (Hd : Zdigits2 (Zpos mw) + ew < Zdigits2 mx + ex).
    { destruct (Z.lt_ge_cases (Zdigits2 (Zpos mw) + ew) (Zdigits2 mx + ex)) as [|Hc];
        trivial.
      pose proof (fexp_mono _ _ Hc). fold e1 in H. lia. }
    pose proof (Zdigits2_pos (Zpos mw) ltac:(lia)) as Hdw.
    pose proof (Zdigits2_bounds (Zpos mw) ltac:(lia)) as [_ Huw].
    destruct (Z.eq_dec mx 0) as [->|Hz].
    { exfalso. rewrite Zdigits2_0 in Hd. unfold e1 in *.
      rewrite Zdigits2_0, fexp_eq in *. lia. }
    pose proof (Zdigits2_bounds mx ltac:(lia)) as [Hlx _].
    pose proof (Zdigits2_pos mx ltac:(lia)) as Hdx.
    set (k := Zdigits2 mx + ex - 1 - e1).
    assert (Hk : 0 <= k) by (unfold k, e1 in *; rewrite fexp_eq in *; lia).
    assert (Hq : 2 ^ k <= mx / 2 ^ (e1 - ex)).
    { apply Z.div_le_lower_bound; trivial.
      rewrite Z.mul_comm, <- Z.pow_add_r by lia.
      now replace (k + (e1 - ex)) with (Zdigits2 mx - 1) by (unfold k; lia). }
    assert (Hw : Zpos mw * 2 ^ (ew + 1074) < 2 ^ (Zdigits2 (Zpos mw) + ew + 1074)).
    { replace (Zdigits2 (Zpos mw) + ew + 1074)
        with (Zdigits2 (Zpos mw) + (ew + 1074)) by lia.
      rewrite (Z.pow_add_r 2 (Zdigits2 (Zpos mw)) (ew + 1074)) by lia.
      apply Z.mul_lt_mono_pos_r; [apply pow2_pos|]; lia. }
    assert (Hx : 2 ^ (Zdigits2 (Zpos mw) + ew + 1074) <= 2 ^ (k + (e1 + 1074)))
      by (apply Z.pow_le_mono_r; unfold k; lia).
    rewrite (Z.pow_add_r 2 k (e1 + 1074)) in Hx by lia.
    assert (2 ^ k * 2 ^ (e1 + 1074) <= mx / 2 ^ (e1 - ex) * 2 ^ (e1 + 1074))
      by (apply Z.mul_le_mono_nonneg_r; lia).
    lia.
Qed.

(** A number of the format that is at least the exact value is at least
    the rounded mantissa on the grid. *)
Lemma grid_upper (sw : bool) (mw : positive) (ew mx ex u : Z) (exact : Prop) :
  valid_binary (S754_finite sw mw ew) = true ->
  0 <= mx -> ex <= fexp prec emax (Zdigits2 mx + ex) ->
  let e1 := fexp prec emax (Zdigits2 mx + ex) in
  let q := mx / 2 ^ (e1 - ex) in
  q <= u <= q + 1 -> (exact -> mx mod 2 ^ (e1 - ex) = 0 -> u = q) ->
  mx * 2 ^ (ex - Z.min ex ew) <= Zpos mw * 2 ^ (ew - Z.min ex ew) ->
  (~ exact -> mx * 2 ^ (ex - Z.min ex ew) < Zpos mw * 2 ^ (ew - Z.min ex ew)) ->
  u * 2 ^ (e1 + 1074) <= Zpos mw * 2 ^ (ew + 1074).
Proof.
  intros Vw Hm He e1 q Hu Hx Hle Hlt.
  pose proof (proj1 (valid_finite_iff _ _ _) Vw) as (Hw53 & Hew & Hcw).
  assert (He1 : -1074 <= e1) by (unfold e1; rewrite fexp_eq; lia).
  assert (Hn : 0 <= e1 - ex) by (unfold e1; lia).
  assert (Hp : 0 < 2 ^ (e1 - ex)) by (apply pow2_pos; lia).
  assert (Hp1 : 0 < 2 ^ (e1 + 1074)) by (apply pow2_pos; lia).
  assert (Hpw : 0 < 2 ^ (ew + 1074)) by (apply pow2_pos; lia).
  destruct (Z.eq_dec mx 0) as [Ez|Hz].
  { assert (Hq : q = 0) by (unfold q; rewrite Ez; apply Z.div_0_l; lia).
    assert (Ee : e1 = -1074).
    { unfold e1 in *. rewrite Ez, Zdigits2_0, fexp_eq in *. lia. }
    rewrite Ee. change (2 ^ (-1074 + 1074)) with 1. nia. }
  assert (Hge : e1 <= ew).
  { assert (Vw' : fexp prec emax (Zdigits2 (Zpos mw) + ew) = ew).
    { unfold valid_binary, bounded, canonical_mantissa in Vw.
      apply andb_true_iff in Vw. destruct Vw as [Vw _].
      now apply Z.eqb_eq in Vw. }
    rewrite <- Vw'. apply fexp_mono.
    pose proof (Zdigits2_bounds mx ltac:(lia)) as [Hlx _].
    pose proof (Zdigits2_bounds (Zpos mw) ltac:(lia)) as [_ Huw].
    pose proof (Zdigits2_pos mx ltac:(lia)) as Hdx.
    pose proof (Zdigits2_pos (Zpos mw) ltac:(lia)) as Hdw.
    destruct (Z.le_gt_cases (Zdigits2 mx + ex) (Zdigits2 (Zpos mw) + ew)) as [|Hc];
      trivial. exfalso.
    set (c := Z.min ex ew) in *.
    assert (Hc1 : 0 <= ex - c) by (unfold c; lia).
    assert (Hc2 : 0 <= ew - c) by (unfold c; lia).
    assert (A : Zpos mw * 2 ^ (ew - c) < 2 ^ (Zdigits2 (Zpos mw) + (ew - c))).
    { rewrite Z.pow_add_r by lia.
      apply Z.mul_lt_mono_pos_r; [apply pow2_pos|]; lia. }
    assert (B : 2 ^ (Zdigits2 mx - 1 + (ex - c)) <= mx * 2 ^ (ex - c)).
    { rewrite Z.pow_add_r by lia.
      apply Z.mul_le_mono_nonneg_r; [apply Z.lt_le_incl, pow2_pos|]; lia. }
    assert (2 ^ (Zdigits2 (Zpos mw) + (ew - c)) <= 2 ^ (Zdigits2 mx - 1 + (ex - c)))
      by (apply Z.pow_le_mono_r; lia).
    lia. }
  replace (Z.min ex ew) with ex in * by lia.
  rewrite Z.sub_diag, Z.pow_0_r, Z.mul_1_r in *.
  replace (ew - ex) with ((ew - e1) + (e1 - ex)) in * by lia.
  rewrite Z.pow_add_r, Z.mul_assoc in * by lia.
  set (G := Zpos mw * 2 ^ (ew - e1)) in *.
  assert (HuG : u <= G).
  { assert (Hq : q <= G).
    { unfold q. apply Z.div_le_upper_bound; trivial. lia. }
    destruct (Z.eq_dec u q) as [|Hne]; [lia|].
    assert (mx < G * 2 ^ (e1 - ex)).
    { destruct (Z.eq_dec mx (G * 2 ^ (e1 - ex))) as [E|]; [|lia].
      apply Hlt. intros Hex. apply Hne, Hx; trivial.
      rewrite E. apply Z.mod_mul. lia. }
    assert (q < G) by (unfold q; apply Z.div_lt_upper_bound; lia).
    lia. }
  replace (ew + 1074) with ((ew - e1) + (e1 + 1074)) by lia.
  rewrite (Z.pow_add_r 2 (ew - e1) (e1 + 1074)), Z.mul_assoc by lia. fold G.
  apply Z.mul_le_mono_nonneg_r; lia.
Qed.

End Sandwich.

Section RoundBounds.

Local Open Scope Z_scope.

(** A valid finite number that is not negative. *)
Definition nonneg (a : spec_float) : Prop :=
  valid_binary a = true /\ SFfinite a = true /\ 0 <= Zval a.

Lemma Zval_valid_bound (a : spec_float) :
  valid_binary a = true -> Zval a < 2 ^ 2098.
Proof.
  destruct a as [s|s| |s m e]; try (intros _; reflexivity).
  intros V. apply valid_finite_iff in V. destruct V as (Hm & He & _).
  assert (0 < 2 ^ (e + 1074)) by (apply pow2_pos; lia).
  assert (2 ^ (e + 1074) <= 2 ^ 2045) by (apply Z.pow_le_mono_r; lia).
  cbn [Zval]. change (2 ^ 2098) with (2 ^ 53 * 2 ^ 2045).
  destruct s; cbn [cond_Zopp]; nia.
Qed.

Lemma scaled_le (m1 e1 m2 e2 K : Z) :
  0 <= e1 + K -> 0 <= e2 + K ->
  m1 * 2 ^ (e1 + K) <= m2 * 2 ^ (e2 + K) ->
  m1 * 2 ^ (e1 - Z.min e1 e2) <= m2 * 2 ^ (e2 - Z.min e1 e2).
Proof.
  intros H1 H2. set (c := Z.min e1 e2).
  replace (e1 + K) with ((e1 - c) + (c + K)) by lia.
  replace (e2 + K) with ((e2 - c) + (c + K)) by lia.
  rewrite (Z.pow_add_r 2 (e1 - c)), (Z.pow_add_r 2 (e2 - c)) by (unfold c; lia).
  rewrite !Z.mul_assoc. intros H.
  apply Z.mul_le_mono_pos_r in H; trivial. apply pow2_pos. unfold c; lia.
Qed.

Lemma scaled_lt (m1 e1 m2 e2 K : Z) :
  0 <= e1 + K -> 0 <= e2 + K ->
  m1 * 2 ^ (e1 + K) < m2 * 2 ^ (e2 + K) ->
  m1 * 2 ^ (e1 - Z.min e1 e2) < m2 * 2 ^ (e2 - Z.min e1 e2).
Proof.
  intros H1 H2. set (c := Z.min e1 e2).
  replace (e1 + K) with ((e1 - c) + (c + K)) by lia.
  replace (e2 + K) with ((e2 - c) + (c + K)) by lia.
  rewrite (Z.pow_add_r 2 (e1 - c)), (Z.pow_add_r 2 (e2 - c)) by (unfold c; lia).
  rewrite !Z.mul_assoc. intros H.
  apply Z.mul_lt_mono_pos_r in H; trivial. apply pow2_pos. unfold c; lia.
Qed.

Lemma scaled_le_aligned (m1 e1 m2 e2 K : Z) :
  0 <= e2 + K -> e2 <= e1 ->
  m1 * 2 ^ (e1 + K) <= m2 * 2 ^ (e2 + K) ->
  m1 * 2 ^ (e1 - e2) <= m2.
Proof.
  intros H2 H1.
  replace (e1 + K) with ((e1 - e2) + (e2 + K)) by lia.
  rewrite (Z.pow_add_r 2 (e1 - e2)) by lia.
  rewrite !Z.mul_assoc. intros H.
  apply Z.mul_le_mono_pos_r in H; trivial. apply pow2_pos. lia.
Qed.

(** The rounded mantissa is never negative, and the result is valid. *)
Lemma round_aux_nonneg (mx ex : Z) (lx : location) :
  0 <= mx -> ex <= fexp prec emax (Zdigits2 mx + ex) ->
  let R := binary_round_aux prec emax false mx ex lx in
  valid_binary R = true /\ (R = S754_infinity false \/ nonneg R).
Proof.
  intros Hm He R.
  destruct (binary_round_aux_canonical false mx ex lx Hm He)
    as (u & Hu & Hx & Hc & E).
  fold R in E. rewrite E.
  split; [now apply pack_valid|].
  set (e1 := fexp prec emax (Zdigits2 mx + ex)) in *.
  destruct (Z.lt_ge_cases (u * 2 ^ (e1 + 1074)) (2 ^ 2098)) as [Hlt|Hge].
  - right. destruct (pack_finite false u e1 Hc Hlt) as [F V].
    split; [now apply pack_valid|]. split; trivial.
    rewrite V. cbn [cond_Zopp]. destruct Hc as (Hu0 & He1 & _).
    apply Z.mul_nonneg_nonneg; [lia|]. apply Z.lt_le_incl, pow2_pos. lia.
  - left. now apply pack_overflow.
Qed.

(** Rounding does not go above a number of the format that is at least
    the exact value. *)
Lemma round_aux_upper (mx ex : Z) (lx : location) (w : spec_float) (K : Z) :
  0 <= mx -> ex <= fexp prec emax (Zdigits2 mx + ex) ->
  valid_binary w = true -> SFfinite w = true ->
  0 <= ex + K -> 0 <= K - 1074 ->
  mx * 2 ^ (ex + K) <= Zval w * 2 ^ (K - 1074) ->
  (lx <> loc_Exact -> mx * 2 ^ (ex + K) < Zval w * 2 ^ (K - 1074)) ->
  let R := binary_round_aux prec emax false mx ex lx in
  nonneg R /\ Zval R <= Zval w.
Proof.
  intros Hm He Vw Fw HK HK' Hle Hlt R.
  destruct (binary_round_aux_canonical false mx ex lx Hm He)
    as (u & Hu & Hx & Hc & E).
  fold R in E.
  set (e1 := fexp prec emax (Zdigits2 mx + ex)) in *.
  assert (Hpk : 0 < 2 ^ (K - 1074)) by (apply pow2_pos; lia).
  assert (Hpe : 0 < 2 ^ (ex + K)) by (apply pow2_pos; lia).
  assert (Hbound : u * 2 ^ (e1 + 1074) <= Zval w).
  { destruct w as [sw|sw| |sw mw ew]; try discriminate.
    - (* w is zero: the exact value is zero too *)
      cbn [Zval] in *. assert (mx = 0) by nia. subst mx.
      assert (lx = loc_Exact).
      { destruct lx as [|c]; trivial. exfalso.
        assert (Hn : loc_Inexact c <> loc_Exact) by discriminate.
        specialize (Hlt Hn). lia. }
      assert (u = 0).
      { rewrite Hx; trivial; rewrite ?Z.div_0_l, ?Z.mod_0_l; trivial;
          apply Z.pow_nonzero; try lia; unfold e1; lia. }
      subst u. lia.
    - pose proof (proj1 (valid_finite_iff _ _ _) Vw) as (Hw53 & Hew & Hcw).
      destruct sw; cbn [Zval cond_Zopp] in *.
      { exfalso. assert (0 < 2 ^ (ew + 1074)) by (apply pow2_pos; lia). nia. }
      replace (Zpos mw * 2 ^ (ew + 1074) * 2 ^ (K - 1074))
        with (Zpos mw * 2 ^ (ew + K)) in *
        by (rewrite <- Z.mul_assoc, <- Z.pow_add_r by lia; do 2 f_equal; lia).
      apply (grid_upper false mw ew mx ex u (lx = loc_Exact)); trivial.
      + apply (scaled_le mx ex (Zpos mw) ew K); lia.
      + intros Hn. apply (scaled_lt mx ex (Zpos mw) ew K); try lia.
        now apply Hlt. }
  pose proof (Zval_valid_bound w Vw).
  destruct (pack_finite false u e1 Hc ltac:(lia)) as [F V].
  rewrite E. split; [|rewrite V; exact Hbound].
  split; [now apply pack_valid|]. split; trivial.
  rewrite V. cbn [cond_Zopp]. destruct Hc as (Hu0 & He1 & _).
  apply Z.mul_nonneg_nonneg; [lia|]. apply Z.lt_le_incl, pow2_pos. lia.
Qed.

(** Rounding does not go below a number of the format that is at most
    the exact value. *)
Lemma round_aux_lower (mx ex : Z) (lx : location) (w : spec_float) (K : Z) :
  0 <= mx -> ex <= fexp prec emax (Zdigits2 mx + ex) ->
  valid_binary w = true -> SFfinite w = true ->
  0 <= ex + K -> 0 <= K - 1074 ->
  Zval w * 2 ^ (K - 1074) < (mx + 1) * 2 ^ (ex + K) ->
  let R := binary_round_aux prec emax false mx ex lx in
  SFfinite R = true -> Zval w <= Zval R.
Proof.
  intros Hm He Vw Fw HK HK' Hlt R FR.
  destruct (round_aux_nonneg mx ex lx Hm He) as [VR [EI|NR]]; fold R in VR.
  { fold R in EI. rewrite EI in FR. discriminate. }
  fold R in NR. destruct NR as (_ & _ & H0).
  destruct (binary_round_aux_canonical false mx ex lx Hm He)
    as (u & Hu & Hx & Hc & E).
  fold R in E.
  set (e1 := fexp prec emax (Zdigits2 mx + ex)) in *.
  destruct w as [sw|sw| |sw mw ew]; try discriminate; cbn [Zval] in *; trivial.
  destruct sw; cbn [cond_Zopp] in *.
  { assert (0 < Zpos mw * 2 ^ (ew + 1074)); [|lia].
    apply valid_finite_iff in Vw. apply Z.mul_pos_pos; [lia|apply pow2_pos; lia]. }
  pose proof (proj1 (valid_finite_iff _ _ _) Vw) as (Hw53 & Hew & Hcw).
  assert (Hg : Zpos mw * 2 ^ (ew + 1074) <= mx / 2 ^ (e1 - ex) * 2 ^ (e1 + 1074)).
  { apply (grid_lower false); trivial. intros Hle.
    assert (Zpos mw * 2 ^ (ew - ex) < mx + 1); [|lia].
    replace (Zpos mw * 2 ^ (ew + 1074) * 2 ^ (K - 1074))
      with (Zpos mw * 2 ^ (ew - ex) * 2 ^ (ex + K)) in Hlt.
    - apply Z.mul_lt_mono_pos_r in Hlt; trivial. apply pow2_pos; lia.
    - rewrite <- !Z.mul_assoc, <- !Z.pow_add_r by lia. do 2 f_equal. lia. }
  assert (Hlt' : u * 2 ^ (e1 + 1074) < 2 ^ 2098).
  { destruct (Z.lt_ge_cases (u * 2 ^ (e1 + 1074)) (2 ^ 2098)) as [|Hge]; trivial.
    rewrite E, (pack_overflow false u e1 Hc Hge) in FR. discriminate. }
  destruct (pack_finite false u e1 Hc Hlt') as [_ V].
  rewrite E, V. cbn [cond_Zopp].
  assert (0 <= 2 ^ (e1 + 1074)).
  { apply Z.lt_le_incl, pow2_pos. destruct Hc as (_ & ? & _). lia. }
  nia.
Qed.

End RoundBounds.

(** ** The operations on numbers that are not negative *)

Section Operations.

Local Open Scope Z_scope.

Lemma nonneg_finite_sign (s : bool) (m : positive) (e : Z) :
  nonneg (S754_finite s m e) -> s = false.
Proof.
  intros (V & _ & H). apply valid_finite_iff in V. cbn [Zval] in H.
  destruct s; trivial. cbn [cond_Zopp] in H.
  assert (0 < Zpos m * 2 ^ (e + 1074)); [|lia].
  apply Z.mul_pos_pos; [lia|apply pow2_pos; lia].
Qed.

Lemma nonneg_zero (s : bool) : nonneg (S754_zero s).
Proof. repeat split. cbn [Zval]. lia. Qed.

Lemma Zval_finite_pos (m : positive) (e : Z) :
  valid_binary (S754_finite false m e) = true ->
  0 < Zval (S754_finite false m e).
Proof.
  intros V. apply valid_finite_iff in V. cbn [Zval cond_Zopp].
  apply Z.mul_pos_pos; [lia|apply pow2_pos; lia].
Qed.

(** *** Multiplication *)

Lemma mul_fine (mx my : positive) (ex ey : Z) :
  valid_binary (S754_finite false mx ex) = true ->
  valid_binary (S754_finite false my ey) = true ->
  ex + ey <= fexp prec emax (Zdigits2 (Zpos (mx * my)) + (ex + ey)).
Proof.
  rewrite !valid_finite_iff. intros (Hx & Hex & Hcx) (Hy & Hey & Hcy).
  rewrite fexp_eq, Pos2Z.inj_mul.
  destruct (Z.le_gt_cases (ex + ey) (-1074)) as [|Hgt]; [lia|].
  assert (53 <= Zdigits2 (Zpos mx * Zpos my)); [|lia].
  apply Zdigits2_ge; [|lia].
  change (2 ^ (53 - 1)) with (2 ^ 52).
  destruct Hcx as [->|Hcx], Hcy as [->|Hcy]; try lia; nia.
Qed.

Lemma SFmul_upper (a b w : spec_float) :
  nonneg a -> nonneg b -> valid_binary w = true -> SFfinite w = true ->
  Zval a * Zval b <= Zval w * 2 ^ 1074 ->
  nonneg (SFmul prec emax a b) /\ Zval (SFmul prec emax a b) <= Zval w.
Proof.
  intros Na Nb Vw Fw H.
  assert (H0 : 0 <= Zval a * Zval b).
  { destruct Na as (_ & _ & ?), Nb as (_ & _ & ?). nia. }
  assert (Hw : 0 <= Zval w) by lia.
  destruct a as [sa|sa| |sa ma ea]; try (destruct Na as (_ & F & _); discriminate);
  destruct b as [sb|sb| |sb mb eb]; try (destruct Nb as (_ & F & _); discriminate);
    cbn [SFmul]; try (split; [apply nonneg_zero|exact Hw]).
  pose proof (nonneg_finite_sign _ _ _ Na). pose proof (nonneg_finite_sign _ _ _ Nb).
  subst sa sb. cbn [xorb].
  destruct Na as (Va & _ & _), Nb as (Vb & _ & _).
  pose proof (proj1 (valid_finite_iff _ _ _) Va) as (_ & Hea & _).
  pose proof (proj1 (valid_finite_iff _ _ _) Vb) as (_ & Heb & _).
  apply (round_aux_upper _ _ loc_Exact w 2148); trivial; try lia.
  - now apply mul_fine.
  - cbn [Zval cond_Zopp] in H. change (2148 - 1074) with 1074.
    rewrite Pos2Z.inj_mul.
    replace (ea + eb + 2148) with ((ea + 1074) + (eb + 1074)) by lia.
    rewrite Z.pow_add_r by lia.
    replace (Zpos ma * Zpos mb * (2 ^ (ea + 1074) * 2 ^ (eb + 1074)))
      with (Zpos ma * 2 ^ (ea + 1074) * (Zpos mb * 2 ^ (eb + 1074))) by ring.
    exact H.
  - congruence.
Qed.

(** *** Division *)

Lemma new_location_exact (n k : Z) :
  new_location n k = loc_Exact <-> k = 0.
Proof.
  unfold new_location, new_location_even, new_location_odd.
  destruct (Z.even n); destruct (Z.eqb_spec k 0); split; trivial;
    try congruence; try discriminate.
Qed.

(** The quotient that [SFdiv] rounds: [q * my + r = mx * 2 ^ s] on the
    exponent [e'], fine enough for rounding. *)
Lemma SFdiv_core_spec (mx my : positive) (ex ey : Z) :
  let '(q, e', l) := SFdiv_core_binary prec emax (Zpos mx) ex (Zpos my) ey in
  exists r, 0 <= r < Zpos my /\ 0 <= q /\ 0 <= ex - ey - e' /\
            q * Zpos my + r = Zpos mx * 2 ^ (ex - ey - e') /\
            (l = loc_Exact <-> r = 0) /\
            e' <= fexp prec emax (Zdigits2 q + e') /\
            Z.min (-1074) (ex - ey) <= e'.
Proof.
  unfold SFdiv_core_binary.
  set (d1 := Zdigits2 (Zpos mx)). set (d2 := Zdigits2 (Zpos my)).
  set (e' := Z.min (fexp prec emax (d1 + ex - (d2 + ey))) (ex - ey)).
  set (s := ex - ey - e').
  assert (Hs : 0 <= s) by (unfold s, e'; lia).
  set (m' := match s with
             | 0 => Zpos mx
             | Zpos _ => Z.shiftl (Zpos mx) s
             | Zneg _ => 0
             end).
  assert (Em : m' = Zpos mx * 2 ^ s).
  { unfold m'. destruct s as [|p|p]; try lia.
    apply Z.shiftl_mul_pow2. lia. }
  pose proof (Z_div_mod m' (Zpos my) ltac:(lia)) as Hdiv.
  destruct (Z.div_eucl m' (Zpos my)) as [q r]. destruct Hdiv as [Ed Hr].
  assert (Hps : 0 < 2 ^ s) by (apply pow2_pos; lia).
  assert (Hq : 0 <= q) by nia.
  exists r. split; [lia|]. split; trivial. split; trivial.
  split; [unfold s in Em; rewrite <- Em; lia|].
  split; [apply new_location_exact|].
  split; [|unfold e'; rewrite fexp_eq; lia].
  (* fineness *)
  pose proof (Zdigits2_bounds (Zpos mx) ltac:(lia)) as [Hlx Hux].
  pose proof (Zdigits2_bounds (Zpos my) ltac:(lia)) as [Hly Huy].
  pose proof (Zdigits2_pos (Zpos mx) ltac:(lia)) as Hdx.
  pose proof (Zdigits2_pos (Zpos my) ltac:(lia)) as Hdy.
  fold d1 in Hlx, Hux, Hdx. fold d2 in Hly, Huy, Hdy.
  set (k := d1 + ex - (d2 + ey)).
  assert (He' : e' <= fexp prec emax k) by (unfold e', k; lia).
  destruct (Z.le_gt_cases 0 (k - 1 - e')) as [Hk|Hk].
  - assert (Hql : 2 ^ (k - 1 - e') <= q).
    { assert (2 ^ (k - 1 - e') * 2 ^ d2 <= 2 ^ (d1 - 1) * 2 ^ s).
      { rewrite <- !Z.pow_add_r by lia. apply Z.pow_le_mono_r; unfold k, s; lia. }
      assert (0 < 2 ^ (k - 1 - e')) by (apply pow2_pos; lia).
      assert (2 ^ (k - 1 - e') * Zpos my < (q + 1) * Zpos my) by nia.
      assert (2 ^ (k - 1 - e') < q + 1); [|lia].
      apply (Z.mul_lt_mono_pos_r (Zpos my)); lia. }
    assert (0 < q) by (pose proof (pow2_pos (k - 1 - e') Hk); lia).
    assert (k - e' <= Zdigits2 q).
    { apply Zdigits2_ge; trivial. now replace (k - e' - 1) with (k - 1 - e') by lia. }
    transitivity (fexp prec emax k); trivial. apply fexp_mono. lia.
  - rewrite fexp_eq in *. lia.
Qed.

Lemma SFdiv_upper (a b w : spec_float) :
  nonneg a -> nonneg b -> 0 < Zval b ->
  valid_binary w = true -> SFfinite w = true ->
  Zval a * 2 ^ 1074 <= Zval w * Zval b ->
  nonneg (SFdiv prec emax a b) /\ Zval (SFdiv prec emax a b) <= Zval w.
Proof.
  intros Na Nb Hb Vw Fw H.
  assert (Hw : 0 <= Zval w).
  { destruct Na as (_ & _ & ?). nia. }
  destruct b as [sb|sb| |sb mb eb]; try (destruct Nb as (_ & F & _); discriminate).
  pose proof (nonneg_finite_sign _ _ _ Nb). subst sb.
  destruct a as [sa|sa| |sa ma ea]; try (destruct Na as (_ & F & _); discriminate);
    cbn [SFdiv]; try (split; [apply nonneg_zero|exact Hw]).
  pose proof (nonneg_finite_sign _ _ _ Na). subst sa. cbn [xorb].
  destruct Na as (Va & _ & _), Nb as (Vb & _ & _).
  pose proof (proj1 (valid_finite_iff _ _ _) Va) as (_ & Hea & _).
  pose proof (proj1 (valid_finite_iff _ _ _) Vb) as (_ & Heb & _).
  pose proof (SFdiv_core_spec ma mb ea eb) as Hcore.
  destruct (SFdiv_core_binary prec emax (Zpos ma) ea (Zpos mb) eb) as [[q e'] l].
  destruct Hcore as (r & Hr & Hq & Hs & Ed & Hl & Hfine & Hlow).
  cbn [Zval cond_Zopp] in H.
  set (W := Zval w) in *.
  (* the powers of two involved, and how they are related *)
  assert (P1 : 0 < 2 ^ (e' + 2148)) by (apply pow2_pos; lia).
  assert (Py : 0 < 2 ^ (eb + 1074)) by (apply pow2_pos; lia).
  assert (Px : 0 < 2 ^ (ea + 1074)) by (apply pow2_pos; lia).
  assert (Ps : 0 < 2 ^ (ea - eb - e')) by (apply pow2_pos; lia).
  assert (Epow : 2 ^ (ea - eb - e') * 2 ^ (e' + 2148) * 2 ^ (eb + 1074)
                 = 2 ^ (ea + 1074) * 2 ^ 1074 * 2 ^ 1074).
  { rewrite <- !Z.pow_add_r by lia. f_equal. lia. }
  assert (Hprod : q * 2 ^ (e' + 2148) * (Zpos mb * 2 ^ (eb + 1074))
                  <= W * 2 ^ 1074 * (Zpos mb * 2 ^ (eb + 1074))
                  /\ (r <> 0 -> q * 2 ^ (e' + 2148) * (Zpos mb * 2 ^ (eb + 1074))
                                < W * 2 ^ 1074 * (Zpos mb * 2 ^ (eb + 1074)))).
  { set (A := 2 ^ (e' + 2148)) in *. set (B := 2 ^ (eb + 1074)) in *.
    set (C := 2 ^ (ea + 1074)) in *. set (S := 2 ^ (ea - eb - e')) in *.
    set (Q := 2 ^ 1074) in *.
    assert (HQ : 0 < Q) by (unfold Q; apply pow2_pos; lia).
    assert (E1 : (q * Zpos mb + r) * A * B = Zpos ma * C * Q * Q).
    { rewrite Ed. transitivity (Zpos ma * (S * A * B)); [ring|].
      rewrite Epow. ring. }
    assert (E2 : Zpos ma * C * Q * Q <= W * Q * (Zpos mb * B)).
    { replace (W * Q * (Zpos mb * B)) with (W * (Zpos mb * B) * Q) by ring.
      apply Z.mul_le_mono_nonneg_r; lia. }
    assert (E3 : q * A * (Zpos mb * B) = (q * Zpos mb + r) * A * B - r * (A * B))
      by ring.
    assert (0 < A * B) by nia.
    split; [nia|]. intros Hr0. assert (0 < r * (A * B)) by nia. lia. }
  destruct Hprod as [Hle Hlt].
  assert (Hmb : 0 < Zpos mb * 2 ^ (eb + 1074)) by nia.
  apply (round_aux_upper q e' l w 2148); trivial; try lia;
    change (2148 - 1074) with 1074; fold W.
  - apply Z.mul_le_mono_pos_r in Hle; trivial.
  - intros Hn. apply (Z.mul_lt_mono_pos_r (Zpos mb * 2 ^ (eb + 1074))); trivial.
    apply Hlt. intros E0. apply Hn, Hl, E0.
Qed.

Lemma SFdiv_lower (a b w : spec_float) :
  nonneg a -> nonneg b -> 0 < Zval b ->
  valid_binary w = true -> SFfinite w = true ->
  Zval w * Zval b <= Zval a * 2 ^ 1074 ->
  SFfinite (SFdiv prec emax a b) = true ->
  Zval w <= Zval (SFdiv prec emax a b).
Proof.
  intros Na Nb Hb Vw Fw H.
  destruct b as [sb|sb| |sb mb eb]; try (destruct Nb as (_ & F & _); discriminate).
  pose proof (nonneg_finite_sign _ _ _ Nb). subst sb.
  destruct a as [sa|sa| |sa ma ea]; try (destruct Na as (_ & F & _); discriminate);
    cbn [SFdiv].
  { intros _. cbn [Zval] in *. nia. }
  pose proof (nonneg_finite_sign _ _ _ Na). subst sa. cbn [xorb].
  destruct Na as (Va & _ & _), Nb as (Vb & _ & _).
  pose proof (proj1 (valid_finite_iff _ _ _) Va) as (_ & Hea & _).
  pose proof (proj1 (valid_finite_iff _ _ _) Vb) as (_ & Heb & _).
  pose proof (SFdiv_core_spec ma mb ea eb) as Hcore.
  destruct (SFdiv_core_binary prec emax (Zpos ma) ea (Zpos mb) eb) as [[q e'] l].
  destruct Hcore as (r & Hr & Hq & Hs & Ed & Hl & Hfine & Hlow).
  cbn [Zval cond_Zopp] in H.
  set (W := Zval w) in *.
  assert (P1 : 0 < 2 ^ (e' + 2148)) by (apply pow2_pos; lia).
  assert (Py : 0 < 2 ^ (eb + 1074)) by (apply pow2_pos; lia).
  assert (Px : 0 < 2 ^ (ea + 1074)) by (apply pow2_pos; lia).
  assert (Ps : 0 < 2 ^ (ea - eb - e')) by (apply pow2_pos; lia).
  assert (Epow : 2 ^ (ea - eb - e') * 2 ^ (e' + 2148) * 2 ^ (eb + 1074)
                 = 2 ^ (ea + 1074) * 2 ^ 1074 * 2 ^ 1074).
  { rewrite <- !Z.pow_add_r by lia. f_equal. lia. }
  assert (Hprod : W * 2 ^ 1074 * (Zpos mb * 2 ^ (eb + 1074))
                  < (q + 1) * 2 ^ (e' + 2148) * (Zpos mb * 2 ^ (eb + 1074))).
  { set (A := 2 ^ (e' + 2148)) in *. set (B := 2 ^ (eb + 1074)) in *.
    set (C := 2 ^ (ea + 1074)) in *. set (S := 2 ^ (ea - eb - e')) in *.
    set (Q := 2 ^ 1074) in *.
    assert (HQ : 0 < Q) by (unfold Q; apply pow2_pos; lia).
    assert (E1 : (q * Zpos mb + r) * A * B = Zpos ma * C * Q * Q).
    { rewrite Ed. transitivity (Zpos ma * (S * A * B)); [ring|].
      rewrite Epow. ring. }
    assert (E2 : W * Q * (Zpos mb * B) <= Zpos ma * C * Q * Q).
    { replace (W * Q * (Zpos mb * B)) with (W * (Zpos mb * B) * Q) by ring.
      apply Z.mul_le_mono_nonneg_r; lia. }
    assert (E3 : (q + 1) * A * (Zpos mb * B)
                 = (q * Zpos mb + r) * A * B + (Zpos mb - r) * (A * B)) by ring.
    assert (0 < A * B) by nia.
    assert (0 < (Zpos mb - r) * (A * B)) by nia. lia. }
  assert (Hmb : 0 < Zpos mb * 2 ^ (eb + 1074)) by nia.
  apply (round_aux_lower q e' l w 2148); trivial; try lia.
  change (2148 - 1074) with 1074. fold W.
  apply (Z.mul_lt_mono_pos_r (Zpos mb * 2 ^ (eb + 1074))); trivial.
Qed.

End Operations.

Section Normalize.

Local Open Scope Z_scope.

Lemma iter_xO (m d : positive) : Zpos (Pos.iter xO m d) = Zpos m * 2 ^ Zpos d.
Proof.
  induction d as [|d IH] using Pos.peano_ind.
  - cbn [Pos.iter]. rewrite Pos2Z.inj_xO. change (2 ^ 1) with 2. lia.
  - rewrite Pos.iter_succ, Pos2Z.inj_xO, IH, Pos2Z.inj_succ, Z.pow_succ_r by lia.
    ring.
Qed.

Lemma shl_align_spec (m : positive) (e e' : Z) :
  let '(mz, ez) := shl_align m e e' in
  ez = Z.min e e' /\ Zpos mz = Zpos m * 2 ^ (e - ez).
Proof.
  unfold shl_align. destruct (e' - e) as [|d|d] eqn:E.
  - split; [lia|]. rewrite Z.sub_diag. change (2 ^ 0) with 1. lia.
  - split; [lia|]. rewrite Z.sub_diag. change (2 ^ 0) with 1. lia.
  - split; [lia|]. rewrite iter_xO. do 2 f_equal. lia.
Qed.

(** [binary_round] rounds the same value on an exponent that is fine
    enough. *)
Lemma binary_round_spec (s : bool) (m : positive) (e : Z) :
  exists mz ez,
    ez = Z.min e (fexp prec emax (Zdigits2 (Zpos m) + e)) /\
    Zpos mz = Zpos m * 2 ^ (e - ez) /\
    ez <= fexp prec emax (Zdigits2 (Zpos mz) + ez) /\
    binary_round prec emax s m e
    = binary_round_aux prec emax s (Zpos mz) ez loc_Exact.
Proof.
  unfold binary_round.
  change (Zpos (digits2_pos m)) with (Zdigits2 (Zpos m)).
  pose proof (shl_align_spec m e (fexp prec emax (Zdigits2 (Zpos m) + e))) as H.
  destruct (shl_align m e (fexp prec emax (Zdigits2 (Zpos m) + e))) as [mz ez].
  destruct H as [Ez Em]. exists mz, ez. repeat split; trivial.
  rewrite Em, Zdigits2_mul_pow2 by lia.
  replace (Zdigits2 (Zpos m) + (e - ez) + ez) with (Zdigits2 (Zpos m) + e) by lia.
  lia.
Qed.

Lemma binary_round_sign (m : positive) (e : Z) :
  SFsign (binary_round prec emax false m e) = false.
Proof.
  destruct (binary_round_spec false m e) as (mz & ez & _ & _ & Hf & ->).
  destruct (binary_round_aux_canonical false (Zpos mz) ez loc_Exact ltac:(lia) Hf)
    as (u & _ & _ & _ & ->).
  apply pack_sign.
Qed.

Lemma binary_round_upper (m : positive) (e : Z) (w : spec_float) :
  -1074 <= e -> valid_binary w = true -> SFfinite w = true ->
  Zpos m * 2 ^ (e + 1074) <= Zval w ->
  nonneg (binary_round prec emax false m e) /\
  Zval (binary_round prec emax false m e) <= Zval w.
Proof.
  intros He Vw Fw H.
  destruct (binary_round_spec false m e) as (mz & ez & Ez & Em & Hf & ->).
  assert (Hez : -1074 <= ez) by (rewrite Ez, fexp_eq; lia).
  assert (Ev : Zpos mz * 2 ^ (ez + 1074) = Zpos m * 2 ^ (e + 1074)).
  { rewrite Em, <- Z.mul_assoc, <- Z.pow_add_r by lia. do 2 f_equal. lia. }
  apply (round_aux_upper (Zpos mz) ez loc_Exact w 1074); trivial; try lia.
  congruence.
Qed.

Lemma binary_round_lower (m : positive) (e : Z) (w : spec_float) :
  -1074 <= e -> valid_binary w = true -> SFfinite w = true ->
  Zval w <= Zpos m * 2 ^ (e + 1074) ->
  SFfinite (binary_round prec emax false m e) = true ->
  Zval w <= Zval (binary_round prec emax false m e).
Proof.
  intros He Vw Fw H.
  destruct (binary_round_spec false m e) as (mz & ez & Ez & Em & Hf & ->).
  assert (Hez : -1074 <= ez) by (rewrite Ez, fexp_eq; lia).
  assert (Ev : Zpos mz * 2 ^ (ez + 1074) = Zpos m * 2 ^ (e + 1074)).
  { rewrite Em, <- Z.mul_assoc, <- Z.pow_add_r by lia. do 2 f_equal. lia. }
  assert (0 < 2 ^ (ez + 1074)) by (apply pow2_pos; lia).
  apply (round_aux_lower (Zpos mz) ez loc_Exact w 1074); trivial; lia.
Qed.

(** A mantissa below [2 ^ 53] on an exponent of the format is kept as it
    is. *)
Lemma binary_round_representable (m : positive) (e : Z) :
  -1074 <= e -> Zpos m < 2 ^ 53 -> Zpos m * 2 ^ (e + 1074) < 2 ^ 2098 ->
  nonneg (binary_round prec emax false m e) /\
  Zval (binary_round prec emax false m e) = Zpos m * 2 ^ (e + 1074).
Proof.
  intros He Hm Hlt.
  destruct (binary_round_spec false m e) as (mz & ez & Ez & Em & Hf & ->).
  assert (Hd : Zdigits2 (Zpos m) <= 53) by (apply Zdigits2_le; lia).
  assert (Hez : ez = fexp prec emax (Zdigits2 (Zpos m) + e))
    by (rewrite fexp_eq in *; lia).
  assert (Hez' : -1074 <= ez) by (rewrite Hez, fexp_eq; lia).
  assert (Ev : Zpos mz * 2 ^ (ez + 1074) = Zpos m * 2 ^ (e + 1074)).
  { rewrite Em, <- Z.mul_assoc, <- Z.pow_add_r by lia. do 2 f_equal. lia. }
  destruct (binary_round_aux_canonical false (Zpos mz) ez loc_Exact ltac:(lia) Hf)
    as (u & Hu & Hx & Hc & ->).
  assert (E1 : fexp prec emax (Zdigits2 (Zpos mz) + ez) = ez).
  { rewrite Em, Zdigits2_mul_pow2 by lia.
    replace (Zdigits2 (Zpos m) + (e - ez) + ez) with (Zdigits2 (Zpos m) + e) by lia.
    now symmetry. }
  rewrite E1 in *. rewrite Z.sub_diag, Z.pow_0_r, Z.div_1_r in *.
  assert (u = Zpos mz) by (apply Hx; trivial; apply Z.mod_1_r). subst u.
  destruct (pack_finite false (Zpos mz) ez Hc ltac:(lia)) as [F V].
  rewrite V. cbn [cond_Zopp]. split; [|exact Ev].
  split; [now apply pack_valid|]. split; trivial.
  rewrite V. cbn [cond_Zopp]. lia.
Qed.

(** The number with the value [n * 2 ^ e], for [0 <= n < 2 ^ 53]. *)
Lemma binary_normalize_representable (n e : Z) :
  -1074 <= e -> 0 <= n < 2 ^ 53 -> n * 2 ^ (e + 1074) < 2 ^ 2098 ->
  nonneg (binary_normalize prec emax n e false) /\
  Zval (binary_normalize prec emax n e false) = n * 2 ^ (e + 1074) /\
  SFsign (binary_normalize prec emax n e false) = false.
Proof.
  intros He Hn Hlt. destruct n as [|m|m]; try lia.
  - split; [apply nonneg_zero|]. split; reflexivity.
  - cbn [binary_normalize].
    destruct (binary_round_representable m e He ltac:(lia) Hlt) as [N V].
    split; trivial. split; trivial. apply binary_round_sign.
Qed.

(** *** Subtraction and addition *)

Lemma aligned_value (m : positive) (e ez : Z) :
  -1074 <= ez -> ez <= e ->
  Zpos (fst (shl_align m e ez)) * 2 ^ (ez + 1074) = Zpos m * 2 ^ (e + 1074).
Proof.
  intros H1 H2. pose proof (shl_align_spec m e ez) as H.
  destruct (shl_align m e ez) as [mz ez']. destruct H as [Ez Em]. cbn [fst].
  rewrite Em, <- Z.mul_assoc, <- Z.pow_add_r by lia. do 2 f_equal. lia.
Qed.

Lemma SFsub_bounds (a b : spec_float) :
  nonneg a -> nonneg b -> Zval b <= Zval a ->
  nonneg (SFsub prec emax a b) /\
  (forall w, valid_binary w = true -> SFfinite w = true ->
     Zval a - Zval b <= Zval w -> Zval (SFsub prec emax a b) <= Zval w) /\
  (forall w, valid_binary w = true -> SFfinite w = true ->
     Zval w <= Zval a - Zval b -> Zval w <= Zval (SFsub prec emax a b)).
Proof.
  intros Na Nb Hle.
  destruct a as [sa|sa| |sa ma ea]; try (destruct Na as (_ & F & _); discriminate);
  destruct b as [sb|sb| |sb mb eb]; try (destruct Nb as (_ & F & _); discriminate).
  - assert (E : SFsub prec emax (S754_zero sa) (S754_zero sb) = S754_zero sa
                \/ SFsub prec emax (S754_zero sa) (S754_zero sb) = S754_zero false)
      by (destruct sa, sb; cbn; auto).
    destruct E as [-> | ->]; (split; [apply nonneg_zero|]); cbn [Zval]; split; intros; lia.
  - pose proof (nonneg_finite_sign _ _ _ Nb). subst sb.
    destruct Nb as (Vb & _ & _). pose proof (Zval_finite_pos _ _ Vb).
    cbn [Zval cond_Zopp] in Hle, H. lia.
  - cbn [SFsub]. split; [exact Na|]. cbn [Zval]. split; intros; lia.
  - pose proof (nonneg_finite_sign _ _ _ Na). pose proof (nonneg_finite_sign _ _ _ Nb).
    subst sa sb. cbn [SFsub cond_Zopp].
    pose proof Na as (Va & _ & _). pose proof Nb as (Vb & _ & _).
    pose proof (proj1 (valid_finite_iff _ _ _) Va) as (_ & Hea & _).
    pose proof (proj1 (valid_finite_iff _ _ _) Vb) as (_ & Heb & _).
    set (ez := Z.min ea eb).
    pose proof (aligned_value ma ea ez ltac:(unfold ez; lia) ltac:(unfold ez; lia)) as Ea.
    pose proof (aligned_value mb eb ez ltac:(unfold ez; lia) ltac:(unfold ez; lia)) as Eb.
    set (A := Zpos (fst (shl_align ma ea ez))) in *.
    set (B := Zpos (fst (shl_align mb eb ez))) in *.
    cbn [Zval cond_Zopp] in *.
    assert (Hp : 0 < 2 ^ (ez + 1074)) by (apply pow2_pos; unfold ez; lia).
    assert (Ev : (A - B) * 2 ^ (ez + 1074)
                 = Zpos ma * 2 ^ (ea + 1074) - Zpos mb * 2 ^ (eb + 1074)) by lia.
    destruct (A - B) as [|n|n] eqn:En; try nia.
    + cbn [binary_normalize]. split; [apply nonneg_zero|].
      cbn [Zval]. split; intros; lia.
    + cbn [binary_normalize].
      assert (Hez : -1074 <= ez) by (unfold ez; lia).
      destruct (binary_round_upper n ez (S754_finite false ma ea) Hez Va eq_refl)
        as [NR _]; [cbn [Zval cond_Zopp]; lia|].
      split; [exact NR|]. split.
      * intros w Vw Fw Hw. apply binary_round_upper; trivial. lia.
      * intros w Vw Fw Hw. apply binary_round_lower; trivial; [lia|apply NR].
Qed.

Lemma SFadd_exact (a b w : spec_float) :
  nonneg a -> nonneg b -> SFsign a = false -> SFsign b = false ->
  valid_binary w = true -> SFfinite w = true -> SFsign w = false ->
  Zval w = Zval a + Zval b ->
  SFadd prec emax a b = w.
Proof.
  intros Na Nb Sa Sb Vw Fw Sw Hv.
  destruct a as [sa|sa| |sa ma ea]; try (destruct Na as (_ & F & _); discriminate);
  destruct b as [sb|sb| |sb mb eb]; try (destruct Nb as (_ & F & _); discriminate);
    cbn [SFsign] in Sa, Sb; subst sa sb; cbn [SFadd].
  - apply Zval_inj; trivial; [now rewrite Sw|cbn [Zval] in *; lia].
  - apply Zval_inj; trivial; try apply Nb; [now rewrite Sw|cbn [Zval] in *; lia].
  - apply Zval_inj; trivial; try apply Na; [now rewrite Sw|cbn [Zval] in *; lia].
  - cbn [cond_Zopp].
    pose proof Na as (Va & _ & _). pose proof Nb as (Vb & _ & _).
    pose proof (proj1 (valid_finite_iff _ _ _) Va) as (_ & Hea & _).
    pose proof (proj1 (valid_finite_iff _ _ _) Vb) as (_ & Heb & _).
    set (ez := Z.min ea eb).
    pose proof (aligned_value ma ea ez ltac:(unfold ez; lia) ltac:(unfold ez; lia)) as Ea.
    pose proof (aligned_value mb eb ez ltac:(unfold ez; lia) ltac:(unfold ez; lia)) as Eb.
    set (A := fst (shl_align ma ea ez)) in *.
    set (B := fst (shl_align mb eb ez)) in *.
    cbn [Zval cond_Zopp] in Hv.
    change (Zpos A + Zpos B) with (Zpos (A + B)).
    cbn [binary_normalize].
    assert (Hez : -1074 <= ez) by (unfold ez; lia).
    assert (Ev : Zpos (A + B) * 2 ^ (ez + 1074) = Zval w)
      by (rewrite Pos2Z.inj_add; lia).
    destruct (binary_round_upper (A + B) ez w Hez Vw Fw ltac:(lia)) as [NR Hu].
    pose proof (binary_round_lower (A + B) ez w Hez Vw Fw ltac:(lia)
                  (proj1 (proj2 NR))) as Hl.
    apply Zval_inj; trivial; try apply NR; [|lia].
    rewrite binary_round_sign. now symmetry.
Qed.

End Normalize.

(** ** Rounding up happens from the half on *)

Section RoundBit.

Local Open Scope Z_scope.

(** After [k >= 1] shifts the round bit is the last bit shifted out. *)
Definition shifts_round (F : shr_record -> shr_record) (k : Z) : Prop :=
  forall m r s, 0 <= m ->
  shr_r (F (Build_shr_record m r s)) = Z.odd (m / 2 ^ (k - 1)).

Lemma shifts_round_1 : shifts_round shr_1 1.
Proof.
  intros m r s Hm. rewrite (shr_1_spec m r s Hm). cbn [shr_r].
  now rewrite Z.sub_diag, Z.pow_0_r, Z.div_1_r.
Qed.

Lemma shifts_round_comp (F G : shr_record -> shr_record) (j k : Z) :
  0 <= j -> 1 <= k -> shifts F j -> shifts_round G k ->
  shifts_round (fun mrs => G (F mrs)) (j + k).
Proof.
  intros Hj Hk HF HG m r s Hm.
  destruct (HF m r s Hm) as [E1 _].
  destruct (F (Build_shr_record m r s)) as [m1 r1 s1].
  cbn [shr_m] in E1.
  assert (Hp : 0 < 2 ^ j) by (apply Z.pow_pos_nonneg; lia).
  assert (Hm1 : 0 <= m1) by (subst m1; apply Z.div_pos; lia).
  rewrite (HG m1 r1 s1 Hm1), E1.
  rewrite Z.div_div, <- Z.pow_add_r by (try apply Z.pow_pos_nonneg; lia).
  do 3 f_equal. lia.
Qed.

Lemma shr_iter_round (p : positive) : shifts_round (iter_pos shr_1 p) (Zpos p).
Proof.
  induction p as [p IH|p IH|].
  - rewrite Pos2Z.inj_xI.
    replace (2 * Zpos p + 1) with ((1 + Zpos p) + Zpos p) by lia.
    apply (shifts_round_comp (fun mrs => iter_pos shr_1 p (shr_1 mrs))
             (iter_pos shr_1 p)); trivial; try lia.
    apply (shifts_comp shr_1 (iter_pos shr_1 p)); try lia;
      [apply shifts_1|apply shr_iter_spec].
  - rewrite Pos2Z.inj_xO.
    replace (2 * Zpos p) with (Zpos p + Zpos p) by lia.
    apply (shifts_round_comp (iter_pos shr_1 p) (iter_pos shr_1 p));
      trivial; try lia. apply shr_iter_spec.
  - apply shifts_round_1.
Qed.

Lemma round_up_round_bit (mrs : shr_record) :
  round_nearest_even (shr_m mrs) (loc_of_shr_record mrs) <> shr_m mrs ->
  shr_r mrs = true.
Proof. destruct mrs as [m [] []]; cbn; congruence. Qed.

(** The bit [n - 1] of [m] is set only if the remainder of [m] by [2 ^ n]
    is at least half of [2 ^ n]. *)
Lemma odd_quotient_half (m n : Z) :
  0 <= m -> 1 <= n -> Z.odd (m / 2 ^ (n - 1)) = true ->
  2 ^ n <= 2 * (m mod 2 ^ n).
Proof.
  intros Hm Hn Ho.
  assert (Hp : 0 < 2 ^ (n - 1)) by (apply Z.pow_pos_nonneg; lia).
  assert (E : 2 ^ n = 2 ^ (n - 1) * 2).
  { replace n with ((n - 1) + 1) at 1 by lia.
    now rewrite Z.pow_add_r by lia. }
  rewrite E, (Z.rem_mul_r m (2 ^ (n - 1)) 2) by lia.
  rewrite Zmod_odd, Ho.
  pose proof (Z.mod_pos_bound m (2 ^ (n - 1)) Hp). lia.
Qed.

(** [binary_round_aux] on an exact mantissa: the quotient [q], or [q + 1]
    when the part cut off is at least half a unit. *)
Lemma binary_round_aux_nearest (s : bool) (mx ex : Z) :
  0 <= mx -> ex <= fexp prec emax (Zdigits2 mx + ex) ->
  let e1 := fexp prec emax (Zdigits2 mx + ex) in
  let q := mx / 2 ^ (e1 - ex) in
  exists u,
    (u = q \/ (u = q + 1 /\ 2 ^ (e1 - ex) <= 2 * (mx mod 2 ^ (e1 - ex)))) /\
    canonical u e1 /\
    binary_round_aux prec emax s mx ex loc_Exact = pack s u e1.
Proof.
  intros Hm He e1 q.
  assert (Hq53 : q < 2 ^ 53) by (apply quotient_below_2_53; trivial).
  assert (Hn : 0 <= e1 - ex) by (unfold e1; lia).
  assert (Hq0 : 0 <= q)
    by (apply Z.div_pos; trivial; apply Z.pow_pos_nonneg; lia).
  assert (He1 : -1074 <= e1) by (unfold e1; rewrite fexp_eq; lia).
  unfold binary_round_aux, shr_fexp. fold e1.
  pose proof (shr_spec mx loc_Exact ex (e1 - ex) Hm Hn) as H1.
  assert (R : forall mrs e', shr (shr_record_of_loc mx loc_Exact) ex (e1 - ex)
                             = (mrs, e') ->
              shr_r mrs = true ->
              2 ^ (e1 - ex) <= 2 * (mx mod 2 ^ (e1 - ex))).
  { intros mrs e' E Hr. destruct (e1 - ex) as [|p|p] eqn:En; try lia.
    - cbn [shr shr_record_of_loc] in E. injection E as <- _. discriminate.
    - cbn [shr shr_record_of_loc] in E. injection E as <- _.
      rewrite (shr_iter_round p mx false false Hm) in Hr.
      apply odd_quotient_half; trivial; lia. }
  destruct (shr (shr_record_of_loc mx loc_Exact) ex (e1 - ex)) as [mrs' e'].
  destruct H1 as (-> & E1 & X1). fold q in E1.
  specialize (R mrs' _ eq_refl).
  replace (ex + (e1 - ex)) with e1 by lia.
  destruct (round_nearest_even_cases (shr_m mrs') (loc_of_shr_record mrs'))
    as [Hu Hx].
  pose proof (round_up_round_bit mrs') as Hup.
  set (u := round_nearest_even (shr_m mrs') (loc_of_shr_record mrs')) in *.
  rewrite E1 in Hu, Hup.
  assert (Hcan : canonical u e1).
  { assert (Hp : 0 < 2 ^ (e1 - ex)) by (apply pow2_pos; lia).
    split; [lia|]. split; [exact He1|].
    destruct (Z.eq_dec e1 (-1074)) as [|Hne]; [now left|right].
    destruct (Z.eq_dec mx 0) as [Hz|Hz].
    { exfalso. unfold e1 in *. rewrite Hz, Zdigits2_0, fexp_eq in *. lia. }
    pose proof (Zdigits2_bounds mx ltac:(lia)) as [Hl _].
    assert (En : e1 - ex = Zdigits2 mx - 53)
      by (unfold e1 in *; rewrite fexp_eq in *; lia).
    assert (2 ^ 52 <= q); [|lia].
    apply Z.div_le_lower_bound; trivial.
    rewrite En, Z.mul_comm, <- Z.pow_add_r by lia.
    now replace (52 + (Zdigits2 mx - 53)) with (Zdigits2 mx - 1) by lia. }
  exists u. split; [|split; [exact Hcan|]].
  - destruct Hu as [Hu|Hu]; [now left|right]. split; [exact Hu|].
    apply R, Hup. lia.
  - assert (Hu53 : 0 <= u <= 2 ^ 53) by lia.
    destruct (Z.eq_dec u (2 ^ 53)) as [E|NE].
    + rewrite E. change (Zdigits2 (2 ^ 53)) with 54.
      replace (fexp prec emax (54 + e1) - e1) with 1
        by (rewrite fexp_eq; lia).
      change (shr_record_of_loc (2 ^ 53) loc_Exact)
        with (Build_shr_record (2 ^ 53) false false).
      cbn [shr iter_pos shr_1 shr_m]. unfold pack.
      change (2 ^ 53 =? 2 ^ 53) with true. cbn iota.
      change (emax - prec) with 971. reflexivity.
    + assert (Hd : Zdigits2 u <= 53) by (apply Zdigits2_le; lia).
      rewrite shr_nonpos by (rewrite fexp_eq; lia).
      rewrite shr_record_of_loc_m. unfold pack.
      destruct u as [|p|p]; try lia; trivial.
      rewrite (proj2 (Z.eqb_neq _ _) NE).
      change (emax - prec) with 971. reflexivity.
Qed.

End RoundBit.

Section RoundHalf.

Local Open Scope Z_scope.

(** What a location adds to twice the mantissa: [1] from the middle of
    the interval on. *)
Definition half (l : location) : Z :=
  match l with
  | loc_Inexact Eq | loc_Inexact Gt => 1
  | _ => 0
  end.

Lemma half_range (l : location) : 0 <= half l <= 1.
Proof. destruct l as [|[]]; cbn; lia. Qed.

Lemma round_bit_half (m : Z) (l : location) :
  shr_r (shr_record_of_loc m l) = true -> half l = 1.
Proof. destruct l as [|[]]; cbn; congruence. Qed.

(** [binary_round_aux] on any location: the quotient [q], or [q + 1]
    when the exact value is at least [q] and a half. *)
Lemma binary_round_aux_half (s : bool) (mx ex : Z) (lx : location) :
  0 <= mx -> ex <= fexp prec emax (Zdigits2 mx + ex) ->
  let e1 := fexp prec emax (Zdigits2 mx + ex) in
  let q := mx / 2 ^ (e1 - ex) in
  exists u,
    (u = q \/ (u = q + 1 /\ (2 * q + 1) * 2 ^ (e1 - ex) <= 2 * mx + half lx)) /\
    canonical u e1 /\
    binary_round_aux prec emax s mx ex lx = pack s u e1.
Proof.
  intros Hm He e1 q.
  assert (Hq53 : q < 2 ^ 53) by (apply quotient_below_2_53; trivial).
  assert (Hn : 0 <= e1 - ex) by (unfold e1; lia).
  assert (Hp : 0 < 2 ^ (e1 - ex)) by (apply pow2_pos; lia).
  assert (Hq0 : 0 <= q) by (apply Z.div_pos; lia).
  assert (He1 : -1074 <= e1) by (unfold e1; rewrite fexp_eq; lia).
  unfold binary_round_aux, shr_fexp. fold e1.
  pose proof (shr_spec mx lx ex (e1 - ex) Hm Hn) as H1.
  assert (R : forall mrs e', shr (shr_record_of_loc mx lx) ex (e1 - ex)
                             = (mrs, e') ->
              shr_r mrs = true ->
              (2 * q + 1) * 2 ^ (e1 - ex) <= 2 * mx + half lx).
  { intros mrs e' E Hr. unfold q. pose proof (half_range lx) as Hh.
    destruct (e1 - ex) as [|p|p] eqn:En; try lia.
    - cbn [shr] in E. injection E as <- _.
      rewrite (round_bit_half mx lx Hr), Z.pow_0_r, Z.div_1_r. lia.
    - cbn [shr] in E.
      destruct (shr_record_of_loc mx lx) as [m0 r0 s0] eqn:E0.
      assert (m0 = mx)
        by (rewrite <- (shr_record_of_loc_m mx lx), E0; reflexivity).
      subst m0. injection E as <- _.
      rewrite (shr_iter_round p mx r0 s0 Hm) in Hr.
      pose proof (odd_quotient_half mx (Zpos p) Hm ltac:(lia) Hr) as Ho.
      pose proof (Z.div_mod mx (2 ^ Zpos p) ltac:(lia)) as Hd.
      lia. }
  destruct (shr (shr_record_of_loc mx lx) ex (e1 - ex)) as [mrs' e'].
  destruct H1 as (-> & E1 & X1). fold q in E1.
  specialize (R mrs' _ eq_refl).
  replace (ex + (e1 - ex)) with e1 by lia.
  destruct (round_nearest_even_cases (shr_m mrs') (loc_of_shr_record mrs'))
    as [Hu Hx].
  pose proof (round_up_round_bit mrs') as Hup.
  set (u := round_nearest_even (shr_m mrs') (loc_of_shr_record mrs')) in *.
  rewrite E1 in Hu, Hup.
  assert (Hcan : canonical u e1).
  { split; [lia|]. split; [exact He1|].
    destruct (Z.eq_dec e1 (-1074)) as [|Hne]; [now left|right].
    destruct (Z.eq_dec mx 0) as [Hz|Hz].
    { exfalso. unfold e1 in *. rewrite Hz, Zdigits2_0, fexp_eq in *. lia. }
    pose proof (Zdigits2_bounds mx ltac:(lia)) as [Hl _].
    assert (En : e1 - ex = Zdigits2 mx - 53)
      by (unfold e1 in *; rewrite fexp_eq in *; lia).
    assert (2 ^ 52 <= q); [|lia].
    apply Z.div_le_lower_bound; trivial.
    rewrite En, Z.mul_comm, <- Z.pow_add_r by lia.
    now replace (52 + (Zdigits2 mx - 53)) with (Zdigits2 mx - 1) by lia. }
  exists u. split; [|split; [exact Hcan|]].
  - destruct Hu as [Hu|Hu]; [now left|right]. split; [exact Hu|].
    apply R, Hup. lia.
  - assert (Hu53 : 0 <= u <= 2 ^ 53) by lia.
    destruct (Z.eq_dec u (2 ^ 53)) as [E|NE].
    + rewrite E. change (Zdigits2 (2 ^ 53)) with 54.
      replace (fexp prec emax (54 + e1) - e1) with 1
        by (rewrite fexp_eq; lia).
      change (shr_record_of_loc (2 ^ 53) loc_Exact)
        with (Build_shr_record (2 ^ 53) false false).
      cbn [shr iter_pos shr_1 shr_m]. unfold pack.
      change (2 ^ 53 =? 2 ^ 53) with true. cbn iota.
      change (emax - prec) with 971. reflexivity.
    + assert (Hd : Zdigits2 u <= 53) by (apply Zdigits2_le; lia).
      rewrite shr_nonpos by (rewrite fexp_eq; lia).
      rewrite shr_record_of_loc_m. unfold pack.
      destruct u as [|p|p]; try lia; trivial.
      rewrite (proj2 (Z.eqb_neq _ _) NE).
      change (emax - prec) with 971. reflexivity.
Qed.

(** The location of a remainder is in the upper half only if twice the
    remainder reaches the divisor. *)
Lemma new_location_half (n k : Z) :
  half (new_location n k) = 1 -> n <= 2 * k.
Proof.
  unfold new_location, new_location_even, new_location_odd.
  destruct (Z.even n); destruct (Z.eqb_spec k 0); cbn [half]; try lia.
  - destruct (Z.compare_spec (2 * k) n); cbn [half]; lia.
  - destruct (Z.compare_spec (2 * k + 1) n); cbn [half]; lia.
Qed.

Lemma SFdiv_core_half (mx my : positive) (ex ey : Z) :
  let '(q, e', l) := SFdiv_core_binary prec emax (Zpos mx) ex (Zpos my) ey in
  0 <= ex - ey - e' /\
  (2 * q + half l) * Zpos my <= 2 * (Zpos mx * 2 ^ (ex - ey - e')).
Proof.
  unfold SFdiv_core_binary.
  set (d1 := Zdigits2 (Zpos mx)). set (d2 := Zdigits2 (Zpos my)).
  set (e' := Z.min (fexp prec emax (d1 + ex - (d2 + ey))) (ex - ey)).
  set (s := ex - ey - e').
  assert (Hs : 0 <= s) by (unfold s, e'; lia).
  set (m' := match s with
             | 0 => Zpos mx
             | Zpos _ => Z.shiftl (Zpos mx) s
             | Zneg _ => 0
             end).
  assert (Em : m' = Zpos mx * 2 ^ s).
  { unfold m'. destruct s as [|p|p]; try lia.
    apply Z.shiftl_mul_pow2. lia. }
  pose proof (Z_div_mod m' (Zpos my) ltac:(lia)) as Hdiv.
  destruct (Z.div_eucl m' (Zpos my)) as [q r]. destruct Hdiv as [Ed Hr].
  split; [exact Hs|]. unfold s in Em. rewrite <- Em, Ed.
  pose proof (half_range (new_location (Zpos my) r)) as Hh.
  destruct (Z.eq_dec (half (new_location (Zpos my) r)) 1) as [E|N].
  - apply new_location_half in E. nia.
  - nia.
Qed.

End RoundHalf.

Section QuotientHalf.

Local Open Scope Z_scope.

(** A quotient is rounded up by at most half a unit of the result: the
    result [u * 2 ^ e1] less half a unit is at most the exact quotient. *)
Lemma SFdiv_half (a b : spec_float) :
  nonneg a -> nonneg b -> 0 < Zval a -> 0 < Zval b ->
  exists u e1,
    canonical u e1 /\ SFdiv prec emax a b = pack false u e1 /\
    (2 * u - 1) * 2 ^ (e1 + 1074) * Zval b <= 2 * (Zval a * 2 ^ 1074).
Proof.
  intros Na Nb Ha Hb.
  destruct b as [sb|sb| |sb mb eb];
    try (destruct Nb as (_ & F & _); discriminate F);
    [cbn [Zval] in Hb; lia|].
  pose proof (nonneg_finite_sign _ _ _ Nb). subst sb.
  destruct a as [sa|sa| |sa ma ea];
    try (destruct Na as (_ & F & _); discriminate F);
    [cbn [Zval] in Ha; lia|].
  pose proof (nonneg_finite_sign _ _ _ Na). subst sa.
  cbn [SFdiv xorb].
  destruct Na as (Va & _ & _), Nb as (Vb & _ & _).
  pose proof (proj1 (valid_finite_iff _ _ _) Va) as (_ & Hea & _).
  pose proof (proj1 (valid_finite_iff _ _ _) Vb) as (_ & Heb & _).
  pose proof (SFdiv_core_spec ma mb ea eb) as Hcore.
  pose proof (SFdiv_core_half ma mb ea eb) as Hhalf.
  destruct (SFdiv_core_binary prec emax (Zpos ma) ea (Zpos mb) eb) as [[q e'] l].
  destruct Hcore as (r & Hr & Hq & Hs & Ed & Hl & Hfine & Hlow).
  destruct Hhalf as (_ & Hhalf).
  destruct (binary_round_aux_half false q e' l Hq Hfine) as (u & Hu & Hc & E).
  set (e1 := fexp prec emax (Zdigits2 q + e')) in *.
  exists u, e1. split; [exact Hc|]. split; [exact E|].
  cbn [Zval cond_Zopp].
  assert (Hn : 0 <= e1 - e') by lia.
  assert (Pn : 0 < 2 ^ (e1 - e')) by (apply pow2_pos; lia).
  pose proof (half_range l) as Hh.
  assert (A : (2 * u - 1) * 2 ^ (e1 - e') * Zpos mb
              <= 2 * (Zpos ma * 2 ^ (ea - eb - e'))).
  { apply Z.le_trans with ((2 * q + half l) * Zpos mb); [|exact Hhalf].
    apply Z.mul_le_mono_nonneg_r; [lia|].
    destruct Hu as [->|[-> Hu]];
      [|now replace (2 * (q / 2 ^ (e1 - e') + 1) - 1)
          with (2 * (q / 2 ^ (e1 - e')) + 1) by lia].
    pose proof (Z.div_mod q (2 ^ (e1 - e')) ltac:(lia)) as Hd.
    pose proof (Z.mod_pos_bound q (2 ^ (e1 - e')) Pn) as Hm.
    set (Q := q / 2 ^ (e1 - e')) in *. set (P := 2 ^ (e1 - e')) in *.
    clearbody Q P. nia. }
  assert (P1 : 0 < 2 ^ (e' + 2148)) by (apply pow2_pos; lia).
  assert (Py : 0 < 2 ^ (eb + 1074)) by (apply pow2_pos; lia).
  assert (PS : 0 < 2 ^ 1074) by (apply pow2_pos; lia).
  assert (E1 : 2 ^ (e1 - e') * 2 ^ (e' + 2148) = 2 ^ (e1 + 1074) * 2 ^ 1074).
  { rewrite <- !Z.pow_add_r by (destruct Hc as (_ & ? & _); lia). f_equal. lia. }
  assert (E2 : 2 ^ (ea - eb - e') * 2 ^ (e' + 2148) * 2 ^ (eb + 1074)
               = 2 ^ (ea + 1074) * 2 ^ 1074 * 2 ^ 1074).
  { rewrite <- !Z.pow_add_r by lia. f_equal. lia. }
  apply (Z.mul_le_mono_pos_r _ _ (2 ^ 1074)); trivial.
  set (X := 2 ^ (e1 - e')) in *. set (Y := 2 ^ (e' + 2148)) in *.
  set (B := 2 ^ (eb + 1074)) in *. set (S := 2 ^ 1074) in *.
  set (E0 := 2 ^ (e1 + 1074)) in *. set (C := 2 ^ (ea + 1074)) in *.
  set (T := 2 ^ (ea - eb - e')) in *.
  clearbody X Y B S E0 C T.
  replace ((2 * u - 1) * E0 * (Zpos mb * B) * S)
    with ((2 * u - 1) * X * Zpos mb * (Y * B))
    by (replace ((2 * u - 1) * X * Zpos mb * (Y * B))
          with ((2 * u - 1) * Zpos mb * B * (X * Y)) by ring;
        rewrite E1; ring).
  replace (2 * (Zpos ma * C * S) * S) with (2 * (Zpos ma * T) * (Y * B))
    by (replace (2 * (Zpos ma * T) * (Y * B))
          with (2 * Zpos ma * (T * Y * B)) by ring;
        rewrite E2; ring).
  apply Z.mul_le_mono_nonneg_r; [nia|exact A].
Qed.

End QuotientHalf.

(** ** Numbers and their values *)

Section NumberValues.

Local Open Scope Z_scope.

(** The value of a Number in units of [2 ^ -1074], and whether it is
    finite. *)
Definition val (a : Number) : Z := Zval (Prim2SF a).

Definition finite (a : Number) : bool := SFfinite (Prim2SF a).

Lemma finite_nonneg (a : Number) :
  finite a = true -> 0 <= val a -> nonneg (Prim2SF a).
Proof. intros F H. split; [apply Prim2SF_valid|]. split; trivial. Qed.

Lemma is_finite_spec (a : Number) : is_finite a = finite a.
Proof.
  unfold is_finite, finite, is_infinity.
  destruct (is_nan a) eqn:En.
  - apply is_nan_spec in En. now rewrite En.
  - apply is_nan_false in En. rewrite eqb_spec, abs_spec.
    change (Prim2SF infinity) with (S754_infinity false).
    destruct (Prim2SF a) as [s|s| |s m e]; try congruence; reflexivity.
Qed.

Lemma leb_val (a b : Number) :
  finite a = true -> finite b = true -> (a <=? b)%float = (val a <=? val b).
Proof.
  intros Fa Fb. rewrite leb_spec. unfold SFleb.
  rewrite (SFcompare_Zval _ _ (Prim2SF_valid a) (Prim2SF_valid b) Fa Fb).
  unfold Z.leb, val. now destruct (_ ?= _).
Qed.

Lemma ltb_val (a b : Number) :
  finite a = true -> finite b = true -> (a <? b)%float = (val a <? val b).
Proof.
  intros Fa Fb. rewrite ltb_spec. unfold SFltb.
  rewrite (SFcompare_Zval _ _ (Prim2SF_valid a) (Prim2SF_valid b) Fa Fb).
  unfold Z.ltb, val. now destruct (_ ?= _).
Qed.

(** Two finite Numbers of one sign and one value are the same Number. *)
Lemma val_inj (a b : Number) :
  finite a = true -> finite b = true ->
  SFsign (Prim2SF a) = SFsign (Prim2SF b) -> val a = val b -> a = b.
Proof.
  intros Fa Fb Hs Hv. apply Prim2SF_inj.
  apply Zval_inj; trivial; apply Prim2SF_valid.
Qed.

(** *** Integers as Numbers *)

Lemma below_2_53_fits (n : Z) : 0 <= n < 2 ^ 53 -> n * 2 ^ (0 + 1074) < 2 ^ 2098.
Proof.
  intros Hn. change (2 ^ 2098) with (2 ^ 53 * 2 ^ 971 * 2 ^ (0 + 1074)).
  assert (0 < 2 ^ (0 + 1074)) by (apply pow2_pos; lia).
  assert (1 <= 2 ^ 971) by (change 1 with (2 ^ 0); apply Z.pow_le_mono_r; lia).
  nia.
Qed.

Lemma Prim2SF_of_Z (n : Z) :
  0 <= n < 2 ^ 53 -> Prim2SF (of_Z n) = binary_normalize prec emax n 0 false.
Proof.
  intros Hn. unfold of_Z. apply Prim2SF_SF2Prim.
  apply (binary_normalize_representable n 0); try lia.
Qed.

Lemma of_Z_value (n : Z) :
  0 <= n < 2 ^ 53 ->
  finite (of_Z n) = true /\ val (of_Z n) = n * 2 ^ 1074 /\
  SFsign (Prim2SF (of_Z n)) = false.
Proof.
  intros Hn. unfold finite, val. rewrite (Prim2SF_of_Z n Hn).
  destruct (binary_normalize_representable n 0 ltac:(lia) Hn (below_2_53_fits n Hn))
    as ((_ & F & _) & V & S).
  repeat split; trivial.
Qed.

Lemma of_Z_nonneg (n : Z) : 0 <= n < 2 ^ 53 -> nonneg (Prim2SF (of_Z n)).
Proof.
  intros Hn. destruct (of_Z_value n Hn) as (F & V & _).
  apply finite_nonneg; trivial. rewrite V.
  apply Z.mul_nonneg_nonneg; [lia|]. apply Z.lt_le_incl, pow2_pos. lia.
Qed.

(** Integers below [2 ^ 53] are added without rounding. *)
Lemma add_of_Z (n k : Z) :
  0 <= n -> 0 <= k -> n + k < 2 ^ 53 ->
  (of_Z n + of_Z k)%float = of_Z (n + k).
Proof.
  intros Hn Hk Hs. apply Prim2SF_inj. rewrite add_spec.
  destruct (of_Z_value n ltac:(lia)) as (Fn & Vn & Sn).
  destruct (of_Z_value k ltac:(lia)) as (Fk & Vk & Sk).
  destruct (of_Z_value (n + k) ltac:(lia)) as (Fs & Vs & Ss).
  apply SFadd_exact; trivial; try (apply of_Z_nonneg; lia);
    try apply Prim2SF_valid.
  unfold val in *. rewrite Vs, Vn, Vk. ring.
Qed.

(** The mantissa and the exponent of a finite Number that holds the
    integer [n]. *)
Lemma integer_mantissa (s : bool) (m : positive) (e n : Z) :
  -1074 <= e -> Zpos m * 2 ^ (e + 1074) = n * 2 ^ 1074 ->
  (0 <= e /\ Zpos m * 2 ^ e = n) \/ (e < 0 /\ Zpos m = n * 2 ^ (- e)).
Proof.
  intros He H. assert (Q : 0 < 2 ^ 1074) by (apply pow2_pos; lia).
  destruct (Z.le_gt_cases 0 e) as [H0|H0]; [left|right]; split; trivial.
  - rewrite Z.pow_add_r, Z.mul_assoc in H by lia.
    apply Z.mul_cancel_r in H; lia.
  - replace 1074 with ((- e) + (e + 1074)) in H at 2 by lia.
    rewrite (Z.pow_add_r 2 (- e) (e + 1074)), Z.mul_assoc in H by lia.
    apply Z.mul_cancel_r in H; trivial.
    assert (0 < 2 ^ (e + 1074)) by (apply pow2_pos; lia). lia.
Qed.

Lemma truncate_of_Z (n : Z) : 0 <= n < 2 ^ 53 -> truncate (of_Z n) = n.
Proof.
  intros Hn. destruct (of_Z_value n Hn) as (F & V & S).
  unfold truncate, finite, val in *.
  pose proof (Prim2SF_valid (of_Z n)) as Hv.
  destruct (Prim2SF (of_Z n)) as [s|s| |s m e]; try discriminate.
  - cbn [Zval] in V. assert (0 < 2 ^ 1074) by (apply pow2_pos; lia). nia.
  - cbn [SFsign] in S. subst s. cbn [Zval cond_Zopp] in *.
    apply valid_finite_iff in Hv. destruct Hv as (_ & He & _).
    destruct (integer_mantissa false m e n ltac:(lia) V) as [[H0 E]|[H0 E]].
    + now rewrite (proj2 (Z.leb_le 0 e) H0).
    + rewrite (proj2 (Z.leb_gt 0 e) H0), Z.shiftr_div_pow2, E by lia.
      apply Z.div_mul. apply Z.pow_nonzero; lia.
Qed.

Lemma is_integer_of_Z (n : Z) : 0 <= n < 2 ^ 53 -> is_integer (of_Z n) = true.
Proof.
  intros Hn. destruct (of_Z_value n Hn) as (F & V & S).
  unfold is_integer, finite, val in *.
  pose proof (Prim2SF_valid (of_Z n)) as Hv.
  destruct (Prim2SF (of_Z n)) as [s|s| |s m e]; try discriminate; trivial.
  cbn [SFsign] in S. subst s. cbn [Zval cond_Zopp] in *.
  apply valid_finite_iff in Hv. destruct Hv as (_ & He & _).
  destruct (integer_mantissa false m e n ltac:(lia) V) as [[H0 E]|[H0 E]].
  - now rewrite (proj2 (Z.leb_le 0 e) H0).
  - rewrite E, Z.mod_mul, Z.eqb_refl, orb_true_r; trivial.
    apply Z.pow_nonzero; lia.
Qed.

Lemma of_Z_not_nan (n : Z) : 0 <= n < 2 ^ 53 -> is_nan (of_Z n) = false.
Proof.
  intros Hn. destruct (of_Z_value n Hn) as (F & _). apply is_nan_false.
  unfold finite in F. destruct (Prim2SF (of_Z n)); discriminate.
Qed.

Lemma finite_not_infinity (a : Number) :
  finite a = true ->
  (a =? infinity)%float = false /\ (a =? neg_infinity)%float = false.
Proof.
  unfold finite. rewrite !eqb_spec.
  change (Prim2SF infinity) with (S754_infinity false).
  change (Prim2SF neg_infinity) with (S754_infinity true).
  destruct (Prim2SF a) as [s|s| |s m e]; try discriminate; intros _;
    split; try reflexivity; destruct s; reflexivity.
Qed.

(** An integer below [2 ^ 53] is printed by its digits. *)
Lemma Number_toString_of_Z (radix n : Z) :
  0 <= n < 2 ^ 53 ->
  Number_toString radix (of_Z n) = Some (integer_toString radix n).
Proof.
  intros Hn. unfold Number_toString.
  destruct (of_Z_value n Hn) as (F & _).
  destruct (finite_not_infinity _ F) as [-> ->].
  rewrite (of_Z_not_nan n Hn), (is_integer_of_Z n Hn), (truncate_of_Z n Hn).
  now rewrite (proj2 (Z.ltb_lt (Z.abs n) (2 ^ 53))) by lia.
Qed.

End NumberValues.

(** ** Colors: printing and parsing *)

Section ColorRoundTrip.

Local Open Scope Z_scope.

Lemma wrap32_small (n : Z) : 0 <= n < 2 ^ 31 -> wrap32 n = n.
Proof.
  intros Hn. unfold wrap32. rewrite Z.mod_small by lia.
  now rewrite (proj2 (Z.ltb_lt n (2 ^ 31))) by lia.
Qed.

(** [c << k] on a small integer is a multiplication. *)
Lemma shl_of_Z (n k : Z) :
  0 <= k <= 31 -> 0 <= n -> n * 2 ^ k < 2 ^ 31 ->
  shl (of_Z n) k = of_Z (n * 2 ^ k).
Proof.
  intros Hk Hn Hlt. unfold shl, ToInt32.
  assert (Hp : 1 <= 2 ^ k) by (change 1 with (2 ^ 0); apply Z.pow_le_mono_r; lia).
  assert (Hn31 : n < 2 ^ 31) by nia.
  rewrite truncate_of_Z by lia.
  rewrite (wrap32_small n) by lia.
  replace (Z.land k 31) with k.
  - rewrite Z.shiftl_mul_pow2, wrap32_small by lia. reflexivity.
  - change 31 with (Z.ones 5). rewrite Z.land_ones, Z.mod_small; trivial.
    + change (2 ^ 5) with 32. lia.
    + lia.
Qed.

Lemma hex_value_digit_char (d : Z) :
  0 <= d < 16 -> hex_value (digit_char d) = Some d.
Proof.
  intros Hd.
  assert (H : d = 0 \/ d = 1 \/ d = 2 \/ d = 3 \/ d = 4 \/ d = 5 \/ d = 6 \/ d = 7
              \/ d = 8 \/ d = 9 \/ d = 10 \/ d = 11 \/ d = 12 \/ d = 13 \/ d = 14
              \/ d = 15) by lia.
  repeat (destruct H as [->|H]; [reflexivity|]). subst d. reflexivity.
Qed.

(** The two hexadecimal digits of a channel. *)
Definition hex2 (n : Z) : string :=
  String (digit_char (n / 16)) (String (digit_char (n mod 16)) EmptyString).

Lemma parseInt16_hex2 (n : Z) : 0 <= n <= 255 -> parseInt16 (hex2 n) = of_Z n.
Proof.
  intros Hn. unfold parseInt16, hex2. cbn [parse_hex_prefix].
  rewrite !hex_value_digit_char by dlia. f_equal. dlia.
Qed.

Lemma digits_aux_more (fuel : nat) (n : Z) (acc : string) :
  16 <= n ->
  digits_aux (S fuel) 16 n acc
  = digits_aux fuel 16 (n / 16) (String (digit_char (n mod 16)) acc).
Proof.
  intros Hn. cbn [digits_aux]. now rewrite (proj2 (Z.ltb_ge n 16)) by lia.
Qed.

Lemma digits_aux_last (fuel : nat) (n : Z) (acc : string) :
  n < 16 -> digits_aux (S fuel) 16 n acc = String (digit_char (n mod 16)) acc.
Proof.
  intros Hn. cbn [digits_aux]. now rewrite (proj2 (Z.ltb_lt n 16)) by lia.
Qed.

(** The digits of [2 ^ 24 + r * 2 ^ 16 + g * 2 ^ 8 + b]: a one, then two
    digits for each channel. *)
Lemma digits_packed (r0 g0 b0 : Z) :
  0 <= r0 <= 255 -> 0 <= g0 <= 255 -> 0 <= b0 <= 255 ->
  digits 16 (2 ^ 24 + r0 * 2 ^ 16 + g0 * 2 ^ 8 + b0)
  = String "1" (hex2 r0 ++ hex2 g0 ++ hex2 b0).
Proof.
  intros Hr Hg Hb. unfold digits.
  set (T := 2 ^ 24 + r0 * 2 ^ 16 + g0 * 2 ^ 8 + b0).
  assert (HT : 2 ^ 24 <= T < 2 ^ 25) by (unfold T; lia).
  rewrite (Z.log2_unique T 24) by lia.
  change (S (Z.to_nat 24)) with 25%nat.
  assert (E1 : T mod 16 = b0 mod 16) by (unfold T; dlia).
  assert (E2 : T / 16 mod 16 = b0 / 16) by (unfold T; dlia).
  assert (E3 : T / 16 / 16 mod 16 = g0 mod 16) by (unfold T; dlia).
  assert (E4 : T / 16 / 16 / 16 mod 16 = g0 / 16) by (unfold T; dlia).
  assert (E5 : T / 16 / 16 / 16 / 16 mod 16 = r0 mod 16) by (unfold T; dlia).
  assert (E6 : T / 16 / 16 / 16 / 16 / 16 mod 16 = r0 / 16) by (unfold T; dlia).
  assert (E7 : T / 16 / 16 / 16 / 16 / 16 / 16 = 1) by (unfold T; dlia).
  do 6 (rewrite digits_aux_more by dlia).
  rewrite digits_aux_last by dlia.
  rewrite E1, E2, E3, E4, E5, E6, E7. reflexivity.
Qed.

Lemma is_hex_digit_char (d : Z) : 0 <= d < 16 -> color.is_hex (digit_char d) = true.
Proof. intros Hd. unfold color.is_hex. now rewrite hex_value_digit_char. Qed.

Lemma hexToRgb_hex2 (r0 g0 b0 : Z) :
  0 <= r0 <= 255 -> 0 <= g0 <= 255 -> 0 <= b0 <= 255 ->
  color.hexToRgb (String "#" (hex2 r0 ++ hex2 g0 ++ hex2 b0))
  = Some {| color.r := of_Z r0; color.g := of_Z g0; color.b := of_Z b0 |}.
Proof.
  intros Hr Hg Hb. unfold color.hexToRgb, color.regex_exec.
  unfold hex2 at 1 2 3. cbn [append color.match_groups].
  rewrite !is_hex_digit_char by dlia. cbn [andb].
  fold (hex2 r0) (hex2 g0) (hex2 b0).
  now rewrite !parseInt16_hex2.
Qed.

Lemma rgbToHex_of_Z (r0 g0 b0 : Z) :
  0 <= r0 <= 255 -> 0 <= g0 <= 255 -> 0 <= b0 <= 255 ->
  color.rgbToHex (of_Z r0) (of_Z g0) (of_Z b0)
  = Some (String "#" (hex2 r0 ++ hex2 g0 ++ hex2 b0)).
Proof.
  intros Hr Hg Hb. unfold color.rgbToHex.
  replace (shl 1%float 24) with (of_Z (2 ^ 24)) by (vm_compute; reflexivity).
  rewrite (shl_of_Z r0 16), (shl_of_Z g0 8) by lia.
  rewrite !add_of_Z by lia.
  rewrite Number_toString_of_Z by lia.
  unfold integer_toString.
  rewrite (proj2 (Z.ltb_ge _ 0)) by lia.
  rewrite digits_packed by lia. reflexivity.
Qed.

(** C3: for integer channels in [[0, 255]], [rgbToHex] gives a string
    (a [#] and two hexadecimal digits for each channel) that [hexToRgb]
    parses, and the parsed record holds the same three channels. *)
Theorem hexToRgb_rgbToHex (r0 g0 b0 : Z) :
  0 <= r0 <= 255 -> 0 <= g0 <= 255 -> 0 <= b0 <= 255 ->
  exists hex,
    color.rgbToHex (of_Z r0) (of_Z g0) (of_Z b0) = Some hex /\
    hex = String "#" (hex2 r0 ++ hex2 g0 ++ hex2 b0) /\
    color.hexToRgb hex
    = Some {| color.r := of_Z r0; color.g := of_Z g0; color.b := of_Z b0 |}.
Proof.
  intros Hr Hg Hb. eexists. split; [now apply rgbToHex_of_Z|].
  split; [reflexivity|]. now apply hexToRgb_hex2.
Qed.

Lemma hexToRgb_rgbToHex_witness :
  exists hex,
    color.rgbToHex (of_Z 255) (of_Z 128) (of_Z 0) = Some hex /\
    hex = String "#" (hex2 255 ++ hex2 128 ++ hex2 0) /\
    color.hexToRgb hex
    = Some {| color.r := of_Z 255; color.g := of_Z 128; color.b := of_Z 0 |}.
Proof. apply hexToRgb_rgbToHex; lia. Defined.

Example rgbToHex_red :
  color.rgbToHex 255%float 0%float 0%float = Some "#ff0000"%string /\
  color.hexToRgb "#ff0000"
  = Some {| color.r := 255%float; color.g := 0%float; color.b := 0%float |}.
Proof. vm_compute. split; reflexivity. Qed.

End ColorRoundTrip.

(** ** Formatting a time *)

Section FormatTime.

Local Open Scope Z_scope.

Lemma SFdiv_sign (a b : spec_float) :
  nonneg a -> nonneg b -> 0 < Zval b ->
  SFsign a = false -> SFsign b = false ->
  SFsign (SFdiv prec emax a b) = false.
Proof.
  intros Na Nb Hb Sa Sb.
  destruct b as [sb|sb| |sb mb eb]; try (destruct Nb as (_ & F & _); discriminate).
  destruct a as [sa|sa| |sa ma ea]; try (destruct Na as (_ & F & _); discriminate);
    cbn [SFsign] in Sa, Sb; subst sa sb; cbn [SFdiv]; trivial.
  pose proof (SFdiv_core_spec ma mb ea eb) as Hcore.
  destruct (SFdiv_core_binary prec emax (Zpos ma) ea (Zpos mb) eb) as [[q e'] l].
  destruct Hcore as (r & Hr & Hq & Hs & Ed & Hl & Hfine & Hlow).
  destruct (binary_round_aux_canonical (xorb false false) q e' l Hq Hfine)
    as (u & _ & _ & _ & ->).
  apply pack_sign.
Qed.

(** [Math.floor] of a Number between two consecutive integers. *)
Lemma Math_floor_between (v : Number) (k : Z) :
  finite v = true -> SFsign (Prim2SF v) = false -> 0 <= k < 2 ^ 53 ->
  k * 2 ^ 1074 <= val v < (k + 1) * 2 ^ 1074 ->
  Math_floor v = of_Z k.
Proof.
  intros F S Hk Hv.
  destruct (of_Z_value k Hk) as (Fk & Vk & Sk).
  assert (Q : 0 < 2 ^ 1074) by (apply pow2_pos; lia).
  assert (Hsame : val v = k * 2 ^ 1074 -> v = of_Z k).
  { intros E. apply val_inj; trivial; congruence. }
  unfold Math_floor. unfold finite, val in *.
  pose proof (Prim2SF_valid v) as Hvalid.
  destruct (Prim2SF v) as [s|s| |s m e] eqn:E; try discriminate.
  - apply Hsame. cbn [Zval] in *. nia.
  - cbn [SFsign] in S. subst s. cbn [Zval cond_Zopp] in *.
    apply valid_finite_iff in Hvalid. destruct Hvalid as (_ & He & _).
    destruct (Z.leb_spec 0 e) as [H0|H0].
    + apply Hsame.
      rewrite (Z.pow_add_r 2 e 1074), Z.mul_assoc in * by lia.
      assert (Zpos m * 2 ^ e = k) by nia. congruence.
    + unfold floor_dyadic. cbn [cond_Zopp]. rewrite Z.shiftr_div_pow2 by lia.
      assert (P : 0 < 2 ^ (- e)) by (apply pow2_pos; lia).
      assert (P' : 0 < 2 ^ (e + 1074)) by (apply pow2_pos; lia).
      assert (EQ : 2 ^ 1074 = 2 ^ (- e) * 2 ^ (e + 1074))
        by (rewrite <- Z.pow_add_r by lia; f_equal; lia).
      rewrite EQ, !Z.mul_assoc in Hv.
      assert (Hq : Zpos m / 2 ^ (- e) = k).
      { symmetry. apply (Z.div_unique_pos _ _ _ (Zpos m - k * 2 ^ (- e))); nia. }
      rewrite Hq. destruct (Z.eqb_spec k 0) as [->|]; reflexivity.
Qed.

Lemma Math_floor_of_Z (k : Z) : 0 <= k < 2 ^ 53 -> Math_floor (of_Z k) = of_Z k.
Proof.
  intros Hk. destruct (of_Z_value k Hk) as (F & V & S).
  apply Math_floor_between; trivial. rewrite V.
  assert (0 < 2 ^ 1074) by (apply pow2_pos; lia). nia.
Qed.

Lemma Prim2SF_60 : Prim2SF 60%float = S754_finite false 8444249301319680 (-47).
Proof. vm_compute. reflexivity. Qed.

Lemma val_60 : val 60%float = 60 * 2 ^ 1074.
Proof. unfold val. rewrite Prim2SF_60. reflexivity. Qed.

(** The arithmetic of a quotient by 60 rounded up to the integer [K], in
    terms of the factors between the units: [P] units of the result make
    1, and the dividend [ms] counts units of which [H] make 4.  At most
    half a unit of the result is added, and the format leaves no room for
    that. *)
Lemma not_rounded_up_fine (ms u K P H : Z) :
  0 < ms < 2 ^ 53 -> 2 ^ 52 <= u -> 1 <= K -> 1 <= P -> 1 <= H ->
  u = K * P -> ms < 15 * K * H ->
  (2 * u - 1) * (15 * H) <= 2 * ms * P ->
  False.
Proof.
  intros Hms Hu HK HP HH Eu Hlt Hhalf.
  set (x := K * H) in *.
  assert (Hx : 1 <= x) by (unfold x; nia).
  set (t := 15 * x - ms).
  assert (Ht : 1 <= t) by (unfold t; lia).
  assert (Hs : 2 * t * P <= 15 * H).
  { assert (E1 : (2 * u - 1) * (15 * H) = 30 * x * P - 15 * H)
      by (rewrite Eu; unfold x; ring).
    assert (E2 : 2 * ms * P = 30 * x * P - 2 * t * P) by (unfold t; ring).
    lia. }
  assert (Hk : 2 * t * u <= 15 * x).
  { assert (E1 : 2 * t * u = K * (2 * t * P)) by (rewrite Eu; ring).
    assert (E2 : 15 * x = K * (15 * H)) by (unfold x; ring).
    rewrite E1, E2. apply Z.mul_le_mono_nonneg_l; lia. }
  assert (Hm : t * (2 * u - 1) <= ms) by (unfold t in *; lia).
  assert (Hb : 1 * (2 * 2 ^ 52 - 1) <= t * (2 * u - 1))
    by (apply Z.mul_le_mono_nonneg; lia).
  assert (Em : ms = 2 ^ 53 - 1) by lia.
  assert (Et : t = 1).
  { destruct (Z.eq_dec t 1) as [|Nt]; trivial. exfalso.
    assert (2 * (2 * 2 ^ 52 - 1) <= t * (2 * u - 1))
      by (apply Z.mul_le_mono_nonneg; lia).
    lia. }
  unfold t in Et. lia.
Qed.

(** The same when the dividend counts units of 8: it is then a multiple
    of 8 below [60 * 2 ^ 50 + 56]. *)
Lemma not_rounded_up_coarse (ms u K e1 : Z) :
  2 ^ 52 <= u -> 1 <= K <= 2 ^ 50 + 1 -> e1 < 0 ->
  u = K * 2 ^ (- e1) -> 8 * ms < 60 * K ->
  (K = 2 ^ 50 + 1 -> 8 * ms < 67553994410557496) ->
  (2 * u - 1) * 60 <= 16 * ms * 2 ^ (- e1) ->
  False.
Proof.
  intros Hu HK He Eu Hlt HB Hhalf.
  set (P := 2 ^ (- e1)) in *.
  assert (HP : 4 <= P).
  { destruct (Z.le_gt_cases 4 P) as [|Hgt]; trivial. exfalso.
    assert (K * P <= K * 3) by (apply Z.mul_le_mono_nonneg_l; lia). lia. }
  assert (Hd : P * (60 * K - 8 * ms) <= 30).
  { assert (E1 : (2 * u - 1) * 60 = 120 * (K * P) - 60) by (rewrite Eu; ring).
    assert (E2 : 16 * ms * P = 16 * (P * ms)) by ring.
    assert (E3 : P * (60 * K - 8 * ms) = 60 * (K * P) - 8 * (P * ms)) by ring.
    lia. }
  assert (Hd4 : 4 * (60 * K - 8 * ms) <= P * (60 * K - 8 * ms))
    by (apply Z.mul_le_mono_nonneg_r; lia).
  destruct (Z.lt_ge_cases K (2 ^ 50)) as [Hlt50|Hge50].
  - (* the unit of the result is an eighth at most *)
    assert (HP8 : 8 <= P).
    { destruct (Z.le_gt_cases (- e1) 2) as [Hle|Hgt].
      - exfalso.
        assert (P <= 2 ^ 2) by (apply Z.pow_le_mono_r; lia).
        change (2 ^ 2) with 4 in *.
        assert (K * P <= K * 4) by (apply Z.mul_le_mono_nonneg_l; lia). lia.
      - assert (2 ^ 3 <= P) by (apply Z.pow_le_mono_r; lia).
        change (2 ^ 3) with 8 in *. trivial. }
    assert (8 * (60 * K - 8 * ms) <= P * (60 * K - 8 * ms))
      by (apply Z.mul_le_mono_nonneg_r; lia).
    lia.
  - destruct (Z.eq_dec K (2 ^ 50)) as [EK|NK]; [lia|].
    assert (EK : K = 2 ^ 50 + 1) by lia. specialize (HB EK). lia.
Qed.

(** A quotient by 60 is not rounded up to the integer [K]. *)
Lemma minutes_not_rounded_up (ms es u e1 K : Z) :
  0 < ms < 2 ^ 53 -> -1074 <= es -> (es = -1074 \/ 2 ^ 52 <= ms) ->
  canonical u e1 -> 1 <= K <= 2 ^ 50 + 1 ->
  ms * 2 ^ (es + 1074) < 60 * K * 2 ^ 1074 ->
  (K = 2 ^ 50 + 1 -> ms * 2 ^ (es + 1074) < 67553994410557496 * 2 ^ 1074) ->
  (2 * u - 1) * 2 ^ (e1 + 1074) * 60 <= 2 * (ms * 2 ^ (es + 1074)) ->
  u * 2 ^ (e1 + 1074) <> K * 2 ^ 1074.
Proof.
  intros Hms Hes Hnorm (Hu & He1 & Hcan) HK.
  set (S := 2 ^ 1074). set (E := 2 ^ (e1 + 1074)). set (G := 2 ^ (es + 1074)).
  intros HN HB Hhalf EQ.
  assert (PS : 0 < S) by (apply pow2_pos; lia).
  assert (PE : 0 < E) by (apply pow2_pos; lia).
  assert (PG : 0 < G) by (apply pow2_pos; lia).
  (* how the units are related *)
  assert (EE : 0 <= e1 -> E = 2 ^ e1 * S)
    by (intros; apply Z.pow_add_r; lia).
  assert (ES : e1 < 0 -> S = E * 2 ^ (- e1)).
  { intros. unfold S, E. rewrite <- Z.pow_add_r by lia. f_equal. lia. }
  assert (EG : 0 <= es -> G = 2 ^ es * S)
    by (intros; apply Z.pow_add_r; lia).
  assert (EH : es <= 2 -> G * 2 ^ (2 - es) = 4 * S).
  { intros. unfold G, S. rewrite <- Z.pow_add_r by lia.
    replace (es + 1074 + (2 - es)) with (2 + 1074) by lia.
    now rewrite Z.pow_add_r by lia. }
  clearbody S E G.
  (* the unit of the result is below 1 *)
  assert (He : e1 < 0).
  { destruct (Z.lt_ge_cases e1 0) as [|Hge]; trivial. exfalso.
    assert (Hu52 : 2 ^ 52 <= u) by (destruct Hcan; lia).
    assert (1 <= 2 ^ e1) by (pose proof (pow2_pos e1 Hge); lia).
    rewrite (EE Hge), Z.mul_assoc in EQ. apply Z.mul_cancel_r in EQ; [|lia].
    set (X := 2 ^ e1) in *. clearbody X. clear - EQ Hu52 HK H. nia. }
  specialize (ES He). clear EE.
  assert (Eu : u = K * 2 ^ (- e1)).
  { rewrite ES, (Z.mul_comm E), Z.mul_assoc in EQ.
    apply Z.mul_cancel_r in EQ; lia. }
  set (P := 2 ^ (- e1)) in *.
  assert (HP : 1 <= P) by (pose proof (pow2_pos (- e1) ltac:(lia)); lia).
  (* the result is normal *)
  assert (Hu52 : 2 ^ 52 <= u).
  { destruct Hcan as [E74|]; trivial. exfalso.
    assert (2 ^ 54 <= P) by (apply Z.pow_le_mono_r; lia).
    clear - Eu Hu HK H. nia. }
  (* the dividend is below 2 ^ 56 *)
  assert (Hes3 : es <= 3).
  { destruct Hnorm as [->|Hn]; [lia|].
    destruct (Z.le_gt_cases es 3) as [|Hgt]; trivial. exfalso.
    assert (2 ^ 4 <= 2 ^ es) by (apply Z.pow_le_mono_r; lia).
    rewrite (EG ltac:(lia)), Z.mul_assoc in HN.
    apply Z.mul_lt_mono_pos_r in HN; trivial.
    set (X := 2 ^ es) in *. clearbody X. clear - HN Hn H HK.
    change (2 ^ 4) with 16 in H. nia. }
  destruct (Z.le_gt_cases es 2) as [Hle|Hgt].
  - specialize (EH Hle). set (H := 2 ^ (2 - es)) in *.
    assert (PH : 1 <= H) by (pose proof (pow2_pos (2 - es) ltac:(lia)); lia).
    clear EG. clearbody H P.
    apply (not_rounded_up_fine ms u K P H); trivial; try lia.
    + (* the count is below [60 * K] *)
      apply (Z.mul_lt_mono_pos_r (4 * S)); [lia|].
      rewrite <- EH at 1.
      replace (ms * (G * H)) with (ms * G * H) by ring.
      replace (15 * K * H * (4 * S)) with (60 * K * S * H) by ring.
      apply Z.mul_lt_mono_pos_r; lia.
    + (* half a unit *)
      apply (Z.mul_le_mono_pos_r _ _ (4 * S)); [lia|].
      replace ((2 * u - 1) * (15 * H) * (4 * S))
        with ((2 * u - 1) * S * 60 * H) by ring.
      rewrite <- EH. rewrite ES at 1.
      replace ((2 * u - 1) * (E * P) * 60 * H)
        with ((2 * u - 1) * E * 60 * (P * H)) by ring.
      replace (2 * ms * P * (G * H)) with (2 * (ms * G) * (P * H)) by ring.
      apply Z.mul_le_mono_nonneg_r; [|exact Hhalf].
      apply Z.mul_nonneg_nonneg; lia.
  - assert (es = 3) by lia. subst es.
    assert (EG8 : G = 8 * S) by (now rewrite EG by lia).
    clear EG EH. subst G.
    apply (not_rounded_up_coarse ms u K e1); trivial; fold P.
    + apply (Z.mul_lt_mono_pos_r S); trivial.
      replace (8 * ms * S) with (ms * (8 * S)) by ring. exact HN.
    + intros EK. apply (Z.mul_lt_mono_pos_r S); trivial.
      replace (8 * ms * S) with (ms * (8 * S)) by ring. auto.
    + apply (Z.mul_le_mono_pos_r _ _ S); trivial.
      rewrite ES at 1.
      replace ((2 * u - 1) * 60 * (E * P)) with ((2 * u - 1) * E * 60 * P) by ring.
      replace (16 * ms * P * S) with (2 * (ms * (8 * S)) * P) by ring.
      apply Z.mul_le_mono_nonneg_r; [lia|exact Hhalf].
Qed.

(** The minutes of a count that need not be an integer: the quotient by
    60 is rounded, but below [60 * 2 ^ 50 + 56] it never reaches the next
    integer. *)
Lemma minutes_truncated (s : Number) (n : Z) :
  finite s = true -> SFsign (Prim2SF s) = false -> 0 <= n ->
  n * 2 ^ 1074 <= val s < (n + 1) * 2 ^ 1074 ->
  val s < 67553994410557496 * 2 ^ 1074 ->
  Math_floor (s / 60)%float = of_Z (n / 60).
Proof.
  intros Fs Ss Hn0 Hn HB.
  assert (Q : 0 < 2 ^ 1074) by (apply pow2_pos; lia).
  assert (Hn' : n < 67553994410557496) by nia.
  set (k := n / 60).
  assert (Hk : 0 <= k <= 2 ^ 50) by (unfold k; dlia).
  assert (Hk60 : 60 * k <= n <= 60 * k + 59) by (unfold k; dlia).
  assert (Ns : nonneg (Prim2SF s)) by (apply finite_nonneg; trivial; nia).
  assert (N60 : nonneg (Prim2SF 60%float))
    by (rewrite Prim2SF_60; repeat split; cbn; lia).
  assert (P60 : 0 < Zval (Prim2SF 60%float)) by (rewrite Prim2SF_60; reflexivity).
  assert (S60 : SFsign (Prim2SF 60%float) = false)
    by (rewrite Prim2SF_60; reflexivity).
  pose proof val_60 as V60. unfold val in V60, Hn, HB.
  destruct (of_Z_value k ltac:(lia)) as (Fk & Vk & _).
  destruct (of_Z_value (k + 1) ltac:(lia)) as (FK & VK & _).
  unfold val, finite in Vk, VK, Fk, FK.
  set (R := SFdiv prec emax (Prim2SF s) (Prim2SF 60%float)).
  assert (Hup : nonneg R /\ Zval R <= (k + 1) * 2 ^ 1074).
  { rewrite <- VK. apply SFdiv_upper; trivial; try apply Prim2SF_valid.
    rewrite VK, V60. set (S := 2 ^ 1074) in *. clearbody S. nia. }
  destruct Hup as [NR Hup].
  assert (Hlo : k * 2 ^ 1074 <= Zval R).
  { rewrite <- Vk. apply SFdiv_lower; trivial; try apply Prim2SF_valid;
      [|apply NR].
    rewrite Vk, V60. set (S := 2 ^ 1074) in *. clearbody S. nia. }
  assert (Hlt : Zval R < (k + 1) * 2 ^ 1074).
  { destruct (Z.eq_dec (Zval (Prim2SF s)) 0) as [E0|N0].
    - assert (Zval R <= Zval (Prim2SF (of_Z 0))); [|cbn in *; lia].
      apply SFdiv_upper; trivial; try apply Prim2SF_valid; try reflexivity.
      rewrite E0. reflexivity.
    - assert (Hpos : 0 < Zval (Prim2SF s)) by (destruct Ns as (_ & _ & ?); lia).
      destruct (SFdiv_half (Prim2SF s) (Prim2SF 60%float) Ns N60 Hpos P60)
        as (u & e1 & Hc & E & Hhalf).
      fold R in E. rewrite V60 in Hhalf.
      assert (PE : 0 < 2 ^ (e1 + 1074))
        by (apply pow2_pos; destruct Hc as (_ & ? & _); lia).
      assert (Hfin : u * 2 ^ (e1 + 1074) < 2 ^ 2098).
      { destruct (Z.lt_ge_cases (u * 2 ^ (e1 + 1074)) (2 ^ 2098)) as [|Hge];
          trivial. exfalso.
        rewrite (pack_overflow false u e1 Hc Hge) in E.
        destruct NR as (_ & F & _). rewrite E in F. discriminate F. }
      destruct (pack_finite false u e1 Hc Hfin) as [_ VR].
      rewrite <- E in VR. cbn [cond_Zopp] in VR.
      assert (Hhalf' : (2 * u - 1) * 2 ^ (e1 + 1074) * 60
                       <= 2 * Zval (Prim2SF s)).
      { apply (Z.mul_le_mono_pos_r _ _ (2 ^ 1074)); trivial.
        set (S := 2 ^ 1074) in *. clearbody S. lia. }
      pose proof (Prim2SF_valid s) as Vs.
      destruct (Prim2SF s) as [s0|s0| |s0 ms es] eqn:Es;
        try (cbn [Zval] in Hpos; lia).
      cbn [SFsign] in Ss. subst s0.
      apply valid_finite_iff in Vs. destruct Vs as (Hms & Hes & Hnorm).
      cbn [Zval cond_Zopp] in *.
      assert (NE : u * 2 ^ (e1 + 1074) <> (k + 1) * 2 ^ 1074).
      { apply (minutes_not_rounded_up (Zpos ms) es u e1 (k + 1));
          trivial; lia. }
      lia. }
  apply Math_floor_between; try lia.
  - unfold finite. rewrite div_spec. apply NR.
  - rewrite div_spec. apply SFdiv_sign; trivial.
  - unfold val. rewrite div_spec. unfold SF64div. fold R. lia.
Qed.

(** The seconds of a count that need not be an integer: the remainder is
    exact, and its integer part is that of the count, modulo 60. *)
Lemma seconds_truncated (s : Number) (n : Z) :
  finite s = true -> SFsign (Prim2SF s) = false -> 0 <= n ->
  n * 2 ^ 1074 <= val s < (n + 1) * 2 ^ 1074 ->
  Math_floor (rem s 60%float) = of_Z (n mod 60).
Proof.
  intros Fs Ss Hn0 Hn.
  assert (Q : 0 < 2 ^ 1074) by (apply pow2_pos; lia).
  assert (Hr : 0 <= n mod 60 < 60) by dlia.
  pose proof (Prim2SF_valid s) as Vs.
  unfold rem. rewrite Prim2SF_60. unfold finite, val in *.
  destruct (Prim2SF s) as [s0|s0| |s0 ms es] eqn:Es; try discriminate Fs.
  - (* the count is zero *)
    cbn [Zval SFsign] in *. subst s0.
    assert (n = 0) by nia. subst n.
    unfold Math_floor. rewrite Es. apply Prim2SF_inj. rewrite Es. reflexivity.
  - cbn [SFsign] in Ss. subst s0. cbn [Zval cond_Zopp] in Hn.
    apply valid_finite_iff in Vs. destruct Vs as (Hms & Hes & _).
    set (c := Z.min es (-47)).
    assert (Hc : -1074 <= c <= -47) by (unfold c; lia).
    set (P := 2 ^ (- c)). set (T := 2 ^ (c + 1074)).
    assert (PP : 0 < P) by (apply pow2_pos; lia).
    assert (PT : 0 < T) by (apply pow2_pos; lia).
    assert (ES : 2 ^ 1074 = P * T).
    { unfold P, T. rewrite <- Z.pow_add_r by lia. f_equal. lia. }
    set (X := Zpos ms * 2 ^ (es - c)).
    assert (EX : Zpos ms * 2 ^ (es + 1074) = X * T).
    { unfold X, T. rewrite <- Z.mul_assoc, <- Z.pow_add_r by lia.
      do 2 f_equal. lia. }
    assert (EB : 8444249301319680 * 2 ^ (-47 - c) = P * 60).
    { change 8444249301319680 with (60 * 2 ^ 47). unfold P.
      rewrite <- Z.mul_assoc, <- Z.pow_add_r by lia.
      replace (47 + (-47 - c)) with (- c) by lia. ring. }
    rewrite EX, ES in Hn. rewrite EB.
    assert (HX : n * P <= X < (n + 1) * P).
    { split.
      - apply (Z.mul_le_mono_pos_r _ _ T); trivial. lia.
      - apply (Z.mul_lt_mono_pos_r T); trivial. lia. }
    assert (Eq : X / P = n).
    { symmetry. apply (Z.div_unique_pos _ _ _ (X - n * P)); lia. }
    assert (Er : X mod (P * 60) = X mod P + P * (n mod 60)).
    { rewrite Z.rem_mul_r, Eq by lia. reflexivity. }
    pose proof (Z.mod_pos_bound X P PP) as HXP.
    set (r := X mod (P * 60)) in *.
    assert (Hr53 : 0 <= r < 2 ^ 53).
    { split; [nia|].
      destruct (Z.le_gt_cases es (-47)) as [Hle|Hgt].
      - assert (c = es) by (unfold c; lia).
        assert (X = Zpos ms).
        { unfold X. replace (es - c) with 0 by lia. change (2 ^ 0) with 1. lia. }
        pose proof (Z.mod_le X (P * 60) ltac:(nia) ltac:(nia)). fold r in H1. lia.
      - assert (c = -47) by (unfold c; lia).
        assert (P = 2 ^ 47) by (unfold P; rewrite H; reflexivity).
        assert (r < 60 * P) by nia.
        assert (60 * 2 ^ 47 < 2 ^ 53) by reflexivity. lia. }
    assert (Hbound : (n mod 60) * (P * T) <= r * T < (n mod 60 + 1) * (P * T)).
    { rewrite Er. split.
      - rewrite Z.mul_assoc. apply Z.mul_le_mono_nonneg_r; lia.
      - rewrite Z.mul_assoc. apply Z.mul_lt_mono_pos_r; trivial. nia. }
    assert (Hfit : r * 2 ^ (c + 1074) < 2 ^ 2098).
    { fold T. assert (T <= 2 ^ (-47 + 1074)) by (apply Z.pow_le_mono_r; lia).
      change (2 ^ 2098) with (2 ^ 53 * 2 ^ 2045).
      assert (2 ^ (-47 + 1074) < 2 ^ 2045) by reflexivity.
      set (U := 2 ^ (-47 + 1074)) in *. set (W := 2 ^ 2045) in *.
      clearbody U W. nia. }
    destruct (binary_normalize_representable r c ltac:(lia) Hr53 Hfit)
      as (Nw & Vw & Sw).
    fold T in Vw.
    destruct (Z.eqb_spec r 0) as [E0|E0].
    + assert (n mod 60 = 0) by nia.
      replace (n mod 60) with 0. reflexivity.
    + cbn [cond_Zopp].
      set (w := binary_normalize prec emax r c false) in *.
      assert (Pw : Prim2SF (SF2Prim w) = w)
        by (apply Prim2SF_SF2Prim; apply Nw).
      apply Math_floor_between; try lia.
      * unfold finite. rewrite Pw. apply Nw.
      * now rewrite Pw.
      * unfold val. rewrite Pw, Vw, ES. exact Hbound.
Qed.

Lemma digits_aux_step (fuel : nat) (radix n : Z) (acc : string) :
  radix <= n ->
  digits_aux (S fuel) radix n acc
  = digits_aux fuel radix (n / radix) (String (digit_char (n mod radix)) acc).
Proof.
  intros Hn. cbn [digits_aux]. now rewrite (proj2 (Z.ltb_ge n radix)) by lia.
Qed.

Lemma digits_aux_stop (fuel : nat) (radix n : Z) (acc : string) :
  n < radix ->
  digits_aux (S fuel) radix n acc = String (digit_char (n mod radix)) acc.
Proof.
  intros Hn. cbn [digits_aux]. now rewrite (proj2 (Z.ltb_lt n radix)) by lia.
Qed.

(** A number below 60 on two digits. *)
Definition two_digits (n : Z) : string :=
  String (digit_char (n / 10)) (String (digit_char (n mod 10)) EmptyString).

Lemma padStart_seconds (n : Z) :
  0 <= n < 60 -> padStart 2 "0" (digits 10 n) = two_digits n.
Proof.
  intros Hn. unfold digits, two_digits.
  destruct (Z.lt_ge_cases n 10) as [Hlt|Hge].
  - rewrite digits_aux_stop by lia.
    replace (n / 10) with 0 by dlia. reflexivity.
  - assert (1 <= Z.log2 n).
    { apply Z.log2_le_pow2; [lia|]. change (2 ^ 1) with 2. lia. }
    destruct (Z.to_nat (Z.log2 n)) as [|fuel] eqn:E; [lia|].
    rewrite digits_aux_step by lia.
    rewrite digits_aux_stop by dlia.
    replace (n / 10 mod 10) with (n / 10) by dlia. reflexivity.
Qed.

(** What the specification says of [formatTime]: both components are
    truncated toward zero.  [seconds] is the count with its fraction
    dropped: truncating the quotient by 60 and the remainder of a count
    gives the quotient and the remainder of its integer part. *)
Definition formatTime_truncating (seconds : Z) : string :=
  (integer_toString 10 (Z.quot seconds 60) ++ ":" ++
   padStart 2 "0" (integer_toString 10 (Z.rem seconds 60)))%string.

(** The integer part of a finite Number that is not negative. *)
Lemma truncate_floor (s : Number) :
  finite s = true -> SFsign (Prim2SF s) = false ->
  0 <= truncate s /\
  truncate s * 2 ^ 1074 <= val s < (truncate s + 1) * 2 ^ 1074.
Proof.
  intros Fs Ss. pose proof (Prim2SF_valid s) as Vs.
  assert (Q : 0 < 2 ^ 1074) by (apply pow2_pos; lia).
  unfold truncate, finite, val in *.
  destruct (Prim2SF s) as [s0|s0| |s0 m e]; try discriminate Fs.
  - cbn [Zval]. lia.
  - cbn [SFsign] in Ss. subst s0. cbn [Zval cond_Zopp].
    apply valid_finite_iff in Vs. destruct Vs as (_ & He & _).
    destruct (Z.leb_spec 0 e) as [H0|H0].
    + rewrite Z.pow_add_r, Z.mul_assoc by lia.
      assert (0 < 2 ^ e) by (apply pow2_pos; lia).
      set (S := 2 ^ 1074) in *. clearbody S. nia.
    + rewrite Z.shiftr_div_pow2 by lia.
      assert (P : 0 < 2 ^ (- e)) by (apply pow2_pos; lia).
      assert (P' : 0 < 2 ^ (e + 1074)) by (apply pow2_pos; lia).
      assert (EQ : 2 ^ 1074 = 2 ^ (- e) * 2 ^ (e + 1074))
        by (rewrite <- Z.pow_add_r by lia; f_equal; lia).
      rewrite EQ.
      pose proof (Z.div_mod (Zpos m) (2 ^ (- e)) ltac:(lia)) as Hd.
      pose proof (Z.mod_pos_bound (Zpos m) (2 ^ (- e)) P) as Hm.
      assert (0 <= Zpos m / 2 ^ (- e)) by (apply Z.div_pos; lia).
      set (q := Zpos m / 2 ^ (- e)) in *. set (A := 2 ^ (- e)) in *.
      set (T := 2 ^ (e + 1074)) in *. clearbody q A T.
      split; [lia|]. split.
      * rewrite Z.mul_assoc. apply Z.mul_le_mono_nonneg_r; lia.
      * rewrite Z.mul_assoc. apply Z.mul_lt_mono_pos_r; lia.
Qed.

(** A count from 0 to a finite bound is finite; it has the positive sign
    unless it is [-0]. *)
Lemma count_cases (s b : Number) :
  finite b = true ->
  (0 <=? s)%float = true -> (s <? b)%float = true ->
  finite s = true /\ 0 <= val s < val b /\
  (SFsign (Prim2SF s) = false \/ s = neg_zero).
Proof.
  intros Fb H0 H1.
  assert (Fs : finite s = true).
  { unfold finite in *. rewrite leb_spec in H0. rewrite ltb_spec in H1.
    change (Prim2SF 0) with (S754_zero false) in H0.
    destruct (Prim2SF s) as [s0|[]| |s0 m e]; try reflexivity;
      try discriminate H0.
    destruct (Prim2SF b) as [sb|sb| |sb mb eb]; try discriminate Fb;
      discriminate H1. }
  rewrite leb_val in H0 by (trivial; reflexivity).
  rewrite ltb_val in H1 by trivial.
  apply Z.leb_le in H0. apply Z.ltb_lt in H1.
  change (val 0%float) with 0 in H0.
  split; [exact Fs|]. split; [lia|].
  pose proof (Prim2SF_valid s) as Vs. unfold finite, val in *.
  destruct (Prim2SF s) as [[]|s0| |[] m e] eqn:Es; try discriminate Fs;
    try (now left).
  - right. apply Prim2SF_inj. rewrite Es. reflexivity.
  - exfalso. cbn [Zval cond_Zopp] in H0.
    apply valid_finite_iff in Vs. destruct Vs as (_ & He & _).
    assert (0 < 2 ^ (e + 1074)) by (apply pow2_pos; lia). nia.
Qed.

(** C6, as amended: for every Number of seconds from 0 up to, but not
    including, [60 * 2 ^ 50 + 56 = 67553994410557496], whether it is an
    integer or not, [formatTime] gives the digits of the minutes [t / 60],
    a colon, and the seconds [t mod 60] on two digits, where [t] is the
    count with its fraction dropped.  Both components are truncated, none
    is rounded; this is the truncating format of the specification.  In
    particular [formatTime(125)] is ["2:05"] and [formatTime(59)] is
    ["0:59"]. *)
Theorem formatTime_seconds_count (seconds : Number) :
  (0 <=? seconds)%float = true ->
  (seconds <? 67553994410557496)%float = true ->
  general.formatTime seconds
  = Some (digits 10 (truncate seconds / 60) ++ ":"
          ++ two_digits (truncate seconds mod 60))%string /\
  general.formatTime seconds = Some (formatTime_truncating (truncate seconds)) /\
  general.formatTime 125%float = Some "2:05"%string /\
  general.formatTime 59%float = Some "0:59"%string.
Proof.
  intros H0 H1.
  assert (T : forall n, 0 <= n ->
            Some (digits 10 (n / 60) ++ ":" ++ two_digits (n mod 60))%string
            = Some (formatTime_truncating n)).
  { intros n Hn. unfold formatTime_truncating, integer_toString.
    assert (Hk : 0 <= n / 60) by (apply Z.div_pos; lia).
    assert (Hr : 0 <= n mod 60 < 60) by dlia.
    rewrite Z.quot_div_nonneg, Z.rem_mod_nonneg by lia.
    rewrite !(proj2 (Z.ltb_ge _ 0)) by lia.
    now rewrite padStart_seconds. }
  assert (E : general.formatTime seconds
              = Some (digits 10 (truncate seconds / 60) ++ ":"
                      ++ two_digits (truncate seconds mod 60))%string).
  { destruct (count_cases seconds 67553994410557496%float eq_refl H0 H1)
      as (Fs & Hv & [Ss| ->]); [|reflexivity].
    destruct (truncate_floor seconds Fs Ss) as (Hn0 & Hn).
    set (n := truncate seconds) in *.
    assert (VB : val 67553994410557496%float = 67553994410557496 * 2 ^ 1074)
      by (vm_compute; reflexivity).
    rewrite VB in Hv.
    assert (Q : 0 < 2 ^ 1074) by (apply pow2_pos; lia).
    assert (Hn' : n < 67553994410557496).
    { set (S := 2 ^ 1074) in *. clearbody S. nia. }
    assert (Hk : 0 <= n / 60 < 2 ^ 53) by dlia.
    assert (Hr : 0 <= n mod 60 < 60) by dlia.
    unfold general.formatTime.
    rewrite (minutes_truncated seconds n Fs Ss Hn0 Hn ltac:(lia)).
    rewrite (seconds_truncated seconds n Fs Ss Hn0 Hn).
    rewrite !Number_toString_of_Z by lia.
    unfold integer_toString.
    rewrite !(proj2 (Z.ltb_ge _ 0)) by lia.
    now rewrite padStart_seconds. }
  split; [exact E|]. split.
  - rewrite E. apply T.
    destruct (count_cases seconds 67553994410557496%float eq_refl H0 H1)
      as (Fs & Hv & [Ss| ->]); [|vm_compute; discriminate].
    apply (truncate_floor seconds Fs Ss).
  - split; vm_compute; reflexivity.
Qed.

Lemma formatTime_seconds_count_witness :
  general.formatTime 3725.75%float
  = Some (formatTime_truncating (truncate 3725.75%float)).
Proof.
  apply (formatTime_seconds_count 3725.75%float); reflexivity.
Defined.

(** C6 (fails on the code as stated): on [-61] the truncating format is
    ["-1:-1"], but [formatTime(-61)] is ["-2:-1"]: [Math.floor] rounds the
    minutes down, away from zero. *)
Lemma formatTime_negative_not_truncated :
  general.formatTime (of_Z (-61)) = Some "-2:-1"%string /\
  formatTime_truncating (-61) = "-1:-1"%string /\
  general.formatTime (of_Z (-61)) <> Some (formatTime_truncating (-61)).
Proof. vm_compute. repeat split. discriminate. Qed.

(** C6 (fails on the code as stated, on large counts too): from
    [67553994410557496] seconds on the minutes are not truncated any more:
    the quotient by 60 is itself rounded, here up to the next integer. *)
Example formatTime_huge_not_truncated :
  general.formatTime 67553994410557496%float
  = Some "1125899906842625:56"%string /\
  truncate 67553994410557496%float = 67553994410557496 /\
  formatTime_truncating 67553994410557496 = "1125899906842624:56"%string.
Proof. vm_compute. repeat split. Qed.

(** Fractions of a second are dropped, not rounded. *)
Example formatTime_fraction :
  general.formatTime 125.9%float = Some "2:05"%string /\
  general.formatTime 59.99%float = Some "0:59"%string /\
  general.formatTime 119.5%float = Some "1:59"%string.
Proof. vm_compute. repeat split. Qed.

(** What is no count of seconds is formatted too, as the template
    prints Numbers: a large minute count by the shortest digits that read
    back as it, NaN and the infinities by their names. *)
Example formatTime_other_numbers :
  general.formatTime 69175290276410818560%float
  = Some "1152921504606847000:00"%string /\
  general.formatTime nan = Some "NaN:NaN"%string /\
  general.formatTime infinity = Some "Infinity:NaN"%string.
Proof. vm_compute. repeat split. Qed.

End FormatTime.

(** ** Ray and sphere *)

Section RaySphere.

Local Open Scope float_scope.

(** The example of the specification: a ray from outside hits the unit
    sphere at distance 4. *)
Example raySphere_from_outside :
  collision.raySphere {| x := 0; y := 0; z := -5 |} {| x := 0; y := 0; z := 1 |}
      {| x := 0; y := 0; z := 0 |} 1
  = Some {| collision.hit := true; collision.distance := 4;
            collision.point := {| x := 0; y := 0; z := -1 |} |}.
Proof. vm_compute. reflexivity. Qed.

(** An origin inside the sphere and a direction of ordinary size: the near
    root is negative and there is no hit. *)
Example raySphere_from_inside :
  collision.raySphere {| x := 0.5; y := 0; z := 0 |} {| x := -1; y := 0; z := 0 |}
      {| x := 0; y := 0; z := 0 |} 1 = None.
Proof. vm_compute. reflexivity. Qed.

(** C1 (fails on the code): the origin [(0.5, 0, 0)] is strictly inside the
    unit sphere around [(0, 0, 0)] and the direction [(-1e-200, 0, 0)] is
    not zero, yet [raySphere] reports a hit, at distance [Infinity].  The
    squares [a] and [b * b] underflow to 0, so the discriminant is 0 and
    the near root is [1e-200 / 0]. *)
Theorem raySphere_inside_tiny_direction_hits :
  let origin := {| x := 0.5; y := 0; z := 0 |} in
  let direction := {| x := -1e-200; y := 0; z := 0 |} in
  let center := {| x := 0; y := 0; z := 0 |} in
  (math.distance3D origin center <? 1) = true /\
  (x direction =? 0) = false /\
  vector.dot direction direction = 0 /\
  collision.raySphere origin direction center 1
  = Some {| collision.hit := true; collision.distance := infinity;
            collision.point := {| x := neg_infinity; y := nan; z := nan |} |}.
Proof. vm_compute. repeat split; reflexivity. Qed.

End RaySphere.

(** ** Angles *)

Section Angles.

Local Open Scope float_scope.

Lemma while_stuck (cond : Number -> bool) (body : Number -> Number) (v : Number) :
  cond v = true -> body v = v -> forall fuel, while fuel cond body v = None.
Proof.
  intros Hc Hb fuel. induction fuel as [|fuel IH]; cbn [while].
  - reflexivity.
  - now rewrite Hc, Hb.
Qed.

(** Angles of ordinary size are brought into [[0, 2π)] in a few steps. *)
Example normalizeAngle_small :
  math.normalizeAngle 3 (-1) = Some 5.2831853071795862 /\
  math.normalizeAngle 3 7 = Some 0.71681469282041377 /\
  math.normalizeAngle 3 2 = Some 2.
Proof. vm_compute. repeat split; reflexivity. Qed.

(** C4 (fails on the code): [normalizeAngle(-1e300)] and
    [normalizeAngle(1e300)] never return.  Adding [2π] to [-1e300] gives
    [-1e300] again (the sum rounds back to it), so the first loop makes no
    progress; the same holds for the second loop at [1e300].  No amount of
    fuel yields a result. *)
Theorem normalizeAngle_huge_diverges :
  (-1e300 + Math_PI * 2 = -1e300) /\
  (forall fuel, math.normalizeAngle fuel (-1e300) = None) /\
  (forall fuel, math.normalizeAngle fuel 1e300 = None).
Proof.
  split; [vm_compute; reflexivity|]. split; intros fuel; unfold math.normalizeAngle.
  - rewrite while_stuck; trivial; vm_compute; reflexivity.
  - destruct fuel as [|fuel]; [reflexivity|].
    cbn [while]. replace (1e300 <? 0) with false by (vm_compute; reflexivity).
    rewrite while_stuck; trivial; vm_compute; reflexivity.
Qed.

End Angles.

(** ** Vectors *)

Section Vectors.

Local Open Scope float_scope.

Example normalize_3_4_0 :
  vector.normalize {| x := 3; y := 4; z := 0 |}
  = {| x := 0.6; y := 0.8; z := 0 |} /\
  vector.normalize {| x := 0; y := 0; z := 0 |} = {| x := 0; y := 0; z := 0 |}.
Proof. vm_compute. split; reflexivity. Qed.

(** C5 (fails on the code): the vector [(1e200, 0, 0)] has a length that is
    not zero (its square overflows and the length is [Infinity]), and
    [normalize] returns the zero vector, of length 0 and not 1.  For
    [(1e-160, 0, 0)] the square is subnormal: the length is finite and not
    zero, and the result has length 1.0000055..., outside the tolerance
    1e-9. *)
Theorem normalize_not_unit_length :
  let big := {| x := 1e200; y := 0; z := 0 |} in
  let small := {| x := 1e-160; y := 0; z := 0 |} in
  (vector.length big =? 0) = false /\
  vector.normalize big = {| x := 0; y := 0; z := 0 |} /\
  vector.length (vector.normalize big) = 0 /\
  (vector.length small =? 0) = false /\
  is_finite (vector.length small) = true /\
  vector.length (vector.normalize small) = 1.0000055664551362 /\
  math.approximately (vector.length (vector.normalize small)) 1 1e-9 = false.
Proof. vm_compute. repeat split; reflexivity. Qed.

End Vectors.

(** ** Colors: the failure path of [lerpColor] *)

Section LerpColor.

(** C7: when [hexToRgb] returns [null] for either endpoint, [lerpColor]
    returns its first argument as it is, whatever the factor. *)
Theorem lerpColor_unparsed (color1 color2 : string) (factor : Number) :
  color.hexToRgb color1 = None \/ color.hexToRgb color2 = None ->
  color.lerpColor color1 color2 factor = Some color1.
Proof.
  unfold color.lerpColor. intros [H|H]; rewrite H; trivial.
  now destruct (color.hexToRgb color1).
Qed.

Lemma lerpColor_unparsed_witness :
  color.lerpColor "#ff00" "#00ff00" (0.5)%float = Some "#ff00"%string.
Proof. apply lerpColor_unparsed. left. reflexivity. Defined.

Example lerpColor_midpoint :
  color.lerpColor "#ff0000" "#00ff00" (0.5)%float = Some "#808000"%string.
Proof. vm_compute. reflexivity. Qed.

End LerpColor.

(** ** World bounds *)

Section Bounds.

Local Open Scope float_scope.

Definition present := Some constants.GAME_CONSTANTS.

(** With the table of [constants.js] the half size of the world is 100. *)
Lemma halfSize_100 :
  or_default (constants.world_size constants.GAME_CONSTANTS) 200 / 2 = 100.
Proof. vm_compute. reflexivity. Qed.



(** The composition holds for every table whose half size [h] satisfies
    [-h <= h]. *)
Lemma isInBounds_clampToBounds_table (t : constants.Table) (position : Vector3) :
  let halfSize := or_default (constants.world_size t) 200 / 2 in
  (- halfSize <=? halfSize) = true ->
  is_nan (x position) = false -> is_nan (z position) = false ->
  game.isInBounds (Some t) (game.clampToBounds (Some t) position) = true.
Proof.
  intros halfSize Hh Hx Hz. unfold game.isInBounds, game.clampToBounds.
  fold halfSize. cbn [x z].
  destruct (clamp_in_range (x position) (- halfSize) halfSize Hx Hh) as [-> ->].
  destruct (clamp_in_range (z position) (- halfSize) halfSize Hz Hh) as [-> ->].
  reflexivity.
Qed.

(** C9: with the table of [constants.js] present, a position whose [x] and
    [z] are numbers is in bounds after clamping. *)
Theorem isInBounds_clampToBounds (position : Vector3) :
  is_nan (x position) = false -> is_nan (z position) = false ->
  game.isInBounds present (game.clampToBounds present position) = true.
Proof.
  intros Hx Hz. apply isInBounds_clampToBounds_table; trivial.
Qed.

Lemma isInBounds_clampToBounds_witness :
  game.isInBounds present
    (game.clampToBounds present {| x := 150; y := 7; z := -300 |}) = true.
Proof. apply isInBounds_clampToBounds; reflexivity. Defined.

End Bounds.

(** ** Damage falloff: the three ranges *)

Section DamageRanges.

Local Open Scope float_scope.

(** With the table of [constants.js], which has neither [MAX_RANGE] nor
    [FALLOFF_START], the defaults apply. *)
Lemma damage_defaults :
  or_default (constants.weapons_max_range constants.GAME_CONSTANTS) 100 = 100 /\
  or_default (constants.weapons_falloff_start constants.GAME_CONSTANTS) 50 = 50.
Proof. split; reflexivity. Qed.

(** A distance of at least 100 is not at most 50. *)
Lemma far_not_near (distance : Number) :
  (100 <=? distance) = true -> (distance <=? 50) = false.
Proof.
  rewrite !leb_spec. unfold SFleb.
  replace (Prim2SF 100) with (S754_finite false 7036874417766400 (-46))
    by (vm_compute; reflexivity).
  replace (Prim2SF 50) with (S754_finite false 7036874417766400 (-47))
    by (vm_compute; reflexivity).
  destruct (Prim2SF distance) as [s|s| |s m e]; cbn [SFcompare];
    try congruence.
  - now destruct s.
  - destruct s; [discriminate|].
    destruct (Z.compare_spec (-46) e), (Z.compare_spec e (-47));
      try congruence; lia.
Qed.

(** C2: without the table [calculateDamage] returns the base damage.  With
    the table of [constants.js] (falloff start 50, maximal range 100) it
    returns the base damage up to distance 50, 0 from distance 100 on, and
    otherwise [Math.round(base * (1 - (distance - 50) / 50))]; in
    particular [calculateDamage(100, 10) = 100],
    [calculateDamage(100, 100) = 0] and [calculateDamage(100, 75) = 50]. *)
Theorem calculateDamage_ranges (baseDamage distance : Number) :
  game.calculateDamage None baseDamage distance = baseDamage /\
  ((distance <=? 50) = true ->
     game.calculateDamage present baseDamage distance = baseDamage) /\
  ((100 <=? distance) = true ->
     game.calculateDamage present baseDamage distance = 0) /\
  ((distance <=? 50) = false -> (100 <=? distance) = false ->
     game.calculateDamage present baseDamage distance
     = Math_round (baseDamage * (1 - (distance - 50) / 50))) /\
  game.calculateDamage present 100 10 = 100 /\
  game.calculateDamage present 100 100 = 0 /\
  game.calculateDamage present 100 75 = 50.
Proof.
  assert (E : game.calculateDamage present baseDamage distance
              = if distance <=? 50 then baseDamage
                else if 100 <=? distance then 0
                else Math_round (baseDamage * (1 - (distance - 50) / (100 - 50))))
    by reflexivity.
  split; [reflexivity|].
  split; [intros H; now rewrite E, H|].
  split; [intros H; now rewrite E, (far_not_near _ H), H|].
  split; [intros H1 H2; rewrite E, H1, H2; reflexivity|].
  repeat split; vm_compute; reflexivity.
Qed.

Lemma calculateDamage_ranges_witness :
  game.calculateDamage present 100 120 = 0%float.
Proof.
  exact (proj1 (proj2 (proj2 (calculateDamage_ranges 100 120))) eq_refl).
Defined.

End DamageRanges.

(** ** Damage falloff: the bound *)

Section DamageBound.

Local Open Scope Z_scope.

(** The integer nearest to [v / 2 ^ 1074], a tie going up. *)
Definition nearest (v : Z) : Z := (2 * v + 2 ^ 1074) / 2 ^ 1075.

Lemma nearest_mono (u v : Z) : u <= v -> nearest u <= nearest v.
Proof. intros H. apply Z.div_le_mono; [reflexivity|lia]. Qed.

Lemma nearest_integer (n : Z) : nearest (n * 2 ^ 1074) = n.
Proof.
  unfold nearest. change (2 ^ 1075) with (2 * 2 ^ 1074).
  replace (2 * (n * 2 ^ 1074) + 2 ^ 1074) with ((2 * n + 1) * 2 ^ 1074) by ring.
  rewrite Z.div_mul_cancel_r by (try apply Z.pow_nonzero; lia). dlia.
Qed.

(** [Math.round] on a finite Number that is not negative. *)
Lemma Math_round_value (v : Number) :
  finite v = true -> 0 <= val v ->
  finite (Math_round v) = true /\
  val (Math_round v) = nearest (val v) * 2 ^ 1074.
Proof.
  intros F H0. unfold Math_round.
  assert (Q : 0 < 2 ^ 1074) by (apply pow2_pos; lia).
  pose proof (finite_nonneg v F H0) as Nv.
  pose proof (Prim2SF_valid v) as Hvalid.
  unfold finite, val in *.
  destruct (Prim2SF v) as [s|s| |s m e] eqn:E; try discriminate.
  - rewrite E. split; trivial.
  - pose proof (nonneg_finite_sign _ _ _ Nv). subst s.
    apply valid_finite_iff in Hvalid. destruct Hvalid as (Hm & He & _).
    cbn [Zval cond_Zopp] in *.
    destruct (Z.leb_spec 0 e) as [He0|He0].
    + rewrite E. split; trivial. cbn [Zval cond_Zopp].
      rewrite (Z.pow_add_r 2 e 1074), Z.mul_assoc by lia.
      now rewrite nearest_integer.
    + assert (P : 0 < 2 ^ (- e)) by (apply pow2_pos; lia).
      assert (T : 0 < 2 ^ (e + 1074)) by (apply pow2_pos; lia).
      assert (EQ : 2 ^ 1074 = 2 ^ (- e) * 2 ^ (e + 1074))
        by (rewrite <- Z.pow_add_r by lia; f_equal; lia).
      rewrite Z.shiftr_div_pow2 by lia.
      replace (2 ^ (- e + 1)) with (2 * 2 ^ (- e))
        by (rewrite Z.pow_add_r by lia; change (2 ^ 1) with 2; ring).
      set (n := (2 * Zpos m + 2 ^ (- e)) / (2 * 2 ^ (- e))).
      assert (En : nearest (Zpos m * 2 ^ (e + 1074)) = n).
      { unfold nearest, n. change (2 ^ 1075) with (2 * 2 ^ 1074).
        rewrite EQ.
        replace (2 * (Zpos m * 2 ^ (e + 1074)) + 2 ^ (- e) * 2 ^ (e + 1074))
          with ((2 * Zpos m + 2 ^ (- e)) * 2 ^ (e + 1074)) by ring.
        replace (2 * (2 ^ (- e) * 2 ^ (e + 1074)))
          with (2 * 2 ^ (- e) * 2 ^ (e + 1074)) by ring.
        apply Z.div_mul_cancel_r; lia. }
      rewrite En.
      assert (Hn : 0 <= n <= Zpos m).
      { assert (2 <= 2 ^ (- e)).
        { change 2 with (2 ^ 1) at 1. apply Z.pow_le_mono_r; lia. }
        unfold n. split; [apply Z.div_pos; lia|].
        apply Z.div_le_upper_bound; nia. }
      destruct (Z.eqb_spec n 0) as [->|Hnz].
      * split; reflexivity.
      * destruct (of_Z_value n ltac:(lia)) as (Fn & Vn & _).
        split; trivial.
Qed.

Lemma Math_round_integer (v : Number) :
  finite v = true -> 0 <= val v -> is_integer v = true ->
  val (Math_round v) = val v.
Proof.
  intros F H0 Hi. destruct (Math_round_value v F H0) as [_ ->].
  assert (Q : 0 < 2 ^ 1074) by (apply pow2_pos; lia).
  pose proof (Prim2SF_valid v) as Hvalid.
  unfold is_integer, finite, val in *.
  destruct (Prim2SF v) as [s|s| |s m e]; try discriminate.
  - reflexivity.
  - apply valid_finite_iff in Hvalid. destruct Hvalid as (Hm & He & _).
    assert (s = false).
    { destruct s; trivial. cbn [Zval cond_Zopp] in H0.
      assert (0 < 2 ^ (e + 1074)) by (apply pow2_pos; lia). nia. }
    subst s. cbn [Zval cond_Zopp] in *.
    destruct (Z.leb_spec 0 e) as [He0|He0].
    + rewrite (Z.pow_add_r 2 e 1074), Z.mul_assoc by lia.
      now rewrite nearest_integer.
    + cbn [orb] in Hi. apply Z.eqb_eq in Hi.
      assert (P : 0 < 2 ^ (- e)) by (apply pow2_pos; lia).
      pose proof (Z.div_mod (Zpos m) (2 ^ (- e)) ltac:(lia)) as Hd.
      rewrite Hi, Z.add_0_r in Hd.
      assert (EQ : Zpos m * 2 ^ (e + 1074) = Zpos m / 2 ^ (- e) * 2 ^ 1074).
      { rewrite Hd at 1.
        replace 1074 with ((- e) + (e + 1074)) at 2 by lia.
        rewrite (Z.pow_add_r 2 (- e) (e + 1074)) by lia. ring. }
      rewrite EQ. now rewrite nearest_integer.
Qed.

Lemma finite_not_nan (a : Number) : finite a = true -> is_nan a = false.
Proof.
  intros F. apply is_nan_false. unfold finite in F.
  destruct (Prim2SF a); try discriminate; congruence.
Qed.

Lemma val_constants :
  val 0%float = 0 /\ val 1%float = 2 ^ 1074 /\
  val 50%float = 50 * 2 ^ 1074 /\ val 100%float = 100 * 2 ^ 1074 /\
  val (100 - 50)%float = 50 * 2 ^ 1074.
Proof. vm_compute. repeat split. Qed.

(** A distance that is a number, above 50 and below 100. *)
Lemma middle_distance (distance : Number) :
  is_nan distance = false ->
  (distance <=? 50)%float = false -> (100 <=? distance)%float = false ->
  finite distance = true /\ 50 * 2 ^ 1074 < val distance < 100 * 2 ^ 1074.
Proof.
  intros Hn H50 H100.
  destruct val_constants as (_ & _ & V50 & V100 & _).
  assert (F : finite distance = true).
  { apply is_nan_false in Hn. rewrite leb_spec in H50, H100.
    unfold finite. destruct (Prim2SF distance) as [s|[]| |s m e];
      try reflexivity; try congruence; discriminate. }
  split; trivial.
  rewrite leb_val in H50, H100 by (trivial; reflexivity).
  rewrite V50 in H50. rewrite V100 in H100.
  apply Z.leb_gt in H50, H100. lia.
Qed.

(** The falloff factor lies between 0 and 1, and the damage before
    rounding between 0 and the base damage. *)
Lemma falloff_product (baseDamage distance : Number) :
  finite baseDamage = true -> 0 <= val baseDamage ->
  finite distance = true -> 50 * 2 ^ 1074 < val distance < 100 * 2 ^ 1074 ->
  let p := (baseDamage * (1 - (distance - 50) / (100 - 50)))%float in
  finite p = true /\ 0 <= val p <= val baseDamage.
Proof.
  intros Fb Hb Fd Hd p.
  destruct val_constants as (_ & V1 & V50 & V100 & V50').
  assert (Q : 0 < 2 ^ 1074) by (apply pow2_pos; lia).
  assert (N50 : nonneg (Prim2SF 50%float)).
  { apply finite_nonneg; [reflexivity|]. fold (val 50%float). lia. }
  assert (N50' : nonneg (Prim2SF (100 - 50)%float)).
  { apply finite_nonneg; [reflexivity|]. fold (val (100 - 50)%float). lia. }
  assert (N1 : nonneg (Prim2SF 1%float)).
  { apply finite_nonneg; [reflexivity|]. fold (val 1%float). lia. }
  assert (Nd : nonneg (Prim2SF distance)) by (apply finite_nonneg; trivial; lia).
  assert (Nb : nonneg (Prim2SF baseDamage)) by (apply finite_nonneg; trivial).
  unfold val in *.
  (* distance - 50 lies in [0, 50] *)
  destruct (SFsub_bounds (Prim2SF distance) (Prim2SF 50%float) Nd N50 ltac:(lia))
    as (Nx1 & Ux1 & _).
  specialize (Ux1 (Prim2SF 50%float) (proj1 N50) (proj1 (proj2 N50)) ltac:(lia)).
  (* the quotient lies in [0, 1] *)
  destruct (SFdiv_upper _ (Prim2SF (100 - 50)%float) (Prim2SF 1%float)
              Nx1 N50' ltac:(lia) (proj1 N1) (proj1 (proj2 N1))) as (Nx2 & Ux2).
  { rewrite V1, V50'. rewrite V50 in Ux1. nia. }
  (* the factor lies in [0, 1] *)
  destruct (SFsub_bounds (Prim2SF 1%float) _ N1 Nx2 Ux2) as (Nf & Uf & _).
  specialize (Uf (Prim2SF 1%float) (proj1 N1) (proj1 (proj2 N1))).
  assert (Hf : Zval (SFsub prec emax (Prim2SF 1%float)
                 (SFdiv prec emax (SFsub prec emax (Prim2SF distance) (Prim2SF 50%float))
                    (Prim2SF (100 - 50)%float))) <= Zval (Prim2SF 1%float)).
  { apply Uf. destruct Nx2 as (_ & _ & ?). lia. }
  (* the product lies in [0, base] *)
  destruct (SFmul_upper (Prim2SF baseDamage) _ (Prim2SF baseDamage) Nb Nf
              (proj1 Nb) (proj1 (proj2 Nb))) as (Np & Up).
  { rewrite V1 in Hf. destruct Nf as (_ & _ & ?). nia. }
  unfold p, finite. rewrite mul_spec, sub_spec, div_spec, sub_spec.
  destruct Np as (_ & Fp & Hp0). repeat split; trivial.
Qed.

(** C10, as amended: for a finite base damage that is not negative and a
    distance that is a number, the damage is at least 0 and at most the
    larger of the base damage and [Math.round] of it; for a base damage
    that is an integer it lies in [[0, baseDamage]]. *)
Theorem calculateDamage_bounded (baseDamage distance : Number) :
  is_finite baseDamage = true -> (0 <=? baseDamage)%float = true ->
  is_nan distance = false ->
  let damage := game.calculateDamage present baseDamage distance in
  (0 <=? damage)%float = true /\
  (damage <=? Math_max baseDamage (Math_round baseDamage))%float = true /\
  (is_integer baseDamage = true -> (damage <=? baseDamage)%float = true).
Proof.
  intros Fb Hb Hn damage. rewrite is_finite_spec in Fb.
  destruct val_constants as (V0 & _).
  assert (F0 : finite 0%float = true) by reflexivity.
  assert (Hb0 : 0 <= val baseDamage).
  { rewrite leb_val, V0 in Hb by trivial. now apply Z.leb_le. }
  destruct (Math_round_value baseDamage Fb Hb0) as [Fr Vr].
  assert (Q : 0 < 2 ^ 1074) by (apply pow2_pos; lia).
  assert (Hr0 : 0 <= val (Math_round baseDamage)).
  { rewrite Vr. apply Z.mul_nonneg_nonneg; [|lia].
    unfold nearest. apply Z.div_pos; [lia|reflexivity]. }
  (* the larger of the base damage and its rounding *)
  assert (Hmax : finite (Math_max baseDamage (Math_round baseDamage)) = true /\
                 val baseDamage <= val (Math_max baseDamage (Math_round baseDamage)) /\
                 val (Math_round baseDamage)
                 <= val (Math_max baseDamage (Math_round baseDamage))).
  { assert (Nb : is_nan baseDamage = false) by now apply finite_not_nan.
    assert (Nr : is_nan (Math_round baseDamage) = false)
      by now apply finite_not_nan.
    destruct (Math_max_cases _ _ Nb Nr) as [[-> H]|[-> H]];
      rewrite leb_val in H by trivial; apply Z.leb_le in H; repeat split; trivial; lia. }
  destruct Hmax as (Fm & Hm1 & Hm2).
  assert (E : damage
              = if (distance <=? 50)%float then baseDamage
                else if (100 <=? distance)%float then 0%float
                else Math_round (baseDamage * (1 - (distance - 50) / (100 - 50)))%float)
    by reflexivity.
  rewrite E. clear E damage.
  destruct (distance <=? 50)%float eqn:H50.
  - rewrite !leb_val by trivial. rewrite V0.
    repeat split; try intros _; apply Z.leb_le; lia.
  - destruct (100 <=? distance)%float eqn:H100.
    + rewrite !leb_val by trivial. rewrite V0.
      repeat split; try intros _; apply Z.leb_le; lia.
    + destruct (middle_distance distance Hn H50 H100) as [Fd Hd].
      destruct (falloff_product baseDamage distance Fb Hb0 Fd Hd) as (Fp & Hp0 & Hp).
      set (p := (baseDamage * (1 - (distance - 50) / (100 - 50)))%float) in *.
      destruct (Math_round_value p Fp Hp0) as [Frp Vrp].
      pose proof (nearest_mono _ _ Hp) as Hmono.
      assert (0 <= nearest (val p)).
      { unfold nearest. apply Z.div_pos; [lia|reflexivity]. }
      rewrite !leb_val by trivial. rewrite V0, Vrp.
      repeat split; try intros Hi; apply Z.leb_le; try nia.
      rewrite <- (Math_round_integer baseDamage Fb Hb0 Hi), Vr. nia.
Qed.

Lemma calculateDamage_bounded_witness :
  ((0 <=? game.calculateDamage present 25 80) = true /\
   (game.calculateDamage present 25 80 <=? Math_max 25 (Math_round 25)) = true /\
   (is_integer 25 = true -> (game.calculateDamage present 25 80 <=? 25) = true))%float.
Proof. apply (calculateDamage_bounded 25%float 80%float); reflexivity. Defined.

(** C10 (fails on the code as stated): the base damage 0.75 is a real
    number that is not negative and the distance 60 is a number, but
    [calculateDamage(0.75, 60)] is 1, above the base damage: the product
    0.6 is rounded to the nearest integer. *)
Lemma calculateDamage_exceeds_base :
  (is_finite 0.75 = true /\ (0 <=? 0.75) = true /\ is_nan 60 = false /\
   game.calculateDamage present 0.75 60 = 1 /\
   (game.calculateDamage present 0.75 60 <=? 0.75) = false)%float.
Proof. vm_compute. repeat split. Qed.

End DamageBound.

(** ** The order of Numbers *)

Section NumberOrder.

Local Open Scope Z_scope.

(** A non-NaN Number is placed in the order by a triple compared
    lexicographically: its class, then its exponent, then its mantissa. *)
Definition rank (a : spec_float) : Z * Z * Z :=
  match a with
  | S754_infinity true => (-2, 0, 0)
  | S754_finite true m e => (-1, - e, Zneg m)
  | S754_finite false m e => (1, e, Zpos m)
  | S754_infinity false => (2, 0, 0)
  | _ => (0, 0, 0)
  end.

Definition lex3 (p q : Z * Z * Z) : comparison :=
  let '(a1, b1, c1) := p in
  let '(a2, b2, c2) := q in
  match a1 ?= a2 with
  | Eq => match b1 ?= b2 with Eq => c1 ?= c2 | o => o end
  | o => o
  end.

Lemma SFcompare_rank (a b : spec_float) :
  a <> S754_nan -> b <> S754_nan ->
  SFcompare a b = Some (lex3 (rank a) (rank b)).
Proof.
  intros Ha Hb.
  destruct a as [sa|sa| |sa ma ea], b as [sb|sb| |sb mb eb]; try congruence;
    try (destruct sa; reflexivity); try (destruct sb; reflexivity);
    try (destruct sa, sb; reflexivity).
  destruct sa, sb; try reflexivity; cbn [SFcompare rank lex3].
  change (-1 ?= -1) with Eq. rewrite (Z.compare_opp ea eb).
  rewrite (Z.compare_antisym ea eb).
  destruct (ea ?= eb); cbn [CompOpp]; trivial.
Qed.

Definition lex_le (p q : Z * Z * Z) : Prop :=
  let '(a1, b1, c1) := p in
  let '(a2, b2, c2) := q in
  a1 < a2 \/ (a1 = a2 /\ (b1 < b2 \/ (b1 = b2 /\ c1 <= c2))).

Definition lex_lt (p q : Z * Z * Z) : Prop :=
  let '(a1, b1, c1) := p in
  let '(a2, b2, c2) := q in
  a1 < a2 \/ (a1 = a2 /\ (b1 < b2 \/ (b1 = b2 /\ c1 < c2))).

Lemma lex3_spec (p q : Z * Z * Z) :
  match lex3 p q with
  | Lt => lex_lt p q
  | Eq => p = q
  | Gt => lex_lt q p
  end.
Proof.
  destruct p as [[a1 b1] c1], q as [[a2 b2] c2]. unfold lex3, lex_lt.
  destruct (Z.compare_spec a1 a2); try lia.
  destruct (Z.compare_spec b1 b2); try lia.
  destruct (Z.compare_spec c1 c2); try lia. congruence.
Qed.

Lemma lex_lt_irrefl (p : Z * Z * Z) : ~ lex_lt p p.
Proof. destruct p as [[a1 b1] c1]. unfold lex_lt. lia. Qed.

Lemma lex_lt_asym (p q : Z * Z * Z) : lex_lt p q -> ~ lex_lt q p.
Proof.
  destruct p as [[a1 b1] c1], q as [[a2 b2] c2]. unfold lex_lt. lia.
Qed.

Lemma lex_le_iff (p q : Z * Z * Z) : lex_le p q <-> lex_lt p q \/ p = q.
Proof.
  destruct p as [[a1 b1] c1], q as [[a2 b2] c2]. unfold lex_lt, lex_le.
  split.
  - intros H. destruct (Z.eq_dec c1 c2) as [->|N];
      destruct (Z.eq_dec b1 b2) as [->|N'];
      destruct (Z.eq_dec a1 a2) as [->|N'']; try (left; lia). now right.
  - intros [H|H]; [lia|]. injection H as -> -> ->. lia.
Qed.

Local Open Scope float_scope.

Lemma leb_rank (a b : Number) :
  (a <=? b) = true <->
  is_nan a = false /\ is_nan b = false /\
  lex_le (rank (Prim2SF a)) (rank (Prim2SF b)).
Proof.
  split.
  - intros H. destruct (leb_not_nan _ _ H) as [Ha Hb].
    repeat split; trivial. revert H.
    rewrite leb_spec. unfold SFleb.
    rewrite SFcompare_rank by now apply is_nan_false.
    pose proof (lex3_spec (rank (Prim2SF a)) (rank (Prim2SF b))) as S.
    rewrite lex_le_iff.
    destruct (lex3 _ _); intros; try discriminate; auto.
  - intros (Ha & Hb & H). rewrite leb_spec. unfold SFleb.
    rewrite SFcompare_rank by now apply is_nan_false.
    pose proof (lex3_spec (rank (Prim2SF a)) (rank (Prim2SF b))) as S.
    apply lex_le_iff in H.
    destruct (lex3 _ _); trivial. exfalso.
    destruct H as [H|H]; [now apply (lex_lt_asym _ _ H)|].
    rewrite H in S. now apply lex_lt_irrefl in S.
Qed.

Lemma ltb_rank (a b : Number) :
  (a <? b) = true <->
  is_nan a = false /\ is_nan b = false /\
  lex_lt (rank (Prim2SF a)) (rank (Prim2SF b)).
Proof.
  rewrite ltb_spec. unfold SFltb. split.
  - intros H.
    assert (Ha : is_nan a = false).
    { apply is_nan_false. intros E. rewrite E in H. discriminate. }
    assert (Hb : is_nan b = false).
    { apply is_nan_false. intros E. rewrite E in H.
      destruct (Prim2SF a); discriminate. }
    repeat split; trivial. revert H.
    rewrite SFcompare_rank by now apply is_nan_false.
    pose proof (lex3_spec (rank (Prim2SF a)) (rank (Prim2SF b))) as S.
    destruct (lex3 _ _); intros; try discriminate; auto.
  - intros (Ha & Hb & H).
    rewrite SFcompare_rank by now apply is_nan_false.
    pose proof (lex3_spec (rank (Prim2SF a)) (rank (Prim2SF b))) as S.
    destruct (lex3 _ _); trivial; exfalso.
    + rewrite S in H. now apply lex_lt_irrefl in H.
    + now apply (lex_lt_asym _ _ H).
Qed.

Lemma leb_trans (a b c : Number) :
  (a <=? b) = true -> (b <=? c) = true -> (a <=? c) = true.
Proof.
  rewrite !leb_rank. intros (Ha & Hb & H1) (_ & Hc & H2).
  repeat split; trivial.
  destruct (rank (Prim2SF a)) as [[a1 b1] c1], (rank (Prim2SF b)) as [[a2 b2] c2],
    (rank (Prim2SF c)) as [[a3 b3] c3].
  unfold lex_le in *. lia.
Qed.

Lemma leb_ltb_trans (a b c : Number) :
  (a <=? b) = true -> (b <? c) = true -> (a <? c) = true.
Proof.
  rewrite leb_rank, !ltb_rank. intros (Ha & Hb & H1) (_ & Hc & H2).
  repeat split; trivial.
  destruct (rank (Prim2SF a)) as [[a1 b1] c1], (rank (Prim2SF b)) as [[a2 b2] c2],
    (rank (Prim2SF c)) as [[a3 b3] c3].
  unfold lex_le, lex_lt in *. lia.
Qed.

Lemma ltb_leb_trans (a b c : Number) :
  (a <? b) = true -> (b <=? c) = true -> (a <? c) = true.
Proof.
  rewrite leb_rank, !ltb_rank. intros (Ha & Hb & H1) (_ & Hc & H2).
  repeat split; trivial.
  destruct (rank (Prim2SF a)) as [[a1 b1] c1], (rank (Prim2SF b)) as [[a2 b2] c2],
    (rank (Prim2SF c)) as [[a3 b3] c3].
  unfold lex_le, lex_lt in *. lia.
Qed.

Lemma ltb_irrefl (a : Number) : (a <? a) = false.
Proof.
  destruct (a <? a) eqn:E; trivial. apply ltb_rank in E.
  destruct E as (_ & _ & E). now apply lex_lt_irrefl in E.
Qed.

(** Two Numbers that compare equal are the same Number, or both zero. *)
Lemma leb_antisym (a b : Number) :
  (a <=? b) = true -> (b <=? a) = true ->
  a = b \/ (is_zero a = true /\ is_zero b = true).
Proof.
  rewrite !leb_rank. intros (Ha & Hb & H1) (_ & _ & H2).
  assert (E : rank (Prim2SF a) = rank (Prim2SF b)).
  { destruct (rank (Prim2SF a)) as [[a1 b1] c1], (rank (Prim2SF b)) as [[a2 b2] c2].
    unfold lex_le in *. f_equal; [f_equal|]; lia. }
  apply is_nan_false in Ha, Hb. unfold is_zero. rewrite !eqb_spec.
  change (Prim2SF zero) with (S754_zero false).
  destruct (Prim2SF a) as [sa|sa| |sa ma ea] eqn:Ea,
    (Prim2SF b) as [sb|sb| |sb mb eb] eqn:Eb; try congruence;
    try (right; split; reflexivity);
    try (destruct sa; discriminate); try (destruct sb; discriminate);
    try (destruct sa, sb; discriminate);
    left; apply Prim2SF_inj; rewrite Ea, Eb.
  - destruct sa, sb; try discriminate; reflexivity.
  - destruct sa, sb; try discriminate; cbn [rank] in E;
      injection E as E1 E2; f_equal; lia.
Qed.

End NumberOrder.

Section SignedZeros.

Local Open Scope float_scope.

Lemma eqb_rank (a b : Number) :
  (a =? b) = ((a <=? b) && (b <=? a)).
Proof.
  rewrite eqb_spec, !leb_spec. unfold SFeqb, SFleb.
  rewrite (SFcompare_antisym (Prim2SF a) (Prim2SF b)).
  destruct (SFcompare (Prim2SF a) (Prim2SF b)) as [[]|]; reflexivity.
Qed.

(** The sign bit of a Number that is not NaN. *)
Lemma get_sign_spec (a : Number) :
  is_nan a = false -> get_sign a = SFsign (Prim2SF a).
Proof.
  intros Ha. apply is_nan_false in Ha. unfold get_sign, is_zero.
  rewrite eqb_spec. change (Prim2SF zero) with (S754_zero false).
  destruct (Prim2SF a) as [s|s| |s m e] eqn:E; try congruence.
  - cbn. rewrite ltb_spec, div_spec, E.
    change (Prim2SF one) with (S754_finite false 4503599627370496 (-52)).
    change (Prim2SF 0) with (S754_zero false). destruct s; reflexivity.
  - replace (SFeqb (S754_infinity s) (S754_zero false)) with false
      by (destruct s; reflexivity).
    rewrite ltb_spec, E. change (Prim2SF 0) with (S754_zero false).
    destruct s; reflexivity.
  - replace (SFeqb (S754_finite s m e) (S754_zero false)) with false
      by (destruct s; reflexivity).
    rewrite ltb_spec, E. change (Prim2SF 0) with (S754_zero false).
    destruct s; reflexivity.
Qed.

Lemma is_zero_spec (a : Number) :
  is_zero a = true <-> exists s, Prim2SF a = S754_zero s.
Proof.
  unfold is_zero. rewrite eqb_spec. change (Prim2SF zero) with (S754_zero false).
  destruct (Prim2SF a) as [s|s| |s m e]; split; intros H;
    try discriminate; try (destruct s; discriminate); eauto;
    destruct H as [? H]; discriminate.
Qed.

(** Two zeros of one sign are the same Number. *)
Lemma zero_sign_eq (a b : Number) :
  is_zero a = true -> is_zero b = true -> get_sign a = get_sign b -> a = b.
Proof.
  intros Ha Hb. apply is_zero_spec in Ha, Hb.
  destruct Ha as [sa Ea], Hb as [sb Eb].
  rewrite !get_sign_spec by (apply is_nan_false; congruence).
  rewrite Ea, Eb. cbn. intros ->. apply Prim2SF_inj. congruence.
Qed.

Lemma is_nan_nan : is_nan nan = true.
Proof. reflexivity. Qed.

Lemma Math_max_nan (a b : Number) :
  is_nan (Math_max a b) = is_nan a || is_nan b.
Proof.
  destruct (is_nan a) eqn:Ha, (is_nan b) eqn:Hb; unfold Math_max;
    rewrite ?Ha, ?Hb; try reflexivity. cbn [orb].
  destruct (a <? b); trivial. destruct (b <? a); trivial.
  destruct (get_sign a); trivial.
Qed.

Lemma Math_min_nan (a b : Number) :
  is_nan (Math_min a b) = is_nan a || is_nan b.
Proof.
  destruct (is_nan a) eqn:Ha, (is_nan b) eqn:Hb; unfold Math_min;
    rewrite ?Ha, ?Hb; try reflexivity. cbn [orb].
  destruct (a <? b); trivial. destruct (b <? a); trivial.
  destruct (get_sign a); trivial.
Qed.

Lemma Math_max_refl (a : Number) : is_nan a = false -> Math_max a a = a.
Proof.
  intros Ha. unfold Math_max. rewrite Ha, ltb_irrefl. cbn [orb].
  now destruct (get_sign a).
Qed.

Lemma Math_min_refl (a : Number) : is_nan a = false -> Math_min a a = a.
Proof.
  intros Ha. unfold Math_min. rewrite Ha, ltb_irrefl. cbn [orb].
  now destruct (get_sign a).
Qed.

(** [Math.max(a, b)] is [a] when [b <= a], two zeros apart. *)
Lemma Math_max_left (a b : Number) :
  (b <=? a) = true -> is_zero a && is_zero b = false -> Math_max a b = a.
Proof.
  intros H Hz. destruct (leb_not_nan _ _ H) as [Hb Ha].
  destruct (Math_max_cases a b Ha Hb) as [[E _]|[E H']]; trivial.
  rewrite E. destruct (leb_antisym _ _ H H') as [?|[Z1 Z2]]; trivial.
  rewrite Z1, Z2 in Hz. discriminate.
Qed.

Lemma Math_min_left (a b : Number) :
  (a <=? b) = true -> is_zero a && is_zero b = false -> Math_min a b = a.
Proof.
  intros H Hz. destruct (leb_not_nan _ _ H) as [Ha Hb].
  destruct (Math_min_cases a b Ha Hb) as [[E _]|[E H']]; trivial.
  rewrite E. destruct (leb_antisym _ _ H H') as [?|[Z1 Z2]]; auto.
  rewrite Z1, Z2 in Hz. discriminate.
Qed.

(** The absorption law: [min (max a b) a = a]. *)
Lemma Math_min_max_absorb (a b : Number) :
  is_nan a = false -> is_nan b = false -> Math_min (Math_max a b) a = a.
Proof.
  intros Ha Hb.
  destruct (Math_max_cases a b Ha Hb) as [[E _]|[E H]]; rewrite E.
  - now apply Math_min_refl.
  - destruct (Math_min_cases b a Hb Ha) as [[E' H']|[E' _]]; trivial.
    rewrite E'. destruct (leb_antisym _ _ H H') as [?|[Z1 Z2]]; auto.
    apply zero_sign_eq; trivial.
    assert (L1 : (a <? b) = false) by now apply leb_not_ltb.
    assert (L2 : (b <? a) = false) by now apply leb_not_ltb.
    unfold Math_max in E. rewrite Ha, Hb, L1, L2 in E. cbn [orb] in E.
    unfold Math_min in E'. rewrite Ha, Hb, L1, L2 in E'. cbn [orb] in E'.
    destruct (get_sign a) eqn:Sa, (get_sign b) eqn:Sb; trivial;
      subst; congruence.
Qed.

End SignedZeros.

(** ** clamp *)

Section Clamp.

Local Open Scope float_scope.

(** X1: [clamp] returns NaN exactly when one of its three arguments is NaN,
    and when the bounds are inverted ([max < min]) it returns [max] for
    every value. *)
Theorem clamp_nan_and_inverted_bounds (value min max : Number) :
  is_nan (math.clamp value min max) = is_nan value || is_nan min || is_nan max /\
  ((max <? min) = true -> is_nan value = false ->
     math.clamp value min max = max).
Proof.
  unfold math.clamp. split.
  - now rewrite Math_min_nan, Math_max_nan.
  - intros H Hv. apply ltb_rank in H. destruct H as (Hhi & Hlo & H).
    assert (Hlt : (max <? min) = true) by (apply ltb_rank; auto).
    destruct (Math_max_cases value min Hv Hlo) as [[E L]|[E L]]; rewrite E.
    + assert (L' : (max <? value) = true) by (eapply ltb_leb_trans; eauto).
      unfold Math_min. rewrite Hv, Hhi, L'. cbn [orb].
      assert (Q : (value <? max) = false).
      { apply leb_not_ltb. now apply ltb_leb. }
      now rewrite Q.
    + unfold Math_min. rewrite Hlo, Hhi, Hlt. cbn [orb].
      assert (Q : (min <? max) = false).
      { apply leb_not_ltb. now apply ltb_leb. }
      now rewrite Q.
Qed.

Lemma clamp_nan_and_inverted_bounds_witness :
  math.clamp 7 10 5 = 5.
Proof.
  apply (clamp_nan_and_inverted_bounds 7 10 5); reflexivity.
Defined.

Lemma clamp_twice (value min max : Number) :
  math.clamp (math.clamp value min max) min max = math.clamp value min max.
Proof.
  destruct (is_nan value || is_nan min || is_nan max) eqn:N.
  - assert (E : forall v, is_nan v || is_nan min || is_nan max = true ->
                math.clamp v min max = nan).
    { intros v Hv. unfold math.clamp, Math_min.
      rewrite Math_max_nan. now rewrite Hv. }
    rewrite (E value N). apply E. reflexivity.
  - apply orb_false_elim in N. destruct N as [N Hhi].
    apply orb_false_elim in N. destruct N as [Hv Hlo].
    unfold math.clamp.
    assert (Hm : is_nan (Math_max value min) = false).
    { now rewrite Math_max_nan, Hv, Hlo. }
    destruct (Math_min_cases (Math_max value min) max Hm Hhi) as [[E _]|[E _]];
      rewrite E.
    + assert (A : Math_max (Math_max value min) min = Math_max value min).
      { destruct (Math_max_cases value min Hv Hlo) as [[E' _]|[E' _]].
        - rewrite E'. exact E'.
        - rewrite E'. now apply Math_max_refl. }
      rewrite A. exact E.
    + now apply Math_min_max_absorb.
Qed.

(** X2: with ordered bounds, [clamp] leaves a value numerically unchanged
    exactly when the value lies within the bounds; such a value is returned
    as it is, a zero possibly with the other sign. *)
Theorem clamp_fixes_range (value min max : Number) :
  (min <=? max) = true ->
  (math.clamp value min max =? value) = ((min <=? value) && (value <=? max)) /\
  ((min <=? value) = true -> (value <=? max) = true -> is_zero value = false ->
     math.clamp value min max = value).
Proof.
  intros H. destruct (leb_not_nan _ _ H) as [Hlo Hhi]. split.
  - destruct (is_nan value) eqn:Hv.
    + assert (E : (min <=? value) = false).
      { destruct (min <=? value) eqn:E; trivial.
        apply leb_not_nan in E. destruct E. congruence. }
      rewrite E. cbn. rewrite eqb_rank.
      destruct (value <=? math.clamp value min max) eqn:E'.
      * apply leb_not_nan in E'. destruct E'. congruence.
      * apply andb_false_r.
    + unfold math.clamp. rewrite eqb_rank.
      destruct (Math_max_cases value min Hv Hlo) as [[E L]|[E L]]; rewrite E.
      * rewrite L. cbn.
        destruct (Math_min_cases value max Hv Hhi) as [[E' L']|[E' L']];
          rewrite E'.
        -- now rewrite L', leb_refl.
        -- rewrite L'. cbn. reflexivity.
      * assert (M : Math_min min max = min \/
                    (Math_min min max = max /\ (max <=? min) = true)).
        { destruct (Math_min_cases min max Hlo Hhi) as [[E' L']|[E' L']]; auto. }
        destruct (min <=? value) eqn:L1; cbn.
        -- destruct M as [M|[M M']]; rewrite M.
           ++ rewrite L1, L. cbn. symmetry. eapply leb_trans; eauto.
           ++ assert (Q : (max <=? value) = true) by (eapply leb_trans; eauto).
              rewrite Q. rewrite andb_true_l.
              destruct (value <=? max) eqn:Q'; trivial.
        -- destruct M as [M|[M M']]; rewrite M.
           ++ now rewrite L1.
           ++ destruct (max <=? value) eqn:Q; trivial. cbn.
              assert (Q' : (min <=? value) = true) by (eapply leb_trans; eauto).
              congruence.
  - intros L1 L2 Hz. unfold math.clamp.
    rewrite (Math_max_left value min L1) by now rewrite Hz.
    apply Math_min_left; trivial. now rewrite Hz.
Qed.

Lemma clamp_fixes_range_witness :
  (math.clamp 3 0 100 =? 3) = ((0 <=? 3) && (3 <=? 100)).
Proof.
  apply (clamp_fixes_range 3 0 100). reflexivity.
Defined.

End Clamp.

(** ** The classes of Numbers *)

Section Classes.

Local Open Scope float_scope.

Lemma is_nan_class (a : Number) :
  is_nan a = match Prim2SF a with S754_nan => true | _ => false end.
Proof.
  destruct (is_nan a) eqn:E.
  - apply is_nan_spec in E. now rewrite E.
  - apply is_nan_false in E. destruct (Prim2SF a); congruence.
Qed.

Lemma is_zero_class (a : Number) :
  is_zero a = match Prim2SF a with S754_zero _ => true | _ => false end.
Proof.
  unfold is_zero. rewrite eqb_spec. change (Prim2SF zero) with (S754_zero false).
  destruct (Prim2SF a) as [s|s| |s m e]; try reflexivity; destruct s; reflexivity.
Qed.

Lemma is_infinity_class (a : Number) :
  is_infinity a = match Prim2SF a with S754_infinity _ => true | _ => false end.
Proof.
  unfold is_infinity. rewrite eqb_spec, abs_spec.
  change (Prim2SF infinity) with (S754_infinity false).
  destruct (Prim2SF a) as [s|s| |s m e]; reflexivity.
Qed.

Lemma pack_not_nan (s : bool) (u e : Z) : pack s u e <> S754_nan.
Proof.
  unfold pack. destruct u; try discriminate.
  destruct (_ =? _)%Z; [destruct (_ <=? _)%Z|destruct (_ <=? _)%Z]; discriminate.
Qed.

Lemma SFmul_finite_not_nan (sx sy : bool) (mx my : positive) (ex ey : Z) :
  valid_binary (S754_finite sx mx ex) = true ->
  valid_binary (S754_finite sy my ey) = true ->
  SFmul prec emax (S754_finite sx mx ex) (S754_finite sy my ey) <> S754_nan.
Proof.
  intros Vx Vy. cbn [SFmul].
  destruct (binary_round_aux_spec (xorb sx sy) (Zpos (mx * my)) (ex + ey)%Z
              loc_Exact ltac:(lia) (mul_fine mx my ex ey Vx Vy))
    as (u & _ & _ & ->).
  apply pack_not_nan.
Qed.

Lemma SFdiv_finite_not_nan (sx sy : bool) (mx my : positive) (ex ey : Z) :
  SFdiv prec emax (S754_finite sx mx ex) (S754_finite sy my ey) <> S754_nan.
Proof.
  cbn [SFdiv]. pose proof (SFdiv_core_spec mx my ex ey) as H.
  destruct (SFdiv_core_binary prec emax (Zpos mx) ex (Zpos my) ey) as [[q e'] l].
  destruct H as (r & _ & Hq & _ & _ & _ & He & _).
  destruct (binary_round_aux_spec (xorb sx sy) q e' l Hq He) as (u & _ & _ & ->).
  apply pack_not_nan.
Qed.

(** A product is NaN only from a NaN factor or from zero times infinity. *)
Lemma mul_nan (a b : Number) :
  is_nan (a * b) = is_nan a || is_nan b || (is_zero a && is_infinity b)
                   || (is_infinity a && is_zero b).
Proof.
  rewrite !is_nan_class, !is_zero_class, !is_infinity_class, mul_spec.
  pose proof (Prim2SF_valid a) as Va. pose proof (Prim2SF_valid b) as Vb.
  destruct (Prim2SF a) as [sa|sa| |sa ma ea], (Prim2SF b) as [sb|sb| |sb mb eb];
    try reflexivity.
  pose proof (SFmul_finite_not_nan sa sb ma mb ea eb Va Vb) as N.
  unfold SF64mul. destruct (SFmul _ _ _ _) eqn:E; try reflexivity; congruence.
Qed.

(** A quotient is NaN only from a NaN operand, from zero by zero or from
    infinity by infinity. *)
Lemma div_nan (a b : Number) :
  is_nan (a / b) = is_nan a || is_nan b || (is_zero a && is_zero b)
                   || (is_infinity a && is_infinity b).
Proof.
  rewrite !is_nan_class, !is_zero_class, !is_infinity_class, div_spec.
  destruct (Prim2SF a) as [sa|sa| |sa ma ea], (Prim2SF b) as [sb|sb| |sb mb eb];
    try reflexivity.
  pose proof (SFdiv_finite_not_nan sa sb ma mb ea eb) as N.
  unfold SF64div. destruct (SFdiv _ _ _ _) eqn:E; try reflexivity; congruence.
Qed.

End Classes.

(** ** World bounds and the health bar *)

Section BoundsAndHealth.

Local Open Scope float_scope.

(** X4: a position that [isInBounds] accepts is returned unchanged by
    [clampToBounds] (with the table of [constants.js]). *)
Theorem clampToBounds_fixes_in_bounds (position : Vector3) :
  game.isInBounds present position = true ->
  game.clampToBounds present position = position.
Proof.
  unfold game.isInBounds, game.clampToBounds, present. cbv zeta.
  rewrite halfSize_100. destruct position as [px py pz]. cbn [x y z].
  intros H. apply andb_prop in H. destruct H as [H Hz2].
  apply andb_prop in H. destruct H as [H Hz1].
  apply andb_prop in H. destruct H as [Hx1 Hx2].
  assert (N1 : is_zero (- (100)) = false) by reflexivity.
  assert (N2 : is_zero 100 = false) by reflexivity.
  unfold math.clamp.
  rewrite (Math_max_left px (- (100)) Hx1) by (rewrite N1; apply andb_false_r).
  rewrite (Math_min_left px 100 Hx2) by (rewrite N2; apply andb_false_r).
  rewrite (Math_max_left pz (- (100)) Hz1) by (rewrite N1; apply andb_false_r).
  rewrite (Math_min_left pz 100 Hz2) by (rewrite N2; apply andb_false_r).
  reflexivity.
Qed.

Lemma clampToBounds_fixes_in_bounds_witness :
  game.clampToBounds present {| x := 12.5; y := 300; z := -100 |}
  = {| x := 12.5; y := 300; z := -100 |}.
Proof.
  apply (clampToBounds_fixes_in_bounds {| x := 12.5; y := 300; z := -100 |}).
  reflexivity.
Defined.

(** X3: clamping twice with the same bounds is clamping once, for all
    Numbers (NaN, infinities and inverted bounds included); so
    [clampToBounds] applied twice is [clampToBounds] applied once, whatever
    the constants table. *)
Theorem clamp_idempotent (value min max : Number)
    (env : option constants.Table) (position : Vector3) :
  math.clamp (math.clamp value min max) min max = math.clamp value min max /\
  game.clampToBounds env (game.clampToBounds env position)
  = game.clampToBounds env position.
Proof.
  split; [apply clamp_twice|].
  destruct env as [t|]; [|reflexivity].
  unfold game.clampToBounds. cbv zeta. cbn [x y z].
  now rewrite !clamp_twice.
Qed.

(** X5: [getHealthPercentage] is NaN exactly when an argument is NaN, both
    are zero or both are infinite; in every other case it lies in
    [[0, 100]].  A positive health over a maximum of [0] gives [100]. *)
Theorem getHealthPercentage_range (currentHealth maxHealth : Number) :
  let p := game.getHealthPercentage currentHealth maxHealth in
  is_nan p = is_nan currentHealth || is_nan maxHealth
             || (is_zero currentHealth && is_zero maxHealth)
             || (is_infinity currentHealth && is_infinity maxHealth) /\
  (is_nan p = false -> (0 <=? p) = true /\ (p <=? 100) = true) /\
  ((0 <? currentHealth) = true ->
     game.getHealthPercentage currentHealth 0 = 100).
Proof.
  cbv zeta. unfold game.getHealthPercentage.
  assert (N : is_nan (math.clamp (currentHealth / maxHealth * 100) 0 100)
              = is_nan (currentHealth / maxHealth)).
  { unfold math.clamp. rewrite Math_min_nan, Math_max_nan, mul_nan.
    change (is_nan 100) with false. change (is_nan 0) with false.
    change (is_zero 100) with false. change (is_infinity 100) with false.
    now rewrite !andb_false_r, !orb_false_r. }
  split; [|split].
  - rewrite N. apply div_nan.
  - intros H. apply clamp_in_range; [|reflexivity].
    rewrite N in H. rewrite mul_nan, H.
    change (is_nan 100) with false.
    change (is_zero 100) with false. change (is_infinity 100) with false.
    now rewrite !andb_false_r.
  - intros H. apply ltb_rank in H. destruct H as (_ & Hc & H).
    assert (E : currentHealth / 0 = infinity).
    { apply Prim2SF_inj. rewrite div_spec.
      change (Prim2SF 0) with (S754_zero false) in *.
      change (Prim2SF infinity) with (S754_infinity false).
      apply is_nan_false in Hc.
      destruct (Prim2SF currentHealth) as [s|s| |s m e]; try congruence;
        cbn in H; try lia; destruct s; cbn in H; try lia; reflexivity. }
    rewrite E. reflexivity.
Qed.

Lemma getHealthPercentage_range_witness :
  (0 <=? game.getHealthPercentage 250 100) = true /\
  (game.getHealthPercentage 250 100 <=? 100) = true.
Proof.
  exact (proj1 (proj2 (getHealthPercentage_range 250 100)) eq_refl).
Defined.

End BoundsAndHealth.

(** ** Symmetries of the arithmetic *)

Section Symmetry.

Local Open Scope float_scope.

(** The sign given to [binary_round_aux] is only copied to its result. *)
Lemma binary_round_aux_abs (s s' : bool) (m e : Z) (l : location) :
  SFabs (binary_round_aux prec emax s m e l)
  = SFabs (binary_round_aux prec emax s' m e l).
Proof.
  unfold binary_round_aux.
  destruct (shr_fexp prec emax m e l) as [mrs' e'].
  destruct (shr_fexp prec emax _ e' loc_Exact) as [mrs'' e''].
  destruct (shr_m mrs''); try reflexivity.
  destruct (e'' <=? emax - prec)%Z; reflexivity.
Qed.

Lemma binary_normalize_abs_opp (n e : Z) :
  SFabs (binary_normalize prec emax (- n) e false)
  = SFabs (binary_normalize prec emax n e false).
Proof.
  destruct n as [|p|p]; cbn [Z.opp binary_normalize]; trivial;
    unfold binary_round; destruct (shl_align p e _) as [mz ez];
    apply binary_round_aux_abs.
Qed.

Lemma SFsub_abs_comm (a b : spec_float) :
  SFabs (SFsub prec emax a b) = SFabs (SFsub prec emax b a).
Proof.
  destruct a as [sa|sa| |sa ma ea], b as [sb|sb| |sb mb eb];
    try reflexivity; try (destruct sa, sb; reflexivity).
  cbn [SFsub]. rewrite (Z.min_comm eb ea).
  rewrite <- binary_normalize_abs_opp. do 2 f_equal. lia.
Qed.

Lemma abs_sub_comm (a b : Number) : abs (a - b) = abs (b - a).
Proof.
  apply Prim2SF_inj. rewrite !abs_spec, !sub_spec. apply SFsub_abs_comm.
Qed.

Lemma mul_abs_self (a : Number) : a * a = abs a * abs a.
Proof.
  apply Prim2SF_inj. rewrite !mul_spec, !abs_spec.
  destruct (Prim2SF a) as [s|s| |s m e]; try reflexivity;
    destruct s; reflexivity.
Qed.

(** The square of a difference does not depend on the order of the two
    operands. *)
Lemma square_sub_comm (a b : Number) : (a - b) * (a - b) = (b - a) * (b - a).
Proof.
  rewrite (mul_abs_self (a - b)), (mul_abs_self (b - a)).
  now rewrite (abs_sub_comm a b).
Qed.

Lemma add_comm (a b : Number) : a + b = b + a.
Proof.
  apply Prim2SF_inj. rewrite !add_spec.
  destruct (Prim2SF a) as [sa|sa| |sa ma ea], (Prim2SF b) as [sb|sb| |sb mb eb];
    try reflexivity; try (destruct sa, sb; reflexivity).
  unfold SF64add. cbn [SFadd]. rewrite (Z.min_comm eb ea). f_equal. lia.
Qed.

Lemma mul_comm (a b : Number) : a * b = b * a.
Proof.
  apply Prim2SF_inj. rewrite !mul_spec.
  destruct (Prim2SF a) as [sa|sa| |sa ma ea], (Prim2SF b) as [sb|sb| |sb mb eb];
    try reflexivity; try (destruct sa, sb; reflexivity).
  unfold SF64mul. cbn [SFmul].
  now rewrite (xorb_comm sb sa), (Pos.mul_comm mb ma), (Z.add_comm eb ea).
Qed.

(** [a - a] is [+0] for a finite [a] and NaN otherwise. *)
Lemma sub_diag (a : Number) : a - a = (if is_finite a then 0 else nan).
Proof.
  apply Prim2SF_inj. rewrite is_finite_spec. unfold finite. rewrite sub_spec.
  destruct (Prim2SF a) as [s|s| |s m e]; cbn [SFfinite];
    try (destruct s; reflexivity); try reflexivity.
  unfold SF64sub. cbn [SFsub]. rewrite Z.sub_diag. reflexivity.
Qed.

End Symmetry.

(** ** Distances, vectors and collision tests *)

Section Geometry.

Local Open Scope float_scope.

(** X6: the distance between two points does not depend on their order,
    in three dimensions and in two, for all Numbers (rounding, overflow
    and NaN included); it is the length of their difference taken either
    way. *)
Theorem distance_symmetric (p q : Vector3) (p2 q2 : point2.t) :
  math.distance3D p q = math.distance3D q p /\
  math.distance2D p2 q2 = math.distance2D q2 p2 /\
  math.distance3D p q = vector.length (vector.subtract p q).
Proof.
  unfold math.distance3D, math.distance2D, vector.length, vector.subtract.
  cbv zeta. cbn [x y z]. repeat split.
  - now rewrite (square_sub_comm (x q) (x p)), (square_sub_comm (y q) (y p)),
      (square_sub_comm (z q) (z p)).
  - now rewrite (square_sub_comm (point2.x q2) (point2.x p2)),
      (square_sub_comm (point2.y q2) (point2.y p2)).
  - now rewrite (square_sub_comm (x q) (x p)), (square_sub_comm (y q) (y p)),
      (square_sub_comm (z q) (z p)).
Qed.

(** X7: [approximately] is symmetric in the two Numbers it compares. *)
Theorem approximately_symmetric (a b tolerance : Number) :
  math.approximately a b tolerance = math.approximately b a tolerance.
Proof.
  unfold math.approximately, Math_abs. now rewrite (abs_sub_comm a b).
Qed.

Lemma add_zero_leb (d r : Number) : (d <=? 0 + r) = (d <=? r).
Proof.
  rewrite !leb_spec, add_spec. change (Prim2SF 0) with (S754_zero false).
  unfold SFleb.
  destruct (Prim2SF r) as [s|s| |s m e]; try reflexivity.
  destruct s; destruct (Prim2SF d) as [s'|s'| |s' m' e']; reflexivity.
Qed.

(** X8: the sphere tests are symmetric: a point is within [radius] of a
    centre exactly when the centre is within [radius] of the point, two
    spheres intersect whichever is given first, and a point is a sphere of
    radius [0]. *)
Theorem sphere_tests_symmetric (p c : Vector3) (radius r1 r2 : Number) :
  collision.pointInSphere p c radius = collision.pointInSphere c p radius /\
  collision.sphereSphere p r1 c r2 = collision.sphereSphere c r2 p r1 /\
  collision.sphereSphere p 0 c radius = collision.pointInSphere p c radius.
Proof.
  unfold collision.pointInSphere, collision.sphereSphere. cbv zeta.
  assert (D : forall u v, math.distance3D u v = math.distance3D v u).
  { intros u v. unfold math.distance3D. cbv zeta.
    now rewrite (square_sub_comm (x v) (x u)), (square_sub_comm (y v) (y u)),
      (square_sub_comm (z v) (z u)). }
  repeat split.
  - now rewrite (D p c).
  - now rewrite (D p c), (add_comm r1 r2).
  - apply add_zero_leb.
Qed.

(** X9: [add] and [dot] are commutative, for all Numbers. *)
Theorem add_dot_commutative (v w : Vector3) :
  vector.add v w = vector.add w v /\ vector.dot v w = vector.dot w v.
Proof.
  unfold vector.add, vector.dot. split.
  - now rewrite (add_comm (x v) (x w)), (add_comm (y v) (y w)),
      (add_comm (z v) (z w)).
  - now rewrite (mul_comm (x v) (x w)), (mul_comm (y v) (y w)),
      (mul_comm (z v) (z w)).
Qed.

(** X10: exchanging the arguments of [cross] changes no component in
    absolute value, and the cross product of a vector with itself has
    every component [+0], or NaN where a product of two of its components
    is not finite. *)
Theorem cross_antisymmetric (v w : Vector3) :
  Math_abs (x (vector.cross v w)) = Math_abs (x (vector.cross w v)) /\
  Math_abs (y (vector.cross v w)) = Math_abs (y (vector.cross w v)) /\
  Math_abs (z (vector.cross v w)) = Math_abs (z (vector.cross w v)) /\
  vector.cross v v
  = {| x := if is_finite (y v * z v) then 0 else nan;
       y := if is_finite (z v * x v) then 0 else nan;
       z := if is_finite (x v * y v) then 0 else nan |}.
Proof.
  unfold vector.cross, Math_abs. cbn [x y z]. repeat split.
  - rewrite (mul_comm (y w) (z v)), (mul_comm (z w) (y v)). apply abs_sub_comm.
  - rewrite (mul_comm (z w) (x v)), (mul_comm (x w) (z v)). apply abs_sub_comm.
  - rewrite (mul_comm (x w) (y v)), (mul_comm (y w) (x v)). apply abs_sub_comm.
  - rewrite (mul_comm (z v) (y v)), (mul_comm (x v) (z v)),
      (mul_comm (y v) (x v)).
    now rewrite !sub_diag.
Qed.

End Geometry.

(** ** Degenerate collision queries *)

Section Degenerate.

Local Open Scope float_scope.

(** A Number that is a zero or NaN, and one that is a zero. *)
Definition zero_or_nan (a : Number) : Prop :=
  match Prim2SF a with S754_zero _ | S754_nan => True | _ => False end.

Definition a_zero (a : Number) : Prop :=
  match Prim2SF a with S754_zero _ => True | _ => False end.

Lemma a_zero_iff (a : Number) : is_zero a = true <-> a_zero a.
Proof.
  rewrite is_zero_class. unfold a_zero.
  destruct (Prim2SF a); split; intros; try discriminate; tauto.
Qed.

Lemma a_zero_weaken (a : Number) : a_zero a -> zero_or_nan a.
Proof. unfold a_zero, zero_or_nan. now destruct (Prim2SF a). Qed.

Lemma mul_zero_r (a b : Number) : a_zero b -> zero_or_nan (a * b).
Proof.
  unfold a_zero, zero_or_nan. rewrite mul_spec.
  destruct (Prim2SF a), (Prim2SF b); cbn; tauto.
Qed.

Lemma mul_zero_or_nan_l (a b : Number) : zero_or_nan a -> zero_or_nan (a * b).
Proof.
  unfold zero_or_nan. rewrite mul_spec.
  destruct (Prim2SF a), (Prim2SF b); cbn; tauto.
Qed.

Lemma mul_zero_or_nan_r (a b : Number) : zero_or_nan b -> zero_or_nan (a * b).
Proof. rewrite (mul_comm a b). apply mul_zero_or_nan_l. Qed.

Lemma mul_a_zero (a b : Number) : a_zero a -> a_zero b -> a_zero (a * b).
Proof.
  unfold a_zero. rewrite mul_spec.
  destruct (Prim2SF a), (Prim2SF b); cbn; tauto.
Qed.

Lemma mul_finite_a_zero (a b : Number) :
  finite a = true -> a_zero b -> a_zero (a * b).
Proof.
  unfold a_zero, finite. rewrite mul_spec.
  destruct (Prim2SF a), (Prim2SF b); cbn; try tauto; discriminate.
Qed.

Lemma add_a_zero (a b : Number) : a_zero a -> a_zero b -> a_zero (a + b).
Proof.
  unfold a_zero. rewrite add_spec.
  destruct (Prim2SF a) as [[]| | |], (Prim2SF b) as [[]| | |]; cbn; tauto.
Qed.

Lemma add_zero_or_nan (a b : Number) :
  zero_or_nan a -> zero_or_nan b -> zero_or_nan (a + b).
Proof.
  unfold zero_or_nan. rewrite add_spec.
  destruct (Prim2SF a) as [[]| | |], (Prim2SF b) as [[]| | |]; cbn; tauto.
Qed.

Lemma sub_zero_or_nan (a b : Number) :
  zero_or_nan a -> zero_or_nan b -> zero_or_nan (a - b).
Proof.
  unfold zero_or_nan. rewrite sub_spec.
  destruct (Prim2SF a) as [[]| | |], (Prim2SF b) as [[]| | |]; cbn; tauto.
Qed.

Lemma opp_zero_or_nan (a : Number) : zero_or_nan a -> zero_or_nan (- a).
Proof.
  unfold zero_or_nan. rewrite opp_spec. destruct (Prim2SF a); cbn; tauto.
Qed.

Lemma sqrt_zero_or_nan (a : Number) : zero_or_nan a -> zero_or_nan (Math_sqrt a).
Proof.
  unfold zero_or_nan, Math_sqrt. rewrite sqrt_spec.
  destruct (Prim2SF a); cbn; tauto.
Qed.

Lemma div_zero_or_nan_by_zero (a b : Number) :
  zero_or_nan a -> a_zero b -> is_nan (a / b) = true.
Proof.
  unfold zero_or_nan, a_zero. rewrite is_nan_class, div_spec.
  destruct (Prim2SF a), (Prim2SF b); cbn; tauto.
Qed.

Lemma nan_not_positive (t : Number) : is_nan t = true -> (0 <? t) = false.
Proof.
  intros H. apply is_nan_spec in H. rewrite ltb_spec, H. reflexivity.
Qed.

(** X11: a ray whose direction is the zero vector never hits: [raySphere]
    returns [null] for every origin, centre and radius, the division by
    [2 * a = 0] giving NaN and no error. *)
Theorem raySphere_zero_direction (rayOrigin rayDirection sphereCenter : Vector3)
    (radius : Number) :
  is_zero (x rayDirection) = true -> is_zero (y rayDirection) = true ->
  is_zero (z rayDirection) = true ->
  collision.raySphere rayOrigin rayDirection sphereCenter radius = None.
Proof.
  intros Hx Hy Hz. apply a_zero_iff in Hx, Hy, Hz.
  unfold collision.raySphere. cbv zeta.
  set (oc := vector.subtract rayOrigin sphereCenter).
  set (a := vector.dot rayDirection rayDirection).
  set (b := 2 * vector.dot oc rayDirection).
  set (c := vector.dot oc oc - radius * radius).
  assert (Ha : a_zero a).
  { unfold a, vector.dot. repeat apply add_a_zero; now apply mul_a_zero. }
  assert (Hb : zero_or_nan b).
  { unfold b, vector.dot. apply mul_zero_or_nan_r.
    repeat apply add_zero_or_nan; now apply mul_zero_r. }
  assert (Hd : zero_or_nan (b * b - 4 * a * c)).
  { apply sub_zero_or_nan.
    - now apply mul_zero_or_nan_l.
    - apply mul_zero_or_nan_l, a_zero_weaken.
      now apply mul_finite_a_zero. }
  destruct (b * b - 4 * a * c <? 0); trivial.
  rewrite nan_not_positive; trivial.
  apply div_zero_or_nan_by_zero.
  - apply sub_zero_or_nan; [now apply opp_zero_or_nan|now apply sqrt_zero_or_nan].
  - now apply mul_finite_a_zero.
Qed.

Lemma raySphere_zero_direction_witness :
  collision.raySphere {| x := 0; y := 0; z := -5 |} {| x := 0; y := -0; z := 0 |}
    {| x := 0; y := 0; z := 0 |} 1 = None.
Proof.
  apply (raySphere_zero_direction {| x := 0; y := 0; z := -5 |}
           {| x := 0; y := -0; z := 0 |} {| x := 0; y := 0; z := 0 |} 1);
    reflexivity.
Defined.

(** X12: a box holds a point only if the point has no NaN coordinate and
    the box is not inverted on any axis; then both corners of the box are
    in it too.  So an inverted box ([boxMax] below [boxMin] on an axis) holds
    no point at all. *)
Theorem pointInBox_well_formed (p boxMin boxMax : Vector3) :
  collision.pointInBox p boxMin boxMax = true ->
  (is_nan (x p) = false /\ is_nan (y p) = false /\ is_nan (z p) = false) /\
  ((x boxMax <? x boxMin) = false /\ (y boxMax <? y boxMin) = false /\
   (z boxMax <? z boxMin) = false) /\
  collision.pointInBox boxMin boxMin boxMax = true /\
  collision.pointInBox boxMax boxMin boxMax = true.
Proof.
  unfold collision.pointInBox. intros H.
  repeat (apply andb_prop in H; let H' := fresh "H" in destruct H as [H H']).
  assert (Lx : (x boxMin <=? x boxMax) = true) by (eapply leb_trans; eauto).
  assert (Ly : (y boxMin <=? y boxMax) = true) by (eapply leb_trans; eauto).
  assert (Lz : (z boxMin <=? z boxMax) = true) by (eapply leb_trans; eauto).
  destruct (leb_not_nan _ _ Lx) as [Nx1 Nx2].
  destruct (leb_not_nan _ _ Ly) as [Ny1 Ny2].
  destruct (leb_not_nan _ _ Lz) as [Nz1 Nz2].
  repeat split;
    try (now apply leb_not_ltb);
    try (rewrite Lx, Ly, Lz, !leb_refl by trivial; reflexivity).
  - now destruct (leb_not_nan _ _ H).
  - now destruct (leb_not_nan _ _ H3).
  - now destruct (leb_not_nan _ _ H1).
Qed.

Lemma pointInBox_well_formed_witness :
  collision.pointInBox {| x := 0; y := 0; z := 0 |}
    {| x := 0; y := 0; z := 0 |} {| x := 1; y := 2; z := 3 |} = true.
Proof.
  apply (pointInBox_well_formed {| x := 0.5; y := 2; z := 0 |}
           {| x := 0; y := 0; z := 0 |} {| x := 1; y := 2; z := 3 |}).
  reflexivity.
Defined.

(** [Math.sqrt] never returns a negative Number. *)
Lemma sqrt_not_negative (v : Number) : (Math_sqrt v <? 0) = false.
Proof.
  unfold Math_sqrt. rewrite ltb_spec, sqrt_spec.
  change (Prim2SF 0) with (S754_zero false).
  destruct (Prim2SF v) as [s|s| |s m e]; try (destruct s; reflexivity);
    try reflexivity.
  destruct s; [reflexivity|]. unfold SF64sqrt. cbn [SFsqrt].
  destruct (SFsqrt_core_binary prec emax (Zpos m) e) as [[mz ez] lz].
  unfold binary_round_aux.
  destruct (shr_fexp prec emax mz ez lz) as [mrs' e'].
  destruct (shr_fexp prec emax _ e' loc_Exact) as [mrs'' e''].
  destruct (shr_m mrs''); try reflexivity.
  destruct (e'' <=? emax - prec)%Z; reflexivity.
Qed.

(** The distance from a point to itself. *)
Lemma distance3D_diag (p : Vector3) :
  math.distance3D p p
  = if is_finite (x p) && is_finite (y p) && is_finite (z p) then 0 else nan.
Proof.
  unfold math.distance3D. cbv zeta. rewrite !sub_diag.
  destruct (is_finite (x p)), (is_finite (y p)), (is_finite (z p)); reflexivity.
Qed.

(** X13: a sphere of negative (or NaN) radius holds no point, and a sphere
    holds its own centre exactly when the centre is finite and the radius
    is at least [0]. *)
Theorem pointInSphere_radius (p c : Vector3) (radius : Number) :
  ((0 <=? radius) = false -> collision.pointInSphere p c radius = false) /\
  collision.pointInSphere c c radius
  = is_finite (x c) && is_finite (y c) && is_finite (z c) && (0 <=? radius).
Proof.
  unfold collision.pointInSphere. split.
  - intros H. destruct (math.distance3D p c <=? radius) eqn:E; trivial.
    destruct (leb_not_nan _ _ E) as [Nd Nr].
    assert (Z : (0 <=? math.distance3D p c) = true).
    { apply not_ltb_leb; trivial. apply sqrt_not_negative. }
    rewrite (leb_trans _ _ _ Z E) in H. discriminate.
  - rewrite distance3D_diag.
    destruct (is_finite (x c) && is_finite (y c) && is_finite (z c));
      [reflexivity|].
    rewrite leb_spec. reflexivity.
Qed.

Lemma pointInSphere_radius_witness :
  collision.pointInSphere {| x := 1; y := 2; z := 3 |}
    {| x := 1; y := 2; z := 3 |} (-1) = false.
Proof.
  exact (proj1 (pointInSphere_radius {| x := 1; y := 2; z := 3 |}
                  {| x := 1; y := 2; z := 3 |} (-1)) eq_refl).
Defined.

End Degenerate.

(** ** Colors: which strings parse, and what prints *)

Section ColorStrings.

Local Open Scope Z_scope.

(** Six hexadecimal digits, of either case, and nothing else. *)
Definition six_hex_digits (s : string) : bool :=
  (String.length s =? 6)%nat && forallb color.is_hex (list_ascii_of_string s).

(** The string without its leading [#], if it has one. *)
Definition without_hash (s : string) : string :=
  match s with
  | String "#" rest => rest
  | _ => s
  end.

Lemma match_groups_six (s : string) :
  color.match_groups s = None <-> six_hex_digits s = false.
Proof.
  unfold six_hex_digits.
  destruct s as [|c1 [|c2 [|c3 [|c4 [|c5 [|c6 [|c7 s]]]]]]];
    cbn [color.match_groups String.length Nat.eqb andb]; try tauto.
  cbn [list_ascii_of_string forallb]. rewrite andb_true_r.
  destruct (color.is_hex c1), (color.is_hex c2), (color.is_hex c3),
    (color.is_hex c4), (color.is_hex c5), (color.is_hex c6); cbn [andb];
    split; congruence.
Qed.

Lemma match_groups_some (s g1 g2 g3 : string) :
  color.match_groups s = Some (g1, g2, g3) ->
  exists c1 c2 c3 c4 c5 c6,
    color.is_hex c1 = true /\ color.is_hex c2 = true /\
    color.is_hex c3 = true /\ color.is_hex c4 = true /\
    color.is_hex c5 = true /\ color.is_hex c6 = true /\
    g1 = String c1 (String c2 EmptyString) /\
    g2 = String c3 (String c4 EmptyString) /\
    g3 = String c5 (String c6 EmptyString).
Proof.
  destruct s as [|c1 [|c2 [|c3 [|c4 [|c5 [|c6 [|c7 s]]]]]]];
    cbn [color.match_groups]; try discriminate.
  destruct (color.is_hex c1) eqn:E1, (color.is_hex c2) eqn:E2,
    (color.is_hex c3) eqn:E3, (color.is_hex c4) eqn:E4,
    (color.is_hex c5) eqn:E5, (color.is_hex c6) eqn:E6; cbn [andb];
    try discriminate.
  intros H. injection H as <- <- <-.
  exists c1, c2, c3, c4, c5, c6. repeat split; trivial.
Qed.

Lemma regex_exec_no_hash (c : ascii) (rest : string) :
  c <> "#"%char ->
  color.regex_exec (String c rest) = color.match_groups (String c rest).
Proof.
  intros H. destruct c as [[] [] [] [] [] [] [] []]; try reflexivity.
  congruence.
Qed.

Lemma match_groups_hash (rest : string) :
  color.match_groups (String "#" rest) = None.
Proof.
  destruct rest as [|c2 [|c3 [|c4 [|c5 [|c6 [|c7 s]]]]]]; reflexivity.
Qed.

Lemma regex_exec_without_hash (hex : string) :
  color.regex_exec hex = color.match_groups (without_hash hex).
Proof.
  destruct hex as [|c rest]; [reflexivity|].
  destruct (ascii_dec c "#") as [->|N].
  - cbn [color.regex_exec without_hash]. rewrite match_groups_hash.
    now destruct (color.match_groups rest).
  - rewrite regex_exec_no_hash by trivial.
    destruct c as [[] [] [] [] [] [] [] []]; try reflexivity. congruence.
Qed.

(** X14: [hexToRgb] returns [null] for every string that is not six
    hexadecimal digits after an optional [#] (upper or lower case); so the
    empty string, a three-digit short form and an eight-digit color with
    alpha are all rejected. *)
Theorem hexToRgb_accepts (hex : string) :
  (color.hexToRgb hex = None <-> six_hex_digits (without_hash hex) = false) /\
  color.hexToRgb EmptyString = None /\ color.hexToRgb "#fff" = None /\
  color.hexToRgb "#ff000080" = None /\ color.hexToRgb "##ff0000" = None /\
  color.hexToRgb "FF8000"
  = Some {| color.r := 255%float; color.g := 128%float; color.b := 0%float |}.
Proof.
  split; [|repeat split; reflexivity].
  unfold color.hexToRgb. rewrite regex_exec_without_hash.
  rewrite <- match_groups_six.
  destruct (color.match_groups (without_hash hex)) as [[[g1 g2] g3]|];
    split; congruence.
Qed.

Lemma hex_value_range (c : ascii) (d : Z) :
  hex_value c = Some d -> 0 <= d < 16.
Proof.
  unfold hex_value. set (n := Z.of_nat (nat_of_ascii c)).
  destruct (48 <=? n) eqn:A1, (n <=? 57) eqn:A2; cbn [andb];
    try (intros H; injection H as <-; lia);
    destruct (97 <=? n) eqn:B1, (n <=? 102) eqn:B2; cbn [andb];
    try (intros H; injection H as <-; lia);
    destruct (65 <=? n) eqn:C1, (n <=? 70) eqn:C2; cbn [andb];
    try (intros H; injection H as <-; lia); discriminate.
Qed.

(** Two hexadecimal digits are read as a channel value. *)
Lemma parseInt16_pair (c1 c2 : ascii) :
  color.is_hex c1 = true -> color.is_hex c2 = true ->
  exists n, 0 <= n <= 255 /\
            parseInt16 (String c1 (String c2 EmptyString)) = of_Z n.
Proof.
  unfold color.is_hex, parseInt16. cbn [parse_hex_prefix].
  destruct (hex_value c1) as [d1|] eqn:E1; [|discriminate].
  destruct (hex_value c2) as [d2|] eqn:E2; [|discriminate].
  intros _ _. apply hex_value_range in E1, E2.
  exists (16 * d1 + d2). split; [lia|reflexivity].
Qed.

(** The channels of a parsed color are integers in [[0, 255]]. *)
Lemma hexToRgb_channels (hex : string) (c : color.RGB) :
  color.hexToRgb hex = Some c ->
  exists r0 g0 b0,
    (0 <= r0 <= 255 /\ 0 <= g0 <= 255 /\ 0 <= b0 <= 255) /\
    c = {| color.r := of_Z r0; color.g := of_Z g0; color.b := of_Z b0 |}.
Proof.
  unfold color.hexToRgb. rewrite regex_exec_without_hash.
  destruct (color.match_groups (without_hash hex)) as [[[g1 g2] g3]|] eqn:E;
    [|discriminate].
  destruct (match_groups_some _ _ _ _ E)
    as (c1 & c2 & c3 & c4 & c5 & c6 & H1 & H2 & H3 & H4 & H5 & H6 & -> & -> & ->).
  destruct (parseInt16_pair c1 c2 H1 H2) as (r0 & Hr & ->).
  destruct (parseInt16_pair c3 c4 H3 H4) as (g0 & Hg & ->).
  destruct (parseInt16_pair c5 c6 H5 H6) as (b0 & Hb & ->).
  intros H. injection H as <-. exists r0, g0, b0. repeat split; lia.
Qed.

(** X15: every color that [hexToRgb] returns has three integer channels in
    [[0, 255]]; [rgbToHex] prints it as [#] and six lower-case digits, and
    that string parses back to the same color. *)
Theorem rgbToHex_hexToRgb (hex : string) (c : color.RGB) :
  color.hexToRgb hex = Some c ->
  exists r0 g0 b0,
    (0 <= r0 <= 255 /\ 0 <= g0 <= 255 /\ 0 <= b0 <= 255) /\
    c = {| color.r := of_Z r0; color.g := of_Z g0; color.b := of_Z b0 |} /\
    color.rgbToHex (color.r c) (color.g c) (color.b c)
    = Some (String "#" (hex2 r0 ++ hex2 g0 ++ hex2 b0)) /\
    color.hexToRgb (String "#" (hex2 r0 ++ hex2 g0 ++ hex2 b0)) = Some c.
Proof.
  intros H. destruct (hexToRgb_channels hex c H) as (r0 & g0 & b0 & R & ->).
  exists r0, g0, b0. cbn [color.r color.g color.b].
  split; [exact R|]. split; [reflexivity|].
  destruct R as (Hr & Hg & Hb). split.
  - now apply rgbToHex_of_Z.
  - now apply hexToRgb_hex2.
Qed.

Lemma rgbToHex_hexToRgb_witness :
  exists r0 g0 b0,
    (0 <= r0 <= 255 /\ 0 <= g0 <= 255 /\ 0 <= b0 <= 255) /\
    {| color.r := 255%float; color.g := 128%float; color.b := 0%float |}
    = {| color.r := of_Z r0; color.g := of_Z g0; color.b := of_Z b0 |} /\
    color.rgbToHex 255%float 128%float 0%float
    = Some (String "#" (hex2 r0 ++ hex2 g0 ++ hex2 b0)) /\
    color.hexToRgb (String "#" (hex2 r0 ++ hex2 g0 ++ hex2 b0))
    = Some {| color.r := 255%float; color.g := 128%float; color.b := 0%float |}.
Proof.
  apply (rgbToHex_hexToRgb "FF8000"
           {| color.r := 255%float; color.g := 128%float; color.b := 0%float |}).
  reflexivity.
Defined.

End ColorStrings.

Section ColorOverflow.

Local Open Scope Z_scope.

(** The six hexadecimal digits of the low 24 bits of [p]. *)
Definition hex6 (p : Z) : string :=
  (hex2 (p / 2 ^ 16 mod 256) ++ hex2 (p / 2 ^ 8 mod 256) ++ hex2 (p mod 256))%string.

Lemma digits_seven (t : Z) :
  2 ^ 24 <= t < 2 ^ 28 ->
  digits 16 t = String (digit_char (t / 2 ^ 24)) (hex6 t).
Proof.
  intros Ht. unfold digits.
  assert (L : 24 <= Z.log2 t) by (apply Z.log2_le_pow2; lia).
  assert (F : exists k, S (Z.to_nat (Z.log2 t)) = (7 + k)%nat).
  { exists (Z.to_nat (Z.log2 t) - 6)%nat. lia. }
  destruct F as [k ->]. cbn [Nat.add].
  change (2 ^ 24) with 16777216 in *. change (2 ^ 28) with 268435456 in *.
  do 6 (rewrite digits_aux_more by dlia).
  rewrite digits_aux_last by dlia.
  unfold hex6, hex2. cbn [append].
  change (2 ^ 16) with 65536. change (2 ^ 8) with 256.
  assert (E1 : t mod 16 = t mod 256 mod 16) by dlia.
  assert (E2 : t / 16 mod 16 = t mod 256 / 16) by dlia.
  assert (E3 : t / 16 / 16 mod 16 = t / 256 mod 256 mod 16) by dlia.
  assert (E4 : t / 16 / 16 / 16 mod 16 = t / 256 mod 256 / 16) by dlia.
  assert (E5 : t / 16 / 16 / 16 / 16 mod 16 = t / 65536 mod 256 mod 16) by dlia.
  assert (E6 : t / 16 / 16 / 16 / 16 / 16 mod 16 = t / 65536 mod 256 / 16)
    by dlia.
  assert (E7 : t / 16 / 16 / 16 / 16 / 16 / 16 mod 16 = t / 16777216) by dlia.
  now rewrite E1, E2, E3, E4, E5, E6, E7.
Qed.

(** X16: [rgbToHex] does not clamp or reject channels above 255: the three
    integers are packed into one number, so the excess of a channel is
    carried into the channel on its left and the excess of red is dropped.
    For instance [rgbToHex(0, 0, 256)] is ["#000100"] and
    [rgbToHex(256, 0, 0)] is ["#000000"]. *)
Theorem rgbToHex_carries (r0 g0 b0 : Z) :
  0 <= r0 -> 0 <= g0 -> 0 <= b0 ->
  r0 * 2 ^ 16 + g0 * 2 ^ 8 + b0 < 15 * 2 ^ 24 ->
  color.rgbToHex (of_Z r0) (of_Z g0) (of_Z b0)
  = Some (String "#" (hex6 (r0 * 2 ^ 16 + g0 * 2 ^ 8 + b0))).
Proof.
  intros Hr Hg Hb Hp. unfold color.rgbToHex.
  replace (shl 1%float 24) with (of_Z (2 ^ 24)) by (vm_compute; reflexivity).
  rewrite (shl_of_Z r0 16), (shl_of_Z g0 8) by lia.
  rewrite !add_of_Z by lia.
  rewrite Number_toString_of_Z by lia.
  unfold integer_toString.
  rewrite (proj2 (Z.ltb_ge _ 0)) by lia.
  rewrite digits_seven by lia. cbn [slice1 append].
  do 2 f_equal. unfold hex6.
  set (p := r0 * 2 ^ 16 + g0 * 2 ^ 8 + b0).
  replace (2 ^ 24 + r0 * 2 ^ 16 + g0 * 2 ^ 8 + b0) with (2 ^ 24 + p)
    by (unfold p; lia).
  change (2 ^ 24) with 16777216 in *. change (2 ^ 16) with 65536 in *.
  change (2 ^ 8) with 256 in *. clearbody p.
  assert (E1 : (16777216 + p) mod 256 = p mod 256) by dlia.
  assert (E2 : (16777216 + p) / 256 mod 256 = p / 256 mod 256) by dlia.
  assert (E3 : (16777216 + p) / 65536 mod 256 = p / 65536 mod 256) by dlia.
  now rewrite E1, E2, E3.
Qed.

Lemma rgbToHex_carries_witness :
  color.rgbToHex (of_Z 0) (of_Z 0) (of_Z 256)
  = Some (String "#" (hex6 (0 * 2 ^ 16 + 0 * 2 ^ 8 + 256))).
Proof. apply (rgbToHex_carries 0 0 256); lia. Defined.

Example rgbToHex_out_of_range :
  color.rgbToHex 0%float 0%float 256%float = Some "#000100"%string /\
  color.rgbToHex 256%float 0%float 0%float = Some "#000000"%string /\
  color.rgbToHex 3840%float 0%float 0%float = Some "#0000000"%string.
Proof. vm_compute. repeat split; reflexivity. Qed.

End ColorOverflow.

(** ** normalizeAngle: what the loops establish *)

Section AngleLoops.

Local Open Scope float_scope.

(** A loop that ends has kept its invariant and left its condition false. *)
Lemma while_invariant (P : Number -> Prop) (cond : Number -> bool)
    (body : Number -> Number) :
  (forall v, P v -> cond v = true -> P (body v)) ->
  forall fuel v r, P v -> while fuel cond body v = Some r ->
  P r /\ cond r = false.
Proof.
  intros Step. induction fuel as [|fuel IH]; intros v r Hv; cbn [while];
    [discriminate|].
  destruct (cond v) eqn:C.
  - apply IH. now apply Step.
  - intros H. injection H as <-. now split.
Qed.

(** More fuel does not change the result of a loop that ends. *)
Lemma while_more (cond : Number -> bool) (body : Number -> Number)
    (fuel fuel' : nat) (v r : Number) :
  (fuel <= fuel')%nat -> while fuel cond body v = Some r ->
  while fuel' cond body v = Some r.
Proof.
  revert fuel' v. induction fuel as [|fuel IH]; intros fuel' v Hle;
    cbn [while]; [discriminate|].
  destruct fuel' as [|fuel']; [lia|]. cbn [while].
  destruct (cond v); trivial. apply IH. lia.
Qed.

Lemma binary_normalize_not_nan (n e : Z) :
  binary_normalize prec emax n e false <> S754_nan.
Proof.
  destruct n as [|p|p]; cbn [binary_normalize]; try discriminate.
  - destruct (binary_round_spec false p e) as (mz & ez & _ & _ & He & ->).
    destruct (binary_round_aux_spec false (Zpos mz) ez loc_Exact ltac:(lia) He)
      as (u & _ & _ & ->).
    apply pack_not_nan.
  - destruct (binary_round_spec true p e) as (mz & ez & _ & _ & He & ->).
    destruct (binary_round_aux_spec true (Zpos mz) ez loc_Exact ltac:(lia) He)
      as (u & _ & _ & ->).
    apply pack_not_nan.
Qed.

(** Adding or subtracting a finite Number gives NaN only from NaN. *)
Lemma add_finite_nan (a b : Number) :
  finite b = true -> is_nan (a + b) = is_nan a.
Proof.
  unfold finite. rewrite !is_nan_class, add_spec.
  destruct (Prim2SF a) as [sa|sa| |sa ma ea], (Prim2SF b) as [sb|sb| |sb mb eb];
    try discriminate; intros _; try reflexivity;
    try (destruct sa, sb; reflexivity).
  unfold SF64add. cbn [SFadd].
  pose proof (binary_normalize_not_nan
    (cond_Zopp sa (Zpos (fst (shl_align ma ea (Z.min ea eb))))
     + cond_Zopp sb (Zpos (fst (shl_align mb eb (Z.min ea eb)))))
    (Z.min ea eb)) as N.
  destruct (binary_normalize _ _ _ _ _); congruence.
Qed.

Lemma sub_finite_nan (a b : Number) :
  finite b = true -> is_nan (a - b) = is_nan a.
Proof.
  unfold finite. rewrite !is_nan_class, sub_spec.
  destruct (Prim2SF a) as [sa|sa| |sa ma ea], (Prim2SF b) as [sb|sb| |sb mb eb];
    try discriminate; intros _; try reflexivity;
    try (destruct sa, sb; reflexivity).
  unfold SF64sub. cbn [SFsub].
  pose proof (binary_normalize_not_nan
    (cond_Zopp sa (Zpos (fst (shl_align ma ea (Z.min ea eb))))
     - cond_Zopp sb (Zpos (fst (shl_align mb eb (Z.min ea eb)))))
    (Z.min ea eb)) as N.
  destruct (binary_normalize _ _ _ _ _); congruence.
Qed.

Lemma not_leb_ltb (a b : Number) :
  is_nan a = false -> is_nan b = false -> (a <=? b) = false -> (b <? a) = true.
Proof.
  intros Ha Hb. destruct (compare_defined a b Ha Hb) as [c Hc].
  rewrite ltb_spec, leb_spec. unfold SFltb, SFleb.
  rewrite (SFcompare_antisym (Prim2SF a) (Prim2SF b)), Hc.
  destruct c; simpl; congruence.
Qed.

(** A Number that is at least [0] is [+Infinity] or finite with a value
    that is not negative. *)
Lemma nonneg_cases (v : Number) :
  (0 <=? v) = true ->
  Prim2SF v = S754_infinity false \/ (finite v = true /\ (0 <= val v)%Z).
Proof.
  intros H. destruct (leb_not_nan _ _ H) as [_ Hv]. apply is_nan_false in Hv.
  destruct (Prim2SF v) as [s|s| |s m e] eqn:E; try congruence.
  - right. unfold finite, val. rewrite E. cbn. split; [reflexivity|lia].
  - destruct s; [|now left]. rewrite leb_spec, E in H. discriminate.
  - right. unfold finite. rewrite E. split; trivial.
    rewrite leb_val in H by (unfold finite; rewrite ?E; reflexivity).
    now apply Z.leb_le in H.
Qed.

Lemma two_pi_finite : finite (Math_PI * 2) = true.
Proof. reflexivity. Qed.

Lemma two_pi_nonneg : nonneg (Prim2SF (Math_PI * 2)).
Proof. apply finite_nonneg; [reflexivity|]. vm_compute. discriminate. Qed.

(** Subtracting [2 * Math.PI] from a Number at least as large leaves a
    Number that is not negative. *)
Lemma sub_two_pi_nonneg (v : Number) :
  (0 <=? v) = true -> (Math_PI * 2 <=? v) = true ->
  (0 <=? v - Math_PI * 2) = true.
Proof.
  intros H0 H. destruct (nonneg_cases v H0) as [E|[F V]].
  - rewrite leb_spec, sub_spec, E. reflexivity.
  - rewrite leb_val in H by (trivial; reflexivity). apply Z.leb_le in H.
    destruct (SFsub_bounds (Prim2SF v) (Prim2SF (Math_PI * 2))
                (finite_nonneg v F V) two_pi_nonneg H) as ((_ & F' & V') & _).
    rewrite <- sub_spec in F', V'.
    rewrite leb_val by (trivial; reflexivity). now apply Z.leb_le.
Qed.

(** X17: when [normalizeAngle] ends on an angle that is not NaN, its result
    is at least [0] and below [2 * Math.PI]; an angle already in that range
    is returned unchanged, and NaN is returned as NaN. *)
Theorem normalizeAngle_range (fuel : nat) (angle r : Number) :
  (is_nan angle = false -> math.normalizeAngle fuel angle = Some r ->
     (0 <=? r) = true /\ (r <? Math_PI * 2) = true) /\
  ((0 <=? angle) = true -> (angle <? Math_PI * 2) = true ->
     math.normalizeAngle (S fuel) angle = Some angle) /\
  (is_nan angle = true -> math.normalizeAngle (S fuel) angle = Some angle).
Proof.
  unfold math.normalizeAngle. split; [|split].
  - intros Hn H.
    destruct (while fuel (fun a => a <? 0) (fun a => a + Math_PI * 2) angle)
      as [a1|] eqn:L1; [|discriminate].
    destruct (while_invariant (fun v => is_nan v = false) _ _
                (fun v Hv _ => eq_trans (add_finite_nan v _ two_pi_finite) Hv)
                fuel angle a1 Hn L1) as [N1 C1].
    assert (P1 : is_nan a1 = false /\ (0 <=? a1) = true).
    { split; trivial. apply not_ltb_leb; trivial. }
    destruct (while_invariant
                (fun v => is_nan v = false /\ (0 <=? v) = true) _ _
                (fun v Hv C =>
                   conj (eq_trans (sub_finite_nan v _ two_pi_finite) (proj1 Hv))
                        (sub_two_pi_nonneg v (proj2 Hv) C))
                fuel a1 r P1 H) as [[N2 Z2] C2].
    split; trivial. apply not_leb_ltb; trivial.
  - intros H0 H. cbn [while].
    assert (C1 : (angle <? 0) = false) by now apply leb_not_ltb.
    assert (C2 : (Math_PI * 2 <=? angle) = false).
    { destruct (Math_PI * 2 <=? angle) eqn:E; trivial.
      apply leb_not_ltb in E. congruence. }
    now rewrite C1, C2.
  - intros Hn. cbn [while]. apply is_nan_spec in Hn.
    assert (C1 : (angle <? 0) = false) by (rewrite ltb_spec, Hn; reflexivity).
    assert (C2 : (Math_PI * 2 <=? angle) = false)
      by (rewrite leb_spec, Hn; reflexivity).
    now rewrite C1, C2.
Qed.

Lemma normalizeAngle_range_witness :
  (0 <=? 5.2831853071795862) = true /\
  (5.2831853071795862 <? Math_PI * 2) = true.
Proof.
  apply (proj1 (normalizeAngle_range 3 (-1) 5.2831853071795862));
    reflexivity.
Defined.

End AngleLoops.

(** ** Negative Numbers *)

Section Opposites.

Local Open Scope Z_scope.

Lemma Zval_opp (a : spec_float) : Zval (SFopp a) = - Zval a.
Proof. destruct a as [s|s| |s m e]; cbn; try lia. destruct s; cbn; lia. Qed.

Lemma SFfinite_opp (a : spec_float) : SFfinite (SFopp a) = SFfinite a.
Proof. now destruct a. Qed.

Lemma binary_round_aux_opp (s : bool) (m e : Z) (l : location) :
  binary_round_aux prec emax (negb s) m e l
  = SFopp (binary_round_aux prec emax s m e l).
Proof.
  unfold binary_round_aux.
  destruct (shr_fexp prec emax m e l) as [mrs' e'].
  destruct (shr_fexp prec emax _ e' loc_Exact) as [mrs'' e''].
  destruct (shr_m mrs''); try reflexivity.
  destruct (e'' <=? emax - prec); reflexivity.
Qed.

Lemma binary_normalize_opp (n e : Z) :
  Zval (binary_normalize prec emax (- n) e false)
  = - Zval (binary_normalize prec emax n e false) /\
  SFfinite (binary_normalize prec emax (- n) e false)
  = SFfinite (binary_normalize prec emax n e false).
Proof.
  destruct n as [|p|p]; cbn [Z.opp binary_normalize]; [split; reflexivity| |];
    unfold binary_round; destruct (shl_align p e _) as [mz ez].
  - rewrite (binary_round_aux_opp false). now rewrite Zval_opp, SFfinite_opp.
  - rewrite (binary_round_aux_opp false). rewrite Zval_opp, SFfinite_opp.
    split; [lia|reflexivity].
Qed.

(** Exchanging the operands of a subtraction changes the sign of the
    result. *)
Lemma SFsub_swap (a b : spec_float) :
  Zval (SFsub prec emax a b) = - Zval (SFsub prec emax b a) /\
  SFfinite (SFsub prec emax a b) = SFfinite (SFsub prec emax b a).
Proof.
  destruct a as [sa|sa| |sa ma ea], b as [sb|sb| |sb mb eb];
    try (split; reflexivity); try (destruct sa, sb; split; reflexivity).
  - cbn [SFsub]. change (S754_finite (negb sb) mb eb)
      with (SFopp (S754_finite sb mb eb)).
    rewrite Zval_opp. split; [lia|reflexivity].
  - cbn [SFsub]. change (S754_finite (negb sa) ma ea)
      with (SFopp (S754_finite sa ma ea)).
    rewrite Zval_opp. split; [lia|reflexivity].
  - cbn [SFsub]. rewrite (Z.min_comm eb ea).
    set (A := cond_Zopp sa (Zpos (fst (shl_align ma ea (Z.min ea eb))))).
    set (B := cond_Zopp sb (Zpos (fst (shl_align mb eb (Z.min ea eb))))).
    replace (A - B) with (- (B - A)) by lia. apply binary_normalize_opp.
Qed.

Lemma val_opp (a : Number) : val (- a)%float = - val a.
Proof. unfold val. rewrite opp_spec. apply Zval_opp. Qed.

Lemma finite_opp (a : Number) : finite (- a)%float = finite a.
Proof. unfold finite. rewrite opp_spec. apply SFfinite_opp. Qed.

Lemma val_abs (a : Number) : val (abs a) = Z.abs (val a).
Proof.
  unfold val. rewrite abs_spec.
  destruct (Prim2SF a) as [s|s| |s m e]; cbn [SFabs Zval cond_Zopp];
    try reflexivity.
  assert (0 <= Zpos m * 2 ^ (e + 1074)).
  { apply Z.mul_nonneg_nonneg; [lia|]. apply Z.pow_nonneg. lia. }
  destruct s; cbn [cond_Zopp]; lia.
Qed.

Lemma finite_abs (a : Number) : finite (abs a) = finite a.
Proof. unfold finite. rewrite abs_spec. now destruct (Prim2SF a). Qed.

(** [a + b] is [b - (-a)]. *)
Lemma add_as_sub (a b : Number) : (a + b = b - (- a))%float.
Proof.
  apply Prim2SF_inj. rewrite add_spec, sub_spec, opp_spec.
  destruct (Prim2SF a) as [sa|sa| |sa ma ea], (Prim2SF b) as [sb|sb| |sb mb eb];
    lazymatch goal with
    | |- SF64add (S754_finite _ _ _) (S754_finite _ _ _) = _ => idtac
    | _ => try reflexivity; try (destruct sa; reflexivity);
           try (destruct sa, sb; reflexivity)
    end.
  unfold SF64add, SF64sub. cbn [SFadd SFsub SFopp].
  rewrite (Z.min_comm eb ea). f_equal. destruct sa; cbn [negb cond_Zopp]; lia.
Qed.

Lemma val_sub_swap (a b : Number) :
  val (a - b)%float = - val (b - a)%float /\
  finite (a - b)%float = finite (b - a)%float.
Proof. unfold val, finite. rewrite !sub_spec. apply SFsub_swap. Qed.

End Opposites.

(** ** normalizeAngle: when the loops end *)

Section AngleTermination.

Local Open Scope Z_scope.

Lemma val_two_pi :
  6 * 2 ^ 1074 < val (Math_PI * 2)%float < 7 * 2 ^ 1074.
Proof. vm_compute. split; reflexivity. Qed.

(** The two bounds of a difference of Numbers that are not negative. *)
Lemma sub_bounds (a b : Number) :
  finite a = true -> finite b = true -> 0 <= val b <= val a ->
  finite (a - b)%float = true /\ 0 <= val (a - b)%float /\
  (forall n, 0 <= n < 2 ^ 53 -> val a - val b <= n * 2 ^ 1074 ->
     val (a - b)%float <= n * 2 ^ 1074) /\
  (forall n, 0 <= n < 2 ^ 53 -> n * 2 ^ 1074 <= val a - val b ->
     n * 2 ^ 1074 <= val (a - b)%float) /\
  val (a - b)%float <= val a.
Proof.
  intros Fa Fb H. unfold val, finite in *. rewrite sub_spec.
  destruct (SFsub_bounds (Prim2SF a) (Prim2SF b)) as ((_ & F & V) & Up & Low).
  { split; [apply Prim2SF_valid|]. split; [trivial|lia]. }
  { split; [apply Prim2SF_valid|]. split; [trivial|lia]. }
  { lia. }
  split; [exact F|]. split; [exact V|]. split; [|split].
  - intros n Hn Hle. destruct (of_Z_value n Hn) as (Fn & Vn & _).
    unfold val, finite in *. rewrite <- Vn.
    apply Up; trivial; [apply Prim2SF_valid|]. now rewrite Vn.
  - intros n Hn Hle. destruct (of_Z_value n Hn) as (Fn & Vn & _).
    unfold val, finite in *. rewrite <- Vn.
    apply Low; trivial; [apply Prim2SF_valid|]. now rewrite Vn.
  - apply Up; trivial; [apply Prim2SF_valid|lia].
Qed.

(** One round of the first loop: a negative angle that is at least [-k]
    becomes an angle that is at least [6 - k] and at most [2 * Math.PI]. *)
Lemma add_two_pi (a : Number) (k : Z) :
  finite a = true -> val a < 0 -> 0 <= k < 2 ^ 52 ->
  - k * 2 ^ 1074 <= val a ->
  finite (a + Math_PI * 2)%float = true /\
  (6 - k) * 2 ^ 1074 <= val (a + Math_PI * 2)%float <= val (Math_PI * 2)%float.
Proof.
  intros F Hneg Hk Hlow. rewrite add_as_sub.
  pose proof val_two_pi as [P6 P7].
  pose proof (finite_opp a) as FA. pose proof (val_opp a) as VA.
  rewrite F in FA. set (A := (- a)%float) in *.
  set (S := 2 ^ 1074) in *.
  assert (HS : 0 < S) by (apply pow2_pos; lia).
  destruct (Z.le_gt_cases (val A) (val (Math_PI * 2)%float)) as [Hle|Hgt].
  - destruct (sub_bounds (Math_PI * 2)%float A two_pi_finite FA ltac:(lia))
      as (F' & V' & _ & Low & Up).
    split; [exact F'|]. split; [|exact Up].
    destruct (Z.le_gt_cases k 6) as [K|K].
    + apply Low; [lia|]. fold S. nia.
    + fold S in V' |- *. nia.
  - destruct (sub_bounds A (Math_PI * 2)%float FA two_pi_finite ltac:(lia))
      as (F' & V' & Up & _ & _).
    destruct (val_sub_swap (Math_PI * 2)%float A) as [-> ->].
    split; [exact F'|].
    assert (K : 7 <= k) by (clearbody S; nia).
    specialize (Up (k - 6) ltac:(lia)). fold S in Up.
    assert (U : val (A - Math_PI * 2)%float <= (k - 6) * S)
      by (apply Up; clearbody S; nia).
    clearbody S. split; nia.
Qed.

(** One round of the second loop. *)
Lemma sub_two_pi (a : Number) (k : Z) :
  finite a = true -> val (Math_PI * 2)%float <= val a <= k * 2 ^ 1074 ->
  0 <= k < 2 ^ 52 ->
  finite (a - Math_PI * 2)%float = true /\
  0 <= val (a - Math_PI * 2)%float <= (k - 6) * 2 ^ 1074.
Proof.
  intros F H Hk. pose proof val_two_pi as [P6 P7].
  set (S := 2 ^ 1074) in *.
  assert (HS : 0 < S) by (apply pow2_pos; lia).
  destruct (sub_bounds a (Math_PI * 2)%float F two_pi_finite ltac:(lia))
    as (F' & V' & Up & _ & _).
  split; [exact F'|]. split; [exact V'|].
  assert (K : 7 <= k) by (clearbody S; nia).
  apply Up; [lia|]. fold S. clearbody S. nia.
Qed.

Lemma first_loop (fuel : nat) :
  forall (a : Number) (k : Z),
  finite a = true -> 0 <= k < 2 ^ 52 -> - k * 2 ^ 1074 <= val a ->
  k <= 6 * Z.of_nat fuel ->
  exists r,
    while (S fuel) (fun a => a <? 0)%float (fun a => a + Math_PI * 2)%float a
    = Some r /\
    finite r = true /\ 0 <= val r <= Z.max (val a) (val (Math_PI * 2)%float).
Proof.
  induction fuel as [|fuel IH]; intros a k F Hk Hlow Hf.
  - exists a. cbn [while]. rewrite ltb_val by (trivial; reflexivity).
    change (val 0%float) with 0.
    assert (k = 0) by lia. subst k.
    rewrite (proj2 (Z.ltb_ge (val a) 0)) by lia. repeat split; trivial; lia.
  - remember (S fuel) as f eqn:Ef. cbn [while].
    rewrite ltb_val by (trivial; reflexivity). change (val 0%float) with 0.
    destruct (Z.ltb_spec (val a) 0) as [Hneg|Hpos].
    + destruct (add_two_pi a k F Hneg Hk Hlow) as (F' & L' & U').
      pose proof (pow2_pos 1074 ltac:(lia)) as HS.
      destruct (IH (a + Math_PI * 2)%float (Z.max (k - 6) 0) F' ltac:(lia))
        as (r & W & Fr & Vr); [nia|lia|].
      exists r. subst f. split; [exact W|]. split; [exact Fr|]. lia.
    + exists a. repeat split; trivial; lia.
Qed.

Lemma second_loop (fuel : nat) :
  forall (a : Number) (k : Z),
  finite a = true -> 0 <= val a <= k * 2 ^ 1074 -> 0 <= k < 2 ^ 52 ->
  k <= 6 * Z.of_nat fuel + 6 ->
  exists r,
    while (S fuel) (fun a => Math_PI * 2 <=? a)%float
      (fun a => a - Math_PI * 2)%float a = Some r /\
    finite r = true /\ 0 <= val r < val (Math_PI * 2)%float.
Proof.
  pose proof val_two_pi as [P6 P7].
  pose proof (pow2_pos 1074 ltac:(lia)) as HS.
  induction fuel as [|fuel IH]; intros a k F Hv Hk Hf.
  - exists a. cbn [while]. rewrite leb_val by (trivial; reflexivity).
    rewrite (proj2 (Z.leb_gt _ _)) by nia. repeat split; trivial; nia.
  - remember (S fuel) as f eqn:Ef. cbn [while].
    rewrite leb_val by (trivial; reflexivity).
    destruct (Z.leb_spec (val (Math_PI * 2)%float) (val a)) as [Hge|Hlt].
    + destruct (sub_two_pi a k F ltac:(lia) Hk) as (F' & V').
      destruct (IH (a - Math_PI * 2)%float (k - 6) F' V') as (r & W & Fr & Vr);
        [nia|lia|].
      exists r. subst f. repeat split; trivial; lia.
    + exists a. repeat split; trivial; lia.
Qed.

Lemma abs_leb_finite (a b : Number) :
  finite b = true -> (Math_abs a <=? b)%float = true -> finite a = true.
Proof.
  unfold finite, Math_abs. rewrite leb_spec, abs_spec. unfold SFleb.
  destruct (Prim2SF a) as [s|s| |s m e]; cbn [SFabs SFfinite]; trivial;
    destruct (Prim2SF b) as [s'|s'| |s' m' e']; cbn [SFfinite SFcompare];
    intros F H; try discriminate F; try discriminate H.
Qed.

(** X18: for an angle of absolute value at most [n], each of the two loops
    of [normalizeAngle] ends within [n / 6 + 2] rounds, and the result is
    at least [0] and below [2 * Math.PI]. *)
Theorem normalizeAngle_terminates (n : Z) (angle : Number) :
  0 <= n < 2 ^ 52 - 8 -> (Math_abs angle <=? of_Z n)%float = true ->
  exists r,
    math.normalizeAngle (Z.to_nat (n / 6) + 2) angle = Some r /\
    (0 <=? r)%float = true /\ (r <? Math_PI * 2)%float = true.
Proof.
  intros Hn H. destruct (of_Z_value n ltac:(lia)) as (Fn & Vn & _).
  pose proof val_two_pi as [P6 P7].
  pose proof (pow2_pos 1074 ltac:(lia)) as HS.
  pose proof (abs_leb_finite angle (of_Z n) Fn H) as F.
  assert (V : Z.abs (val angle) <= n * 2 ^ 1074).
  { unfold Math_abs in H. rewrite leb_val in H by (rewrite ?finite_abs; trivial).
    apply Z.leb_le in H. now rewrite val_abs, Vn in H. }
  replace (Z.to_nat (n / 6) + 2)%nat with (S (Z.to_nat (n / 6 + 1)))
    by (assert (0 <= n / 6) by (apply Z.div_pos; lia); lia).
  assert (D : n < 6 * (n / 6 + 1)) by dlia.
  destruct (first_loop (Z.to_nat (n / 6 + 1)) angle n F ltac:(lia) ltac:(lia))
    as (r1 & W1 & F1 & V1); [lia|].
  destruct (second_loop (Z.to_nat (n / 6 + 1)) r1 (Z.max n 7) F1)
    as (r & W2 & F2 & V2); [nia|lia|lia|].
  exists r. unfold math.normalizeAngle. rewrite W1, W2.
  split; [reflexivity|].
  rewrite leb_val, ltb_val by (trivial; reflexivity).
  change (val 0%float) with 0. split; [apply Z.leb_le|apply Z.ltb_lt]; lia.
Qed.

Lemma normalizeAngle_terminates_witness :
  exists r,
    math.normalizeAngle (Z.to_nat (100 / 6) + 2) (-100)%float = Some r /\
    (0 <=? r)%float = true /\ (r <? Math_PI * 2)%float = true.
Proof.
  apply (normalizeAngle_terminates 100 (-100)%float); [lia|reflexivity].
Defined.

End AngleTermination.

(** ** Sums and products within bounds *)

Section SignedBounds.

Local Open Scope Z_scope.

Lemma SFadd_bounds (a b : spec_float) :
  nonneg a -> nonneg b ->
  (forall w, valid_binary w = true -> SFfinite w = true ->
     Zval a + Zval b <= Zval w ->
     nonneg (SFadd prec emax a b) /\ Zval (SFadd prec emax a b) <= Zval w) /\
  (forall w, valid_binary w = true -> SFfinite w = true ->
     Zval w <= Zval a + Zval b -> SFfinite (SFadd prec emax a b) = true ->
     Zval w <= Zval (SFadd prec emax a b)).
Proof.
  intros Na Nb.
  destruct a as [sa|sa| |sa ma ea]; try (destruct Na as (_ & F & _); discriminate);
  destruct b as [sb|sb| |sb mb eb]; try (destruct Nb as (_ & F & _); discriminate).
  - assert (E : SFadd prec emax (S754_zero sa) (S754_zero sb) = S754_zero sa
                \/ SFadd prec emax (S754_zero sa) (S754_zero sb) = S754_zero false)
      by (destruct sa, sb; cbn; auto).
    destruct E as [-> | ->]; cbn [Zval]; split; intros;
      try (split; [apply nonneg_zero|]); cbn [Zval]; lia.
  - cbn [SFadd]. cbn [Zval] in *. split; intros; [split; [exact Nb|]|]; lia.
  - cbn [SFadd]. cbn [Zval] in *. split; intros; [split; [exact Na|]|]; lia.
  - pose proof (nonneg_finite_sign _ _ _ Na). pose proof (nonneg_finite_sign _ _ _ Nb).
    subst sa sb. cbn [SFadd cond_Zopp].
    pose proof Na as (Va & _ & _). pose proof Nb as (Vb & _ & _).
    pose proof (proj1 (valid_finite_iff _ _ _) Va) as (_ & Hea & _).
    pose proof (proj1 (valid_finite_iff _ _ _) Vb) as (_ & Heb & _).
    set (ez := Z.min ea eb).
    pose proof (aligned_value ma ea ez ltac:(unfold ez; lia) ltac:(unfold ez; lia)) as Ea.
    pose proof (aligned_value mb eb ez ltac:(unfold ez; lia) ltac:(unfold ez; lia)) as Eb.
    set (A := fst (shl_align ma ea ez)) in *.
    set (B := fst (shl_align mb eb ez)) in *.
    cbn [Zval cond_Zopp].
    change (Zpos A + Zpos B) with (Zpos (A + B)).
    cbn [binary_normalize].
    assert (Hez : -1074 <= ez) by (unfold ez; lia).
    assert (Ev : Zpos (A + B) * 2 ^ (ez + 1074)
                 = Zpos ma * 2 ^ (ea + 1074) + Zpos mb * 2 ^ (eb + 1074))
      by (rewrite Pos2Z.inj_add; lia).
    split.
    + intros w Vw Fw Hw. apply binary_round_upper; trivial. lia.
    + intros w Vw Fw Hw F. apply binary_round_lower; trivial. lia.
Qed.

(** A sum of two Numbers that are not negative, between two integers. *)
Lemma add_bounds (a b : Number) (lo hi : Z) :
  finite a = true -> finite b = true -> 0 <= val a -> 0 <= val b ->
  0 <= lo -> hi < 2 ^ 53 ->
  lo * 2 ^ 1074 <= val a + val b <= hi * 2 ^ 1074 ->
  finite (a + b)%float = true /\
  lo * 2 ^ 1074 <= val (a + b)%float <= hi * 2 ^ 1074.
Proof.
  intros Fa Fb Ha Hb Hlo Hhi H.
  pose proof (pow2_pos 1074 ltac:(lia)) as HS.
  assert (Hloh : lo <= hi) by nia.
  destruct (of_Z_value lo ltac:(lia)) as (Fl & Vl & _).
  destruct (of_Z_value hi ltac:(lia)) as (Fh & Vh & _).
  unfold val, finite in *. rewrite add_spec.
  destruct (SFadd_bounds (Prim2SF a) (Prim2SF b)) as (Up & Low).
  { split; [apply Prim2SF_valid|]. split; trivial. }
  { split; [apply Prim2SF_valid|]. split; trivial. }
  destruct (Up (Prim2SF (of_Z hi)) (Prim2SF_valid _) Fh ltac:(lia))
    as ((_ & F & _) & U).
  split; [exact F|]. split; [|unfold SF64add; lia].
  rewrite <- Vl. apply Low; trivial; [apply Prim2SF_valid|lia].
Qed.

Lemma opp_involutive (a : Number) : (- - a = a)%float.
Proof.
  apply Prim2SF_inj. rewrite !opp_spec.
  destruct (Prim2SF a) as [s|s| |s m e]; cbn [SFopp];
    now rewrite ?negb_involutive.
Qed.

Lemma mul_opp_l (a b : Number) : ((- a) * b = - (a * b))%float.
Proof.
  apply Prim2SF_inj. rewrite !mul_spec, !opp_spec, mul_spec.
  destruct (Prim2SF a) as [sa|sa| |sa ma ea], (Prim2SF b) as [sb|sb| |sb mb eb];
    try reflexivity; try (destruct sa, sb; reflexivity).
  unfold SF64mul. cbn [SFopp SFmul].
  rewrite <- binary_round_aux_opp. f_equal. now destruct sa, sb.
Qed.

(** [a + p] is [a - (-p)]. *)
Lemma add_sub_opp (a p : Number) : (a + p = a - (- p))%float.
Proof.
  apply Prim2SF_inj. rewrite add_spec, sub_spec, opp_spec.
  destruct (Prim2SF a) as [sa|sa| |sa ma ea], (Prim2SF p) as [sb|sb| |sb mb eb];
    lazymatch goal with
    | |- SF64add (S754_finite _ _ _) (S754_finite _ _ _) = _ => idtac
    | _ => try reflexivity; try (destruct sb; reflexivity);
           try (destruct sa, sb; reflexivity)
    end.
  unfold SF64add, SF64sub. cbn [SFadd SFsub SFopp].
  f_equal. destruct sb; cbn [negb cond_Zopp]; lia.
Qed.

(** A sum that is not negative, of a Number that is not negative and a
    Number of either sign, between two integers. *)
Lemma add_signed_bounds (a p : Number) (lo hi : Z) :
  finite a = true -> finite p = true -> 0 <= val a ->
  0 <= lo -> hi < 2 ^ 53 ->
  lo * 2 ^ 1074 <= val a + val p <= hi * 2 ^ 1074 ->
  finite (a + p)%float = true /\
  lo * 2 ^ 1074 <= val (a + p)%float <= hi * 2 ^ 1074.
Proof.
  intros Fa Fp Ha Hlo Hhi H.
  pose proof (pow2_pos 1074 ltac:(lia)) as HS.
  destruct (Z.le_gt_cases 0 (val p)) as [Hp|Hp].
  - now apply add_bounds.
  - rewrite add_sub_opp.
    pose proof (val_opp p) as Vq. pose proof (finite_opp p) as Fq.
    rewrite Fp in Fq.
    assert (Hloh : lo <= hi) by nia.
    destruct (sub_bounds a (- p)%float Fa Fq ltac:(nia))
      as (F & V & Up & Low & _).
    split; [exact F|]. split.
    + apply Low; lia.
    + apply Up; lia.
Qed.

(** A product by a factor between 0 and 1 lies between 0 and the other
    factor. *)
Lemma mul_bounds (d f : Number) :
  finite d = true -> finite f = true -> 0 <= val f <= 2 ^ 1074 ->
  finite (d * f)%float = true /\
  (0 <= val d -> 0 <= val (d * f)%float <= val d) /\
  (val d <= 0 -> val d <= val (d * f)%float <= 0) /\
  (val f = 0 -> val (d * f)%float = 0).
Proof.
  assert (P : forall d : Number, finite d = true -> 0 <= val d ->
              forall f : Number, finite f = true -> 0 <= val f <= 2 ^ 1074 ->
              finite (d * f)%float = true /\ 0 <= val (d * f)%float <= val d /\
              (val f = 0 -> val (d * f)%float = 0)).
  { clear d f. intros d Fd Hd f Ff Hf.
    pose proof (pow2_pos 1074 ltac:(lia)) as HS.
    unfold val, finite in *. rewrite mul_spec.
    assert (Nd : nonneg (Prim2SF d))
      by (split; [apply Prim2SF_valid|]; split; trivial).
    assert (Nf : nonneg (Prim2SF f))
      by (split; [apply Prim2SF_valid|]; split; trivial; lia).
    destruct (SFmul_upper (Prim2SF d) (Prim2SF f) (Prim2SF d) Nd Nf
                (Prim2SF_valid d) Fd ltac:(nia)) as ((_ & F & V) & U).
    repeat split; trivial.
    intros Z0.
    destruct (SFmul_upper (Prim2SF d) (Prim2SF f) (Prim2SF 0%float) Nd Nf
                (Prim2SF_valid _) eq_refl) as (_ & U0).
    { rewrite Z0. change (Zval (Prim2SF 0%float)) with 0. lia. }
    change (Zval (Prim2SF 0%float)) with 0 in U0. unfold SF64mul. lia. }
  intros Fd Ff Hf.
  destruct (Z.le_gt_cases 0 (val d)) as [Hd|Hd].
  - destruct (P d Fd Hd f Ff Hf) as (F & V & Z0).
    repeat split; trivial; try lia.
  - pose proof (val_opp d) as Vq. pose proof (finite_opp d) as Fq.
    rewrite Fd in Fq.
    destruct (P (- d)%float Fq ltac:(lia) f Ff Hf) as (F & V & Z0).
    assert (E : (d * f = - ((- d) * f))%float)
      by now rewrite mul_opp_l, opp_involutive.
    rewrite E, finite_opp, val_opp. repeat split; trivial; try lia.
Qed.

(** Multiplying by [1] changes nothing. *)
Lemma mul_one_r (a : Number) : (a * 1 = a)%float.
Proof.
  apply Prim2SF_inj. rewrite mul_spec.
  change (Prim2SF 1) with (S754_finite false 4503599627370496 (-52)).
  pose proof (Prim2SF_valid a) as Va.
  destruct (Prim2SF a) as [s|s| |s m e]; try reflexivity;
    try (destruct s; reflexivity).
  unfold SF64mul. cbn [SFmul]. rewrite xorb_false_r.
  assert (V1 : valid_binary (S754_finite false 4503599627370496 (-52)) = true)
    by reflexivity.
  destruct (binary_round_aux_canonical s (Zpos (m * 4503599627370496)) (e + -52)
              loc_Exact ltac:(lia) (mul_fine m 4503599627370496 e (-52) Va V1))
    as (u & _ & Hex & _ & ->).
  apply valid_finite_iff in Va. destruct Va as (Hm & He & Hc).
  assert (D : Zdigits2 (Zpos (m * 4503599627370496)) = Zdigits2 (Zpos m) + 52).
  { rewrite Pos2Z.inj_mul. change (Zpos 4503599627370496) with (2 ^ 52).
    apply Zdigits2_mul_pow2; lia. }
  assert (E1 : fexp prec emax (Zdigits2 (Zpos (m * 4503599627370496)) + (e + -52))
               = e).
  { rewrite D. replace (Zdigits2 (Zpos m) + 52 + (e + -52))
      with (Zdigits2 (Zpos m) + e) by lia.
    rewrite fexp_eq.
    pose proof (Zdigits2_bounds (Zpos m) ltac:(lia)) as B.
    destruct Hc as [->|Hc].
    - assert (Zdigits2 (Zpos m) <= 53) by (apply Zdigits2_le; lia). lia.
    - assert (53 <= Zdigits2 (Zpos m)) by (apply Zdigits2_ge; lia).
      assert (Zdigits2 (Zpos m) <= 53) by (apply Zdigits2_le; lia). lia. }
  rewrite E1 in *. replace (e - (e + -52)) with 52 in Hex by lia.
  rewrite Pos2Z.inj_mul in Hex. change (Zpos 4503599627370496) with (2 ^ 52) in Hex.
  rewrite Z.mod_mul, Z.div_mul in Hex by lia.
  rewrite (Hex eq_refl eq_refl). unfold pack.
  rewrite (proj2 (Z.eqb_neq (Zpos m) (2 ^ 53))) by lia.
  now rewrite (proj2 (Z.leb_le e 971)) by lia.
Qed.

End SignedBounds.

(** ** Interpolating colors *)

Section LerpColors.

Local Open Scope Z_scope.

Lemma sub_of_Z (n1 n2 : Z) :
  0 <= n1 < 2 ^ 53 -> 0 <= n2 < 2 ^ 53 ->
  finite (of_Z n2 - of_Z n1)%float = true /\
  val (of_Z n2 - of_Z n1)%float = (n2 - n1) * 2 ^ 1074.
Proof.
  intros H1 H2.
  pose proof (pow2_pos 1074 ltac:(lia)) as HS.
  destruct (of_Z_value n1 H1) as (F1 & V1 & _).
  destruct (of_Z_value n2 H2) as (F2 & V2 & _).
  assert (P : forall a b x y : Z, 0 <= x <= y -> y < 2 ^ 53 ->
              forall A B : Number, finite A = true -> finite B = true ->
              val A = x * 2 ^ 1074 -> val B = y * 2 ^ 1074 ->
              finite (B - A)%float = true /\
              val (B - A)%float = (y - x) * 2 ^ 1074).
  { intros _ _ x y Hxy Hy A B FA FB VA VB.
    destruct (sub_bounds B A FB FA ltac:(nia)) as (F & _ & Up & Low & _).
    split; [exact F|].
    specialize (Up (y - x) ltac:(lia) ltac:(nia)).
    specialize (Low (y - x) ltac:(lia) ltac:(nia)). lia. }
  destruct (Z.le_gt_cases n1 n2) as [H|H].
  - apply (P 0 0 n1 n2); trivial; lia.
  - destruct (val_sub_swap (of_Z n2) (of_Z n1)) as [-> ->].
    destruct (P 0 0 n2 n1 ltac:(lia) ltac:(lia) (of_Z n2) (of_Z n1))
      as (F & V); trivial.
    split; [exact F|]. rewrite V. ring.
Qed.

(** [lerp] between two integers, for a factor from 0 to 1. *)
Lemma lerp_channels (n1 n2 : Z) (f : Number) :
  0 <= n1 < 2 ^ 52 -> 0 <= n2 < 2 ^ 52 ->
  finite f = true -> 0 <= val f <= 2 ^ 1074 ->
  let L := math.lerp (of_Z n1) (of_Z n2) f in
  finite L = true /\
  Z.min n1 n2 * 2 ^ 1074 <= val L <= Z.max n1 n2 * 2 ^ 1074 /\
  (val f = 0 -> val L = n1 * 2 ^ 1074) /\
  (f = 1%float -> val L = n2 * 2 ^ 1074).
Proof.
  intros H1 H2 Ff Hf L. unfold math.lerp in L.
  pose proof (pow2_pos 1074 ltac:(lia)) as HS.
  destruct (of_Z_value n1 ltac:(lia)) as (F1 & V1 & _).
  destruct (sub_of_Z n1 n2 ltac:(lia) ltac:(lia)) as (Fd & Vd).
  set (d := (of_Z n2 - of_Z n1)%float) in *.
  destruct (mul_bounds d f Fd Ff Hf) as (Fp & Ppos & Pneg & Pzero).
  set (p := (d * f)%float) in *.
  assert (B : Z.min n1 n2 * 2 ^ 1074 <= val (of_Z n1) + val p
                  <= Z.max n1 n2 * 2 ^ 1074).
  { rewrite V1. destruct (Z.le_gt_cases n1 n2) as [H|H].
    - specialize (Ppos ltac:(nia)). nia.
    - specialize (Pneg ltac:(nia)). nia. }
  destruct (add_signed_bounds (of_Z n1) p (Z.min n1 n2) (Z.max n1 n2) F1 Fp)
    as (FL & VL); trivial; try lia.
  split; [exact FL|]. split; [exact VL|]. split.
  - intros Z0. specialize (Pzero Z0).
    destruct (add_signed_bounds (of_Z n1) p n1 n1 F1 Fp) as (_ & V);
      trivial; try lia. fold L in V. lia.
  - intros E. assert (Ep : p = d) by (unfold p; rewrite E; apply mul_one_r).
    destruct (add_signed_bounds (of_Z n1) p n2 n2 F1 Fp) as (_ & V);
      trivial; try lia; [rewrite Ep|fold L in V]; lia.
Qed.

(** A finite Number whose value is the integer [k] is [of_Z k], or [-0]. *)
Lemma integer_number (v : Number) (k : Z) :
  finite v = true -> val v = k * 2 ^ 1074 -> 0 <= k < 2 ^ 53 ->
  v = of_Z k \/ (k = 0 /\ v = neg_zero).
Proof.
  intros F V Hk.
  pose proof (pow2_pos 1074 ltac:(lia)) as HS.
  destruct (of_Z_value k Hk) as (Fk & Vk & Sk).
  destruct (SFsign (Prim2SF v)) eqn:Sv.
  - right. pose proof (Prim2SF_valid v) as Hv.
    unfold finite, val in *.
    destruct (Prim2SF v) as [s|s| |s m e] eqn:E; try discriminate;
      cbn [SFsign] in Sv; subst s.
    + cbn [Zval] in V. split; [nia|].
      apply Prim2SF_inj. now rewrite E.
    + apply valid_finite_iff in Hv. destruct Hv as (_ & He & _).
      cbn [Zval cond_Zopp] in V.
      assert (0 < 2 ^ (e + 1074)) by (apply pow2_pos; lia). nia.
  - left. apply val_inj; trivial; congruence.
Qed.

(** Rounding a [lerp] between two channels gives an integer between
    them. *)
Lemma round_lerp (n1 n2 : Z) (f : Number) :
  0 <= n1 <= 255 -> 0 <= n2 <= 255 ->
  finite f = true -> 0 <= val f <= 2 ^ 1074 ->
  exists k, Z.min n1 n2 <= k <= Z.max n1 n2 /\
    (Math_round (math.lerp (of_Z n1) (of_Z n2) f) = of_Z k \/
     (k = 0 /\ Math_round (math.lerp (of_Z n1) (of_Z n2) f) = neg_zero)) /\
    (val f = 0 -> k = n1) /\ (f = 1%float -> k = n2).
Proof.
  intros H1 H2 Ff Hf.
  destruct (lerp_channels n1 n2 f ltac:(lia) ltac:(lia) Ff Hf)
    as (FL & VL & L0 & L1).
  set (L := math.lerp (of_Z n1) (of_Z n2) f) in *.
  pose proof (pow2_pos 1074 ltac:(lia)) as HS.
  destruct (Math_round_value L FL ltac:(nia)) as (FR & VR).
  exists (nearest (val L)).
  assert (B : Z.min n1 n2 <= nearest (val L) <= Z.max n1 n2).
  { rewrite <- (nearest_integer (Z.min n1 n2)), <- (nearest_integer (Z.max n1 n2)).
    split; apply nearest_mono; lia. }
  split; [exact B|]. split.
  - apply integer_number; trivial. lia.
  - split; intros E.
    + rewrite (L0 E). apply nearest_integer.
    + rewrite (L1 E). apply nearest_integer.
Qed.

Lemma add_neg_zero (n : Z) :
  0 < n < 2 ^ 53 -> (of_Z n + neg_zero = of_Z n + of_Z 0)%float.
Proof.
  intros Hn. destruct (of_Z_value n ltac:(lia)) as (F & V & _).
  pose proof (pow2_pos 1074 ltac:(lia)) as HS.
  apply Prim2SF_inj. rewrite !add_spec.
  change (Prim2SF neg_zero) with (S754_zero true).
  change (Prim2SF (of_Z 0)) with (S754_zero false).
  unfold finite, val in *.
  destruct (Prim2SF (of_Z n)) as [s|s| |s m e]; try discriminate; trivial.
  cbn [Zval] in V. nia.
Qed.

(** [rgbToHex] on three channels that hold integers in [[0, 255]]. *)
Lemma rgbToHex_channels (r0 g0 b0 : Number) (kr kg kb : Z) :
  0 <= kr <= 255 -> 0 <= kg <= 255 -> 0 <= kb <= 255 ->
  r0 = of_Z kr \/ (kr = 0 /\ r0 = neg_zero) ->
  g0 = of_Z kg \/ (kg = 0 /\ g0 = neg_zero) ->
  b0 = of_Z kb \/ (kb = 0 /\ b0 = neg_zero) ->
  color.rgbToHex r0 g0 b0 = Some (String "#" (hex2 kr ++ hex2 kg ++ hex2 kb)).
Proof.
  intros Hr Hg Hb Er Eg Eb.
  rewrite <- (rgbToHex_of_Z kr kg kb Hr Hg Hb). unfold color.rgbToHex.
  assert (Sr : shl r0 16 = shl (of_Z kr) 16).
  { destruct Er as [->|[-> ->]]; reflexivity. }
  assert (Sg : shl g0 8 = shl (of_Z kg) 8).
  { destruct Eg as [->|[-> ->]]; reflexivity. }
  rewrite Sr, Sg. destruct Eb as [->|[-> ->]]; [reflexivity|].
  replace (shl 1%float 24) with (of_Z (2 ^ 24)) by (vm_compute; reflexivity).
  rewrite (shl_of_Z kr 16), (shl_of_Z kg 8) by lia.
  rewrite !add_of_Z by lia.
  rewrite add_neg_zero by lia.
  rewrite !add_of_Z by lia. reflexivity.
Qed.

Lemma leb_of_Z (a b : Z) :
  0 <= a < 2 ^ 53 -> 0 <= b < 2 ^ 53 -> (of_Z a <=? of_Z b)%float = (a <=? b).
Proof.
  intros Ha Hb. destruct (of_Z_value a Ha) as (Fa & Va & _).
  destruct (of_Z_value b Hb) as (Fb & Vb & _).
  pose proof (pow2_pos 1074 ltac:(lia)) as HS.
  rewrite leb_val, Va, Vb by trivial.
  destruct (Z.leb_spec a b), (Z.leb_spec (a * 2 ^ 1074) (b * 2 ^ 1074));
    trivial; nia.
Qed.

Lemma between_of_Z (n1 n2 k : Z) :
  0 <= n1 < 2 ^ 53 -> 0 <= n2 < 2 ^ 53 -> Z.min n1 n2 <= k <= Z.max n1 n2 ->
  (Math_min (of_Z n1) (of_Z n2) <=? of_Z k)%float = true /\
  (of_Z k <=? Math_max (of_Z n1) (of_Z n2))%float = true.
Proof.
  intros H1 H2 Hk.
  pose proof (of_Z_not_nan n1 H1) as N1. pose proof (of_Z_not_nan n2 H2) as N2.
  split.
  - destruct (Math_min_cases _ _ N1 N2) as [[-> L]|[-> L]];
      rewrite leb_of_Z in * by lia; apply Z.leb_le in L; apply Z.leb_le; lia.
  - destruct (Math_max_cases _ _ N1 N2) as [[-> L]|[-> L]];
      rewrite leb_of_Z in * by lia; apply Z.leb_le in L; apply Z.leb_le; lia.
Qed.

Lemma unit_factor (factor : Number) :
  (0 <=? factor)%float = true -> (factor <=? 1)%float = true ->
  finite factor = true /\ 0 <= val factor <= 2 ^ 1074.
Proof.
  intros H0 H1. destruct (nonneg_cases factor H0) as [E|[F V]].
  - rewrite leb_spec, E in H1. discriminate.
  - split; trivial. rewrite leb_val in H1 by (trivial; reflexivity).
    apply Z.leb_le in H1. destruct val_constants as (_ & V1 & _).
    rewrite V1 in H1. lia.
Qed.

End LerpColors.

Section LerpColorResults.

Local Open Scope Z_scope.

(** The color that [lerpColor] prints, channel by channel. *)
Lemma lerpColor_channels (color1 color2 : string) (factor : Number)
    (r1 g1 b1 r2 g2 b2 : Z) :
  color.hexToRgb color1
  = Some {| color.r := of_Z r1; color.g := of_Z g1; color.b := of_Z b1 |} ->
  color.hexToRgb color2
  = Some {| color.r := of_Z r2; color.g := of_Z g2; color.b := of_Z b2 |} ->
  0 <= r1 <= 255 /\ 0 <= g1 <= 255 /\ 0 <= b1 <= 255 ->
  0 <= r2 <= 255 /\ 0 <= g2 <= 255 /\ 0 <= b2 <= 255 ->
  finite factor = true -> 0 <= val factor <= 2 ^ 1074 ->
  exists kr kg kb,
    (Z.min r1 r2 <= kr <= Z.max r1 r2 /\ Z.min g1 g2 <= kg <= Z.max g1 g2 /\
     Z.min b1 b2 <= kb <= Z.max b1 b2) /\
    color.lerpColor color1 color2 factor
    = Some (String "#" (hex2 kr ++ hex2 kg ++ hex2 kb)) /\
    (val factor = 0 -> kr = r1 /\ kg = g1 /\ kb = b1) /\
    (factor = 1%float -> kr = r2 /\ kg = g2 /\ kb = b2).
Proof.
  intros E1 E2 (Hr1 & Hg1 & Hb1) (Hr2 & Hg2 & Hb2) Ff Hf.
  unfold color.lerpColor. rewrite E1, E2. cbn [color.r color.g color.b].
  destruct (round_lerp r1 r2 factor Hr1 Hr2 Ff Hf) as (kr & Br & Er & Zr & Or).
  destruct (round_lerp g1 g2 factor Hg1 Hg2 Ff Hf) as (kg & Bg & Eg & Zg & Og).
  destruct (round_lerp b1 b2 factor Hb1 Hb2 Ff Hf) as (kb & Bb & Eb & Zb & Ob).
  exists kr, kg, kb. split; [auto|]. split.
  - apply rgbToHex_channels; trivial; lia.
  - split; intros E; auto.
Qed.

(** X19: for two colors that parse and a factor from 0 to 1, [lerpColor]
    returns a color string that parses again, and each channel of the
    result lies between the corresponding channels of the two colors. *)
Theorem lerpColor_between (color1 color2 : string) (factor : Number)
    (c1 c2 : color.RGB) :
  color.hexToRgb color1 = Some c1 -> color.hexToRgb color2 = Some c2 ->
  (0 <=? factor)%float = true -> (factor <=? 1)%float = true ->
  exists hex c,
    color.lerpColor color1 color2 factor = Some hex /\
    color.hexToRgb hex = Some c /\
    ((Math_min (color.r c1) (color.r c2) <=? color.r c) = true /\
     (color.r c <=? Math_max (color.r c1) (color.r c2)) = true)%float /\
    ((Math_min (color.g c1) (color.g c2) <=? color.g c) = true /\
     (color.g c <=? Math_max (color.g c1) (color.g c2)) = true)%float /\
    ((Math_min (color.b c1) (color.b c2) <=? color.b c) = true /\
     (color.b c <=? Math_max (color.b c1) (color.b c2)) = true)%float.
Proof.
  intros E1 E2 H0 H1.
  destruct (hexToRgb_channels _ _ E1) as (r1 & g1 & b1 & R1 & ->).
  destruct (hexToRgb_channels _ _ E2) as (r2 & g2 & b2 & R2 & ->).
  destruct (unit_factor factor H0 H1) as (Ff & Hf).
  destruct (lerpColor_channels _ _ factor _ _ _ _ _ _ E1 E2 R1 R2 Ff Hf)
    as (kr & kg & kb & (Br & Bg & Bb) & E & _).
  destruct R1 as (Hr1 & Hg1 & Hb1), R2 as (Hr2 & Hg2 & Hb2).
  exists (String "#" (hex2 kr ++ hex2 kg ++ hex2 kb)),
    {| color.r := of_Z kr; color.g := of_Z kg; color.b := of_Z kb |}.
  split; [exact E|]. split; [apply hexToRgb_hex2; lia|].
  cbn [color.r color.g color.b].
  repeat split; apply between_of_Z; lia.
Qed.

Lemma lerpColor_between_witness :
  exists hex c,
    color.lerpColor "#ff0000" "#00ff00" 0.25%float = Some hex /\
    color.hexToRgb hex = Some c /\
    ((Math_min 255 0 <=? color.r c) = true /\
     (color.r c <=? Math_max 255 0) = true)%float /\
    ((Math_min 0 255 <=? color.g c) = true /\
     (color.g c <=? Math_max 0 255) = true)%float /\
    ((Math_min 0 0 <=? color.b c) = true /\
     (color.b c <=? Math_max 0 0) = true)%float.
Proof.
  apply (lerpColor_between "#ff0000" "#00ff00" 0.25%float
           {| color.r := 255%float; color.g := 0%float; color.b := 0%float |}
           {| color.r := 0%float; color.g := 255%float; color.b := 0%float |});
    reflexivity.
Defined.

(** X20: at factor [0] [lerpColor] returns the first color and at factor
    [1] the second, each in the form that [rgbToHex] prints (a [#] and six
    lower-case digits): the result parses to the same color as the
    argument. *)
Theorem lerpColor_endpoints (color1 color2 : string) (c1 c2 : color.RGB) :
  color.hexToRgb color1 = Some c1 -> color.hexToRgb color2 = Some c2 ->
  color.lerpColor color1 color2 0%float
  = color.rgbToHex (color.r c1) (color.g c1) (color.b c1) /\
  color.lerpColor color1 color2 1%float
  = color.rgbToHex (color.r c2) (color.g c2) (color.b c2) /\
  exists hex1 hex2,
    color.lerpColor color1 color2 0%float = Some hex1 /\
    color.hexToRgb hex1 = Some c1 /\
    color.lerpColor color1 color2 1%float = Some hex2 /\
    color.hexToRgb hex2 = Some c2.
Proof.
  intros E1 E2.
  destruct (hexToRgb_channels _ _ E1) as (r1 & g1 & b1 & R1 & ->).
  destruct (hexToRgb_channels _ _ E2) as (r2 & g2 & b2 & R2 & ->).
  destruct val_constants as (V0 & V1 & _).
  pose proof (pow2_pos 1074 ltac:(lia)) as HS.
  destruct (lerpColor_channels _ _ 0%float _ _ _ _ _ _ E1 E2 R1 R2 eq_refl)
    as (kr & kg & kb & _ & L0 & Z0 & _); [rewrite V0; lia|].
  destruct (Z0 V0) as (-> & -> & ->).
  destruct (lerpColor_channels _ _ 1%float _ _ _ _ _ _ E1 E2 R1 R2 eq_refl)
    as (kr & kg & kb & _ & L1 & _ & O1); [rewrite V1; lia|].
  destruct (O1 eq_refl) as (-> & -> & ->).
  destruct R1 as (Hr1 & Hg1 & Hb1), R2 as (Hr2 & Hg2 & Hb2).
  cbn [color.r color.g color.b]. rewrite !rgbToHex_of_Z by trivial.
  split; [exact L0|]. split; [exact L1|].
  exists (String "#" (hex2 r1 ++ hex2 g1 ++ hex2 b1)),
    (String "#" (hex2 r2 ++ hex2 g2 ++ hex2 b2)).
  split; [exact L0|]. split; [now apply hexToRgb_hex2|].
  split; [exact L1|]. now apply hexToRgb_hex2.
Qed.

Lemma lerpColor_endpoints_witness :
  color.lerpColor "#FF8000" "0080ff" 0%float
  = color.rgbToHex 255%float 128%float 0%float.
Proof.
  apply (lerpColor_endpoints "#FF8000" "0080ff"
           {| color.r := 255%float; color.g := 128%float; color.b := 0%float |}
           {| color.r := 0%float; color.g := 128%float; color.b := 255%float |});
    reflexivity.
Defined.

End LerpColorResults.

(** ** debounce and throttle *)

Section Traces.

Context {A : Type}.

Local Open Scope Z_scope.

(** The clock after a trace of events, and the calls in it with their
    times. *)
Definition history (trace : list (general.event A)) : Z * list (Z * A) :=
  fold_left
    (fun '(c, l) e =>
       match e with
       | general.Call a => (c, l ++ (c, a) :: nil)
       | general.Wait dt => (c + Z.max 0 dt, l)
       | general.Fire _ => (c, l)
       end)
    trace (0, nil).

Definition clock (trace : list (general.event A)) : Z := fst (history trace).

Definition call_log (trace : list (general.event A)) : list (Z * A) :=
  snd (history trace).

Lemma history_snoc (trace : list (general.event A)) (e : general.event A) :
  history (trace ++ e :: nil)
  = match e with
    | general.Call a => (clock trace, call_log trace ++ (clock trace, a) :: nil)
    | general.Wait dt => (clock trace + Z.max 0 dt, call_log trace)
    | general.Fire _ => (clock trace, call_log trace)
    end.
Proof.
  unfold clock, call_log, history. rewrite fold_left_app. cbn [fold_left].
  destruct (fold_left _ trace (0, nil)) as [c l]. now destruct e.
Qed.

Lemma clock_snoc (trace : list (general.event A)) (e : general.event A) :
  clock (trace ++ e :: nil)
  = match e with
    | general.Wait dt => clock trace + Z.max 0 dt
    | _ => clock trace
    end.
Proof. unfold clock at 1. rewrite history_snoc. now destruct e. Qed.

Lemma call_log_snoc (trace : list (general.event A)) (e : general.event A) :
  call_log (trace ++ e :: nil)
  = match e with
    | general.Call a => call_log trace ++ (clock trace, a) :: nil
    | _ => call_log trace
    end.
Proof. unfold call_log at 1. rewrite history_snoc. now destruct e. Qed.

Lemma last_snoc (B : Type) (l : list B) (x d : B) : last (l ++ x :: nil) d = x.
Proof.
  induction l as [|y l IH]; [reflexivity|].
  cbn [app last]. destruct (l ++ x :: nil) eqn:E; [|exact IH].
  destruct l; discriminate.
Qed.

End Traces.

Section DebounceProperties.

Context {A : Type}.
Variable wait : Number.

Local Open Scope Z_scope.

Lemma debounce_run_snoc (trace : list (general.event A)) (e : general.event A) :
  general.debounce_run wait (trace ++ e :: nil)
  = general.debounce_step wait (general.debounce_run wait trace) e.
Proof. unfold general.debounce_run. now rewrite fold_left_app. Qed.

(** What holds of a debounced function after every trace: its clock is
    the trace's, and it has no timer, or one timer that [timeout] names
    and that holds the arguments of the last call, due [wait] after it. *)
Definition debounce_invariant (trace : list (general.event A))
    (s : general.Debounced A) : Prop :=
  timers.now (general.host s) = clock trace /\
  (timers.active (general.host s) = nil \/
   exists t d,
     timers.active (general.host s) = t :: nil /\
     general.timeout s = Some (timers.id t) /\
     timers.due t = fst (last (call_log trace) d) + timers.delay_ms wait /\
     timers.callback t = snd (last (call_log trace) d) /\
     call_log trace <> nil) /\
  (List.length (general.invoked s) + List.length (timers.active (general.host s))
   <= List.length (call_log trace))%nat.

Lemma filter_own (t : timers.Timer A) :
  filter (fun t' => negb (Nat.eqb (timers.id t') (timers.id t))) (t :: nil) = nil.
Proof. cbn [filter]. now rewrite Nat.eqb_refl. Qed.

Lemma debounce_invariant_holds (trace : list (general.event A)) :
  debounce_invariant trace (general.debounce_run wait trace).
Proof.
  induction trace as [|e trace IH] using rev_ind.
  - repeat split; auto.
  - rewrite debounce_run_snoc.
    destruct IH as (Hn & Ht & Hc).
    set (s := general.debounce_run wait trace) in *.
    destruct e as [a|dt|n]; cbn [general.debounce_step].
    + (* a call: the old timer is cleared, a new one is set *)
      unfold debounce_invariant, general.executedFunction.
      assert (E : timers.active (timers.clearTimeout (general.timeout s)
                                   (general.host s)) = nil).
      { destruct Ht as [E|(t & d & E & Et & _)].
        - destruct (general.timeout s); cbn [timers.clearTimeout timers.active];
            rewrite ?E; reflexivity.
        - rewrite Et. cbn [timers.clearTimeout timers.active].
          rewrite E. apply filter_own. }
      assert (N : timers.now (timers.clearTimeout (general.timeout s)
                                (general.host s)) = clock trace).
      { destruct (general.timeout s); exact Hn. }
      cbn [timers.setTimeout general.host general.timeout general.invoked
           timers.now timers.active].
      rewrite E, N, clock_snoc, call_log_snoc. cbn [app].
      split; [reflexivity|]. split.
      * right. eexists. exists (0, a). split; [reflexivity|].
        cbn [timers.id timers.due timers.callback].
        rewrite last_snoc. cbn [fst snd]. repeat split.
        intros C. now destruct (call_log trace).
      * rewrite List.length_app. cbn [List.length].
        assert (List.length (general.invoked s) <= List.length (call_log trace))%nat by lia.
        lia.
    + (* time passes *)
      unfold debounce_invariant.
      cbn [general.host general.timeout general.invoked timers.elapse
           timers.now timers.active].
      rewrite clock_snoc, call_log_snoc. split; [now rewrite Hn|].
      split; [exact Ht|exact Hc].
    + (* the host runs a timer *)
      unfold timers.take.
      destruct Ht as [E|(t & d & E & Et & Ed & Ec & Hne)].
      * rewrite E. cbn [find].
        unfold debounce_invariant. rewrite clock_snoc, call_log_snoc.
        split; [exact Hn|]. split; [now left|exact Hc].
      * rewrite E. cbn [find].
        destruct (Nat.eqb (timers.id t) n) eqn:En;
          [destruct (timers.due t <=? timers.now (general.host s)) eqn:Ed'|];
          try (unfold debounce_invariant; rewrite clock_snoc, call_log_snoc;
               split; [exact Hn|]; split; [|exact Hc];
               right; exists t, d; repeat split; trivial).
        apply Nat.eqb_eq in En. subst n.
        unfold debounce_invariant, general.later.
        cbn [general.host general.timeout general.invoked].
        rewrite Et. cbn [timers.clearTimeout timers.now timers.active].
        rewrite E, filter_own. cbn [filter].
        rewrite clock_snoc, call_log_snoc.
        split; [exact Hn|]. split; [now left|].
        rewrite List.length_app. rewrite E in Hc. cbn [List.length] in *. lia.
Qed.

(** X21: a debounced function keeps at most one timer, and [func] has run
    at most once for each call.  When the host runs a timer, [func] runs
    at most once, with the arguments of the most recent call, and that
    call was made at least [wait] milliseconds before. *)
Theorem debounce_invokes_last_call (trace : list (general.event A)) (n : nat) :
  let s := general.debounce_run wait trace in
  let s' := general.debounce_run wait (trace ++ general.Fire n :: nil) in
  (List.length (timers.active (general.host s)) <= 1)%nat /\
  (List.length (general.invoked s) + List.length (timers.active (general.host s))
   <= List.length (call_log trace))%nat /\
  (general.invoked s' = general.invoked s \/
   exists t0 a,
     (forall d, last (call_log trace) d = (t0, a)) /\ call_log trace <> nil /\
     t0 + timers.delay_ms wait <= clock trace /\
     general.invoked s' = general.invoked s ++ (clock trace, a) :: nil).
Proof.
  cbv zeta. rewrite debounce_run_snoc.
  destruct (debounce_invariant_holds trace) as (Hn & Ht & Hc).
  set (s := general.debounce_run wait trace) in *.
  split; [|split; [exact Hc|]].
  - destruct Ht as [E|(t & d & E & _)]; rewrite E; cbn [List.length]; lia.
  - cbn [general.debounce_step]. unfold timers.take.
    destruct Ht as [E|(t & d & E & Et & Ed & Ec & Hne)]; rewrite E; cbn [find];
      [now left|].
    destruct (Nat.eqb (timers.id t) n) eqn:En; [|now left].
    destruct (Z.leb_spec (timers.due t) (timers.now (general.host s)))
      as [Hdue|Hdue]; [|now left].
    right. exists (fst (last (call_log trace) d)), (snd (last (call_log trace) d)).
    split; [|split; [exact Hne|split]].
    + intros d'. rewrite <- surjective_pairing.
      destruct (call_log trace) as [|x l] eqn:El; [congruence|].
      clear. revert x. induction l as [|y l IH]; intros x; [reflexivity|].
      cbn [last]. apply IH.
    + rewrite <- Ed, <- Hn. exact Hdue.
    + unfold general.later. cbn [general.invoked general.host general.timeout].
      rewrite Et, <- Ec, <- Hn. apply Nat.eqb_eq in En. subst n.
      reflexivity.
Qed.

(** X22: after any history, a call leaves one timer pending, its own:
    what was pending before the call is cancelled.  When a pause of the
    delay or more follows and the host then runs that timer, [func] runs
    exactly once more, at that time and with the arguments of that call. *)
Theorem debounce_after_quiet (trace : list (general.event A)) (a : A) (dt : Z) :
  timers.delay_ms wait <= dt ->
  exists n,
    general.timeout (general.debounce_run wait (trace ++ general.Call a :: nil))
    = Some n /\
    timers.active
      (general.host (general.debounce_run wait (trace ++ general.Call a :: nil)))
    = {| timers.id := n; timers.due := clock trace + timers.delay_ms wait;
         timers.callback := a |} :: nil /\
    general.invoked
      (general.debounce_run wait
         (trace ++ general.Call a :: general.Wait dt :: general.Fire n :: nil))
    = general.invoked (general.debounce_run wait trace)
      ++ (clock trace + dt, a) :: nil.
Proof.
  intros Hdt.
  destruct (debounce_invariant_holds trace) as (Hn & Ht & _).
  assert (W : 0 <= timers.delay_ms wait) by (unfold timers.delay_ms; lia).
  set (s := general.debounce_run wait trace) in *.
  assert (E : timers.active (timers.clearTimeout (general.timeout s)
                               (general.host s)) = nil).
  { destruct Ht as [E|(t & d & E & Et & _)].
    - destruct (general.timeout s); cbn [timers.clearTimeout timers.active];
        rewrite ?E; reflexivity.
    - rewrite Et. cbn [timers.clearTimeout timers.active].
      rewrite E. apply filter_own. }
  assert (N : timers.now (timers.clearTimeout (general.timeout s)
                            (general.host s)) = clock trace).
  { destruct (general.timeout s); exact Hn. }
  assert (I : timers.next_id (timers.clearTimeout (general.timeout s)
                                (general.host s))
              = timers.next_id (general.host s)).
  { now destruct (general.timeout s). }
  exists (timers.next_id (general.host s)).
  unfold general.debounce_run. rewrite !fold_left_app.
  fold (general.debounce_run wait trace). fold s.
  cbn [fold_left general.debounce_step].
  unfold general.executedFunction.
  cbn [timers.setTimeout general.timeout general.host general.invoked].
  rewrite I. split; [reflexivity|].
  split; [cbn [timers.active]; now rewrite E, N|].
  unfold timers.take.
  cbn [timers.elapse timers.active timers.now general.host general.timeout
       general.invoked].
  rewrite E, N. cbn [app find timers.id].
  rewrite Nat.eqb_refl. cbn [timers.due].
  rewrite (proj2 (Z.leb_le _ _)) by lia.
  unfold general.later.
  cbn [general.invoked general.host general.timeout timers.clearTimeout
       timers.now timers.callback].
  cbn [timers.elapse timers.now]. now replace (Z.max 0 dt) with dt by lia.
Qed.

End DebounceProperties.

Lemma debounce_after_quiet_witness :
  exists n,
    general.timeout
      (general.debounce_run 100%float
         ((general.Call 1%nat :: general.Wait 30 :: nil) ++ general.Call 2%nat :: nil))
    = Some n /\
    timers.active
      (general.host
         (general.debounce_run 100%float
            ((general.Call 1%nat :: general.Wait 30 :: nil)
             ++ general.Call 2%nat :: nil)))
    = {| timers.id := n;
         timers.due := (clock (general.Call 1%nat :: general.Wait 30 :: nil)
                        + timers.delay_ms 100%float)%Z;
         timers.callback := 2%nat |} :: nil /\
    general.invoked
      (general.debounce_run 100%float
         ((general.Call 1%nat :: general.Wait 30 :: nil)
          ++ general.Call 2%nat :: general.Wait 100 :: general.Fire n :: nil))
    = general.invoked
        (general.debounce_run 100%float (general.Call 1%nat :: general.Wait 30 :: nil))
      ++ ((clock (general.Call 1%nat :: general.Wait 30 :: nil) + 100)%Z, 2%nat) :: nil.
Proof.
  apply (debounce_after_quiet 100%float
           (general.Call 1%nat :: general.Wait 30 :: nil) 2%nat 100).
  vm_compute. discriminate.
Defined.

Section ThrottleProperties.

Context {A : Type}.
Variable limit : Number.

Local Open Scope Z_scope.

(** Consecutive entries of a log are at least [w] apart. *)
Fixpoint spaced (w : Z) (log : list (Z * A)) : Prop :=
  match log with
  | (t1, _) :: rest =>
      match rest with
      | (t2, _) :: _ => t1 + w <= t2 /\ spaced w rest
      | nil => True
      end
  | nil => True
  end.

Lemma spaced_snoc (w : Z) (log : list (Z * A)) (x d : Z * A) :
  spaced w log -> (log = nil \/ fst (last log d) + w <= fst x) ->
  spaced w (log ++ x :: nil).
Proof.
  induction log as [|[t1 a1] log IH]; intros H L.
  - destruct x. exact I.
  - destruct log as [|[t2 a2] log].
    + destruct x as [t a]. cbn [app spaced]. split; [|exact I].
      destruct L as [L|L]; [discriminate|exact L].
    + cbn [app spaced] in *. destruct H as [H1 H2]. split; [exact H1|].
      apply IH; trivial. right. destruct L as [L|L]; [discriminate|exact L].
Qed.

Lemma throttle_run_snoc (trace : list (general.event A)) (e : general.event A) :
  general.throttle_run limit (trace ++ e :: nil)
  = general.throttle_step limit (general.throttle_run limit trace) e.
Proof. unfold general.throttle_run. now rewrite fold_left_app. Qed.

(** What holds of a throttled function after every trace.  While
    [inThrottle] is false there is no timer and the window of the last
    application is over; while it is true there is one timer, due at the
    end of the window. *)
Definition throttle_invariant (trace : list (general.event A))
    (s : general.Throttled A) : Prop :=
  timers.now (general.throttle_host s) = clock trace /\
  spaced (timers.delay_ms limit) (general.applied s) /\
  incl (general.applied s) (call_log trace) /\
  ((general.inThrottle s = false /\
    timers.active (general.throttle_host s) = nil /\
    (general.applied s = nil \/
     forall d, fst (last (general.applied s) d) + timers.delay_ms limit
               <= clock trace)) \/
   (general.inThrottle s = true /\
    exists t, timers.active (general.throttle_host s) = t :: nil /\
              general.applied s <> nil /\
              forall d, timers.due t
                        = fst (last (general.applied s) d)
                          + timers.delay_ms limit)).

Lemma last_nonempty (B : Type) (l : list B) (d d' : B) :
  l <> nil -> last l d = last l d'.
Proof.
  induction l as [|x l IH]; [congruence|]. intros _.
  destruct l as [|y l]; [reflexivity|]. cbn [last] in *. apply IH. discriminate.
Qed.

Lemma throttle_invariant_holds (trace : list (general.event A)) :
  throttle_invariant trace (general.throttle_run limit trace).
Proof.
  assert (W : 0 <= timers.delay_ms limit) by (unfold timers.delay_ms; lia).
  induction trace as [|e trace IH] using rev_ind.
  - split; [reflexivity|]. split; [exact I|]. split; [intros x []|].
    left. auto.
  - rewrite throttle_run_snoc. destruct IH as (Hn & Hs & Hi & Hc).
    set (s := general.throttle_run limit trace) in *.
    destruct e as [a|dt|n]; cbn [general.throttle_step].
    + (* a call *)
      unfold general.throttled.
      destruct Hc as [(Hf & Ha & Hl)|(Hf & t & Ha & Hne & Hd)]; rewrite Hf;
        cbn [negb].
      * unfold throttle_invariant.
        cbn [timers.setTimeout general.throttle_host general.applied
             general.inThrottle timers.now timers.active].
        rewrite clock_snoc, call_log_snoc, Ha, Hn. cbn [app].
        split; [reflexivity|]. split; [|split].
        -- apply (spaced_snoc _ _ _ (0, a)); trivial.
           destruct Hl as [Hl|Hl]; [now left|right]. cbn [fst]. apply Hl.
        -- intros x Hx. apply in_app_or in Hx. apply in_or_app.
           destruct Hx as [Hx|Hx]; [left; now apply Hi|now right].
        -- right. split; [reflexivity|]. eexists. split; [reflexivity|].
           split; [intros C; now destruct (general.applied s)|].
           intros d. cbn [timers.due]. now rewrite last_snoc.
      * unfold throttle_invariant. rewrite clock_snoc, call_log_snoc.
        split; [exact Hn|]. split; [exact Hs|]. split.
        -- intros x Hx. apply in_or_app. left. now apply Hi.
        -- right. split; [exact Hf|]. now exists t.
    + (* time passes *)
      unfold throttle_invariant.
      cbn [general.throttle_host general.applied general.inThrottle
           timers.elapse timers.now timers.active].
      rewrite clock_snoc, call_log_snoc, Hn.
      split; [reflexivity|]. split; [exact Hs|]. split; [exact Hi|].
      destruct Hc as [(Hf & Ha & Hl)|(Hf & t & Ha & Hne & Hd)].
      * left. repeat split; trivial.
        destruct Hl as [Hl|Hl]; [now left|right]. intros d.
        specialize (Hl d). lia.
      * right. split; [exact Hf|]. now exists t.
    + (* the host runs a timer *)
      unfold timers.take.
      destruct Hc as [(Hf & Ha & Hl)|(Hf & t & Ha & Hne & Hd)]; rewrite Ha;
        cbn [find].
      * unfold throttle_invariant. rewrite clock_snoc, call_log_snoc.
        split; [exact Hn|]. split; [exact Hs|]. split; [exact Hi|].
        left. auto.
      * destruct (Nat.eqb (timers.id t) n) eqn:En;
          [destruct (Z.leb_spec (timers.due t)
                       (timers.now (general.throttle_host s))) as [Hdue|Hdue]|];
          try (unfold throttle_invariant; rewrite clock_snoc, call_log_snoc;
               split; [exact Hn|]; split; [exact Hs|]; split; [exact Hi|];
               right; split; [exact Hf|]; now exists t).
        unfold throttle_invariant.
        cbn [general.throttle_host general.applied general.inThrottle
             timers.clearTimeout timers.now timers.active].
        rewrite clock_snoc, call_log_snoc, Ha.
        apply Nat.eqb_eq in En. subst n. rewrite filter_own.
        split; [exact Hn|]. split; [exact Hs|]. split; [exact Hi|].
        left. repeat split. right. intros d. rewrite <- Hd, <- Hn. exact Hdue.
Qed.

(** X23: a throttled function applies [func] only at the moment of a call
    and with the arguments of that call, and two consecutive applications
    are at least the delay of [limit] apart; calls in between are dropped
    and never replayed. *)
Theorem throttle_spacing (trace : list (general.event A)) :
  let s := general.throttle_run limit trace in
  spaced (timers.delay_ms limit) (general.applied s) /\
  incl (general.applied s) (call_log trace) /\
  (forall a, general.inThrottle s = true ->
     general.throttle_run limit (trace ++ general.Call a :: nil) = s).
Proof.
  cbv zeta. destruct (throttle_invariant_holds trace) as (_ & Hs & Hi & _).
  split; [exact Hs|]. split; [exact Hi|].
  intros a H. rewrite throttle_run_snoc. cbn [general.throttle_step].
  unfold general.throttled. now rewrite H.
Qed.

(** Whatever happens to a throttled function, the applications made so
    far stay, in their order. *)
Lemma throttle_applied_grows (rest : list (general.event A))
    (s : general.Throttled A) :
  exists l, general.applied (fold_left (general.throttle_step limit) rest s)
            = general.applied s ++ l.
Proof.
  revert s. induction rest as [|e rest IH]; intros s.
  - exists nil. cbn [fold_left]. now rewrite app_nil_r.
  - cbn [fold_left].
    destruct (IH (general.throttle_step limit s e)) as [l ->].
    destruct e as [b|dt|k]; cbn [general.throttle_step].
    + unfold general.throttled.
      destruct (general.inThrottle s); cbn [negb timers.setTimeout general.applied];
        [now exists l|].
      eexists. rewrite <- app_assoc. reflexivity.
    + now exists l.
    + destruct (timers.take k (general.throttle_host s)) as [[? ?]|];
        now exists l.
Qed.

(** X24: a call made while the function is not throttled (the first call,
    or any call after the timer of the last application has run) applies
    [func] at once.  So the first call of a history is applied at the moment
    it is made, whatever went before and whatever follows.  [inThrottle] is
    set exactly while a timer is pending, and the timer cannot run before
    the delay has passed. *)
Theorem throttle_leading_edge (trace : list (general.event A)) (a : A) (n : nat) :
  let s := general.throttle_run limit trace in
  (general.inThrottle s = false ->
     general.applied (general.throttle_run limit (trace ++ general.Call a :: nil))
     = general.applied s ++ (clock trace, a) :: nil) /\
  (call_log trace = nil ->
   forall rest,
     hd_error (general.applied
                 (general.throttle_run limit (trace ++ general.Call a :: rest)))
     = Some (clock trace, a)) /\
  (general.inThrottle s = true <-> timers.active (general.throttle_host s) <> nil) /\
  (general.inThrottle s = true ->
   general.inThrottle
     (general.throttle_run limit (trace ++ general.Fire n :: nil)) = false ->
   forall d, fst (last (general.applied s) d) + timers.delay_ms limit
             <= clock trace).
Proof.
  cbv zeta. destruct (throttle_invariant_holds trace) as (Hn & Hs & Hi & Hc).
  set (s := general.throttle_run limit trace) in *.
  assert (First : general.inThrottle s = false ->
            general.applied (general.throttle_step limit s (general.Call a))
            = general.applied s ++ (clock trace, a) :: nil).
  { intros H. cbn [general.throttle_step]. unfold general.throttled.
    rewrite H. cbn [negb general.applied]. now rewrite Hn. }
  split; [|split; [|split]].
  - intros H. rewrite throttle_run_snoc. fold s. now apply First.
  - intros Hlog rest.
    assert (Ha : general.applied s = nil).
    { destruct (general.applied s) as [|x l] eqn:Ea; trivial. exfalso.
      assert (Hx : In x (call_log trace)) by (apply Hi; rewrite ?Ea; now left).
      rewrite Hlog in Hx. destruct Hx. }
    assert (Hf : general.inThrottle s = false).
    { destruct Hc as [(Hf & _)|(_ & t & _ & Hne & _)]; [exact Hf|contradiction]. }
    unfold general.throttle_run. rewrite fold_left_app. cbn [fold_left].
    fold (general.throttle_run limit trace). fold s.
    destruct (throttle_applied_grows rest
                (general.throttle_step limit s (general.Call a))) as [l ->].
    rewrite (First Hf), Ha. reflexivity.
  - destruct Hc as [(Hf & Ha & _)|(Hf & t & Ha & _)]; rewrite Hf, Ha;
      split; congruence.
  - intros Ht. rewrite throttle_run_snoc. cbn [general.throttle_step].
    fold s. unfold timers.take.
    destruct Hc as [(Hf & _)|(_ & t & Ha & Hne & Hd)]; [congruence|].
    rewrite Ha. cbn [find].
    destruct (Nat.eqb (timers.id t) n);
      [destruct (Z.leb_spec (timers.due t)
                   (timers.now (general.throttle_host s))) as [Hdue|Hdue]|];
      try (intros C; congruence).
Qed.

End ThrottleProperties.

Lemma throttle_leading_edge_witness :
  general.applied
    (general.throttle_run 100%float
       ((general.Wait 10 :: nil) ++ general.Call 1%nat :: nil))
  = general.applied (general.throttle_run 100%float (general.Wait 10 :: nil))
    ++ (@clock nat (general.Wait 10 :: nil), 1%nat) :: nil /\
  hd_error
    (general.applied
       (general.throttle_run 100%float
          ((general.Wait 10 :: nil)
           ++ general.Call 1%nat :: general.Wait 5 :: general.Call 2%nat :: nil)))
  = Some (@clock nat (general.Wait 10 :: nil), 1%nat).
Proof.
  pose proof (throttle_leading_edge 100%float (general.Wait 10 :: nil) 1%nat 0)
    as (H1 & H2 & _).
  split; [exact (H1 eq_refl)|].
  exact (H2 eq_refl (general.Wait 5 :: general.Call 2%nat :: nil)).
Defined.

Lemma throttle_spacing_witness :
  general.throttle_run 100%float
    ((general.Call 1%nat :: general.Wait 10 :: nil) ++ general.Call 2%nat :: nil)
  = general.throttle_run 100%float (general.Call 1%nat :: general.Wait 10 :: nil).
Proof.
  exact (proj2 (proj2 (throttle_spacing 100%float
                         (general.Call 1%nat :: general.Wait 10 :: nil)))
           2%nat eq_refl).
Defined.

(** ** A product by a factor below one *)

Section ProductBelow.

Local Open Scope Z_scope.

(** The arithmetic of a product rounded up: with the mantissa [mx = bN * q
    + rho] on the grid [a], the grid [c] of the result, the unit [S = 2 ^ 53
    * K] and a factor at most [S - K], rounding up cannot reach [n * S]. *)
Lemma half_up_below (mx q rho bN a c S K n Pz : Z) :
  0 < bN -> 0 < a -> 0 < c -> 0 < K -> S = 2 ^ 53 * K -> 1 <= n ->
  0 <= q -> 0 <= rho ->
  mx = bN * q + rho -> bN <= 2 * rho -> c * S = bN * a -> Pz = mx * a ->
  Pz <= (S - K) * (n * S) ->
  (c = 1 \/ 2 ^ 52 * bN <= mx) ->
  (q + 1) * c <> n * S.
Proof.
  intros HbN Ha Hc HK ES Hn Hq Hrho Emx Hhalf Egrid EP HP Hnorm Eq.
  assert (HS : 0 < S) by lia.
  set (X := n * S) in *. assert (HX : 0 < X) by (unfold X; nia).
  assert (A1 : (2 * q + 1) * bN <= 2 * mx) by lia.
  assert (A2 : (2 * q + 1) * bN * a <= 2 * mx * a)
    by (apply Z.mul_le_mono_nonneg_r; lia).
  assert (A3 : (2 * q + 1) * bN * a = (2 * X - c) * S).
  { replace ((2 * q + 1) * bN * a) with ((2 * q + 1) * (bN * a)) by ring.
    rewrite <- Egrid. replace (2 * X - c) with ((2 * q + 1) * c) by lia. ring. }
  assert (A4 : 2 * K * X <= c * S).
  { assert (2 * Pz <= 2 * S * X - 2 * K * X) by lia.
    assert ((2 * X - c) * S <= 2 * Pz) by lia.
    assert ((2 * X - c) * S = 2 * S * X - c * S) by ring. lia. }
  assert (A5 : 2 * K * n <= c).
  { apply (Z.mul_le_mono_pos_r _ _ S); trivial.
    replace (2 * K * n * S) with (2 * K * X) by (unfold X; ring). exact A4. }
  destruct Hnorm as [C1|C2].
  - assert (1 <= K * n) by nia. lia.
  - assert (B1 : 2 ^ 52 * bN * a <= mx * a)
      by (apply Z.mul_le_mono_nonneg_r; lia).
    assert (B2 : 2 ^ 52 * bN * a = 2 ^ 52 * c * S).
    { replace (2 ^ 52 * bN * a) with (2 ^ 52 * (bN * a)) by ring.
      rewrite <- Egrid. ring. }
    assert (B3 : 2 ^ 52 * (2 * K * n) * S <= 2 ^ 52 * c * S).
    { apply Z.mul_le_mono_nonneg_r; [lia|].
      apply Z.mul_le_mono_nonneg_l; lia. }
    assert (B4 : 2 ^ 52 * (2 * K * n) * S = S * X).
    { unfold X. rewrite ES. change (2 ^ 53) with (2 ^ 52 * 2). ring. }
    assert (B5 : (S - K) * X < S * X).
    { apply Z.mul_lt_mono_pos_r; lia. }
    lia.
Qed.

(** Rounding a product down keeps it below any bound the exact product
    is below. *)
Lemma round_down_below (mx q bN a c S X Pz : Z) :
  0 < bN -> 0 < a -> 0 < S -> 0 <= q ->
  bN * q <= mx -> c * S = bN * a -> Pz = mx * a -> Pz < X * S ->
  q * c < X.
Proof.
  intros HbN Ha HS Hq Hle Egrid EP HP.
  apply (Z.mul_lt_mono_pos_r S); trivial.
  replace (q * c * S) with (q * (c * S)) by ring. rewrite Egrid.
  assert (bN * q * a <= mx * a) by (apply Z.mul_le_mono_nonneg_r; lia).
  replace (q * (bN * a)) with (bN * q * a) by ring. lia.
Qed.

Lemma SFmul_below (a b : spec_float) (n : Z) :
  nonneg a -> nonneg b -> Zval a <= 2 ^ 1074 - 2 ^ 1021 ->
  Zval b = n * 2 ^ 1074 -> 1 <= n ->
  nonneg (SFmul prec emax a b) /\ Zval (SFmul prec emax a b) < n * 2 ^ 1074.
Proof.
  intros Na Nb Ha Hb Hn.
  assert (HS : 0 < 2 ^ 1074) by (apply pow2_pos; lia).
  assert (HK : 0 < 2 ^ 1021) by (apply pow2_pos; lia).
  assert (ES : 2 ^ 1074 = 2 ^ 53 * 2 ^ 1021)
    by (rewrite <- Z.pow_add_r by lia; reflexivity).
  destruct (SFmul_upper a b b Na Nb (proj1 Nb) (proj1 (proj2 Nb))) as (NR & UR).
  { destruct Na as (_ & _ & ?), Nb as (_ & _ & ?).
    rewrite (Z.mul_comm (Zval a)). apply Z.mul_le_mono_nonneg_l; lia. }
  split; [exact NR|].
  assert (LEb : Zval (SFmul prec emax a b) <= n * 2 ^ 1074) by lia.
  destruct a as [sa|sa| |sa ma ea]; try (destruct Na as (_ & F & _); discriminate);
  destruct b as [sb|sb| |sb mb eb]; try (destruct Nb as (_ & F & _); discriminate);
    try (cbn [SFmul Zval] in *; nia).
  pose proof (nonneg_finite_sign _ _ _ Na). pose proof (nonneg_finite_sign _ _ _ Nb).
  subst sa sb. cbn [SFmul xorb] in *.
  pose proof Na as (Va & _ & _). pose proof Nb as (Vb & _ & _).
  pose proof (proj1 (valid_finite_iff _ _ _) Va) as (_ & Hea & _).
  pose proof (proj1 (valid_finite_iff _ _ _) Vb) as (_ & Heb & _).
  pose proof (mul_fine ma mb ea eb Va Vb) as Hfine.
  destruct (binary_round_aux_nearest false (Zpos (ma * mb)) (ea + eb)
              ltac:(lia) Hfine) as (u & Hu & Hcan & E).
  rewrite E in *.
  set (mx := Zpos (ma * mb)) in *. set (ex := ea + eb) in *.
  set (e1 := fexp prec emax (Zdigits2 mx + ex)) in *.
  assert (He1 : -1074 <= e1) by (unfold e1; rewrite fexp_eq; lia).
  assert (HN : 0 <= e1 - ex) by lia.
  (* the result is finite, so it has the value of its mantissa *)
  assert (V : Zval (pack false u e1) = u * 2 ^ (e1 + 1074)).
  { destruct (Z.lt_ge_cases (u * 2 ^ (e1 + 1074)) (2 ^ 2098)) as [L|G].
    - now destruct (pack_finite false u e1 Hcan L).
    - rewrite (pack_overflow false u e1 Hcan G) in NR.
      destruct NR as (_ & F & _). discriminate. }
  rewrite V in *. cbn [Zval cond_Zopp] in Ha, Hb.
  set (bN := 2 ^ (e1 - ex)) in *.
  set (c := 2 ^ (e1 + 1074)) in *.
  set (g := 2 ^ (ea + 1074) * 2 ^ (eb + 1074)).
  assert (HbN : 0 < bN) by (apply pow2_pos; lia).
  assert (Hc : 0 < c) by (apply pow2_pos; lia).
  assert (Hga : 0 < 2 ^ (ea + 1074)) by (apply pow2_pos; lia).
  assert (Hgb : 0 < 2 ^ (eb + 1074)) by (apply pow2_pos; lia).
  assert (Hg : 0 < g) by (unfold g; nia).
  assert (Egrid : c * 2 ^ 1074 = bN * g).
  { unfold c, bN, g. rewrite <- !Z.pow_add_r by lia. f_equal. unfold ex. lia. }
  assert (EP : Zpos ma * 2 ^ (ea + 1074) * (Zpos mb * 2 ^ (eb + 1074)) = mx * g).
  { unfold mx, g. rewrite Pos2Z.inj_mul. ring. }
  assert (Enorm : c = 1 \/ 2 ^ 52 * bN <= mx).
  { destruct (Z.eq_dec e1 (-1074)) as [E1|E1].
    - left. unfold c. now rewrite E1.
    - right. unfold bN.
      assert (En : e1 - ex = Zdigits2 mx - 53)
        by (unfold e1 in *; rewrite fexp_eq in *; lia).
      rewrite En, <- Z.pow_add_r by lia.
      replace (52 + (Zdigits2 mx - 53)) with (Zdigits2 mx - 1) by lia.
      apply (Zdigits2_bounds mx). unfold mx. lia. }
  pose proof (Z.div_mod mx bN ltac:(lia)) as Edm.
  pose proof (Z.mod_pos_bound mx bN HbN) as Hrho.
  assert (Hq0 : 0 <= mx / bN) by (apply Z.div_pos; lia).
  clear E V UR NR. clearbody c bN g mx.
  set (S := 2 ^ 1074) in *. set (K := 2 ^ 1021) in *. clearbody S K.
  assert (HP : mx * g <= (S - K) * (n * S)).
  { rewrite <- EP, Hb. apply Z.mul_le_mono_nonneg_r; [|lia].
    apply Z.mul_nonneg_nonneg; lia. }
  destruct Hu as [Eu|[Eu Hhalf]].
  - rewrite Eu.
    apply (round_down_below mx (mx / bN) bN g c S (n * S) (mx * g));
      trivial; try lia.
  - assert (NE : (mx / bN + 1) * c <> n * S).
    { apply (half_up_below mx (mx / bN) (mx mod bN) bN g c S K n (mx * g));
        trivial; lia. }
    assert (LE : u * c <= n * S) by lia.
    rewrite Eu in *. lia.
Qed.

End ProductBelow.

(** ** randomInt *)

Section RandomInt.

Local Open Scope Z_scope.

(** A finite Number below [1] is at most [1 - 2 ^ -53]. *)
Lemma val_below_one (u : Number) :
  finite u = true -> 0 <= val u < 2 ^ 1074 -> val u <= 2 ^ 1074 - 2 ^ 1021.
Proof.
  intros F H. pose proof (Prim2SF_valid u) as V. unfold finite, val in *.
  assert (HK : 0 < 2 ^ 1021) by (apply pow2_pos; lia).
  assert (ES : 2 ^ 1074 = 2 ^ 53 * 2 ^ 1021)
    by (rewrite <- Z.pow_add_r by lia; reflexivity).
  destruct (Prim2SF u) as [s|s| |s m e]; try discriminate F.
  { cbn [Zval]. lia. }
  apply valid_finite_iff in V. destruct V as (Hm & He & _).
  assert (Hp : 0 < 2 ^ (e + 1074)) by (apply pow2_pos; lia).
  destruct s; cbn [Zval cond_Zopp] in *; [nia|].
  destruct (Z.le_gt_cases 1021 (e + 1074)) as [L|G].
  - assert (E : 2 ^ (e + 1074) = 2 ^ (e + 53) * 2 ^ 1021).
      { rewrite <- Z.pow_add_r by lia. f_equal. lia. }
      assert (0 < 2 ^ (e + 53)) by (apply pow2_pos; lia).
      rewrite E, ES in *. set (K := 2 ^ 1021) in *. clearbody K.
      set (t := 2 ^ (e + 53)) in *. clearbody t. clear E ES.
      assert (Zpos m * t < 2 ^ 53) by nia.
      assert (Zpos m * t * K <= (2 ^ 53 - 1) * K)
        by (apply Z.mul_le_mono_nonneg_r; lia).
      lia.
  - assert (E : 2 ^ 1021 = 2 ^ (e + 1074) * 2 ^ (-53 - e)).
      { rewrite <- Z.pow_add_r by lia. f_equal. lia. }
      assert (2 <= 2 ^ (-53 - e)).
      { change 2 with (2 ^ 1) at 1. apply Z.pow_le_mono_r; lia. }
      rewrite ES, E. set (t := 2 ^ (e + 1074)) in *. clearbody t.
      set (r := 2 ^ (-53 - e)) in *. clearbody r. clear E ES H HK.
      assert (Zpos m * t <= (2 ^ 53 - 1) * t)
        by (apply Z.mul_le_mono_nonneg_r; lia).
      nia.
Qed.

Lemma positive_sign (v : Number) :
  finite v = true -> 0 < val v -> SFsign (Prim2SF v) = false.
Proof.
  intros F H. pose proof (Prim2SF_valid v) as V. unfold finite, val in *.
  destruct (Prim2SF v) as [s|s| |s m e]; try discriminate;
    cbn [Zval] in H; try lia.
  apply valid_finite_iff in V. destruct V as (_ & He & _).
  assert (0 < 2 ^ (e + 1074)) by (apply pow2_pos; lia).
  destruct s; trivial. cbn [cond_Zopp] in H. nia.
Qed.

Lemma SFmul_sign (a b : spec_float) :
  valid_binary a = true -> valid_binary b = true ->
  SFfinite a = true -> SFfinite b = true ->
  SFsign a = false -> SFsign b = false ->
  SFsign (SFmul prec emax a b) = false.
Proof.
  intros Va Vb Fa Fb Sa Sb.
  destruct a as [sa|sa| |sa ma ea]; try discriminate;
    destruct b as [sb|sb| |sb mb eb]; try discriminate;
    cbn [SFsign] in Sa, Sb; subst sa sb; try reflexivity.
  cbn [SFmul xorb].
  destruct (binary_round_aux_spec false (Zpos (ma * mb)) (ea + eb) loc_Exact
              ltac:(lia) (mul_fine ma mb ea eb Va Vb)) as (u & _ & _ & ->).
  apply pack_sign.
Qed.

(** The product of a random Number and a positive integer [n] is below
    [n], after rounding too. *)
Lemma random_times (random v : Number) (n : Z) :
  (0 <=? random)%float = true -> (random <? 1)%float = true ->
  get_sign random = false ->
  finite v = true -> val v = n * 2 ^ 1074 -> 1 <= n ->
  finite (random * v)%float = true /\
  SFsign (Prim2SF (random * v)%float) = false /\
  0 <= val (random * v)%float < n * 2 ^ 1074.
Proof.
  intros H0 H1 Hs Fv Vv Hn.
  assert (HS : 0 < 2 ^ 1074) by (apply pow2_pos; lia).
  destruct (nonneg_cases random H0) as [E|[F V]].
  { rewrite ltb_spec, E in H1. discriminate. }
  rewrite ltb_val in H1 by (trivial; reflexivity). apply Z.ltb_lt in H1.
  destruct val_constants as (_ & V1 & _). rewrite V1 in H1.
  pose proof (val_below_one random F ltac:(lia)) as Hb.
  rewrite get_sign_spec in Hs by now apply finite_not_nan.
  pose proof (positive_sign v Fv ltac:(nia)) as Sv.
  unfold finite, val in *. rewrite mul_spec.
  destruct (SFmul_below (Prim2SF random) (Prim2SF v) n) as ((_ & FR & VR) & LR);
    trivial.
  { split; [apply Prim2SF_valid|]. split; trivial. }
  { split; [apply Prim2SF_valid|]. split; trivial. nia. }
  split; [exact FR|]. split; [|split; [exact VR|exact LR]].
  apply SFmul_sign; trivial; apply Prim2SF_valid.
Qed.

(** X25: for integers [0 <= min <= max] below [2 ^ 52] and every Number
    that [Math.random()] can return (at least 0, below 1, positive sign),
    [randomInt(min, max)] is an integer from [min] to [max], both
    included: rounding never makes it [max + 1].  When the random Number is
    [0] the result is [min]. *)
Theorem randomInt_inclusive (random : Number) (min max : Z) :
  0 <= min <= max -> max < 2 ^ 52 ->
  (0 <=? random)%float = true -> (random <? 1)%float = true ->
  get_sign random = false ->
  (exists k, min <= k <= max /\
             math.randomInt random (of_Z min) (of_Z max) = of_Z k) /\
  math.randomInt 0%float (of_Z min) (of_Z max) = of_Z min.
Proof.
  intros Hmin Hmax H0 H1 Hs.
  assert (HS : 0 < 2 ^ 1074) by (apply pow2_pos; lia).
  destruct val_constants as (_ & V1 & _).
  destruct (sub_of_Z min max ltac:(lia) ltac:(lia)) as (Fd & Vd).
  assert (B1 : 0 <= val (of_Z max - of_Z min)%float) by (rewrite Vd; nia).
  assert (B2 : 0 <= val 1%float) by (rewrite V1; lia).
  assert (B3 : (max - min + 1) * 2 ^ 1074
               <= val (of_Z max - of_Z min)%float + val 1%float
               <= (max - min + 1) * 2 ^ 1074) by (rewrite Vd, V1; lia).
  destruct (add_bounds (of_Z max - of_Z min)%float 1%float
              (max - min + 1) (max - min + 1) Fd eq_refl B1 B2
              ltac:(lia) ltac:(lia) B3) as (Fn & Vn).
  set (v := (of_Z max - of_Z min + 1)%float) in *.
  assert (Ev : val v = (max - min + 1) * 2 ^ 1074) by lia.
  assert (P : forall u : Number,
            (0 <=? u)%float = true -> (u <? 1)%float = true ->
            get_sign u = false ->
            exists k, min <= k <= max /\
              val (u * v)%float / 2 ^ 1074 = k - min /\
              math.randomInt u (of_Z min) (of_Z max) = of_Z k).
  { intros u U0 U1 Us.
    destruct (random_times u v (max - min + 1) U0 U1 Us Fn Ev ltac:(lia))
      as (Fp & Sp & Vp).
    set (k := val (u * v)%float / 2 ^ 1074).
    assert (Hk : 0 <= k <= max - min).
    { unfold k. split; [apply Z.div_pos; lia|].
      assert (val (u * v)%float / 2 ^ 1074 < max - min + 1); [|lia].
      apply Z.div_lt_upper_bound; lia. }
    exists (k + min). split; [lia|]. split; [unfold k; lia|].
    unfold math.randomInt. fold v.
    rewrite (Math_floor_between (u * v)%float k Fp Sp ltac:(lia)).
    - rewrite add_of_Z by lia. reflexivity.
    - unfold k. pose proof (Z.div_mod (val (u * v)%float) (2 ^ 1074) ltac:(lia)).
      pose proof (Z.mod_pos_bound (val (u * v)%float) (2 ^ 1074) HS). lia. }
  split.
  - destruct (P random H0 H1 Hs) as (k & Hk & _ & E). now exists k.
  - destruct (P 0%float eq_refl eq_refl eq_refl) as (k & Hk & Vk & E).
    rewrite E. f_equal.
    assert (Z0 : val (0 * v)%float = 0).
    { unfold val. rewrite mul_spec. change (Prim2SF 0) with (S754_zero false).
      unfold finite in Fn. destruct (Prim2SF v); try discriminate; reflexivity. }
    rewrite Z0, Z.div_0_l in Vk by lia. lia.
Qed.

Lemma randomInt_inclusive_witness :
  (exists k, 1 <= k <= 6 /\ math.randomInt 0.99%float (of_Z 1) (of_Z 6) = of_Z k) /\
  math.randomInt 0%float (of_Z 1) (of_Z 6) = of_Z 1.
Proof.
  apply (randomInt_inclusive 0.99%float 1 6); try lia; reflexivity.
Defined.

End RandomInt.

(** ** Angles, vectors and interpolation *)

Section Conversions.

Local Open Scope float_scope.

Lemma mul_finite_nan (a c : Number) :
  finite c = true -> is_zero c = false -> is_nan (a * c) = is_nan a.
Proof.
  intros F Z. rewrite mul_nan, Z, andb_false_r, orb_false_r.
  rewrite (finite_not_nan c F), orb_false_r.
  assert (I : is_infinity c = false).
  { rewrite is_infinity_class. unfold finite in F.
    destruct (Prim2SF c); try discriminate; reflexivity. }
  now rewrite I, andb_false_r, orb_false_r.
Qed.

(** A product by a constant between 0 and 1 is no larger in absolute
    value. *)
Lemma mul_shrinks (d f : Number) :
  finite d = true -> finite f = true -> (0 <= val f <= 2 ^ 1074)%Z ->
  (Math_abs (d * f) <=? Math_abs d) = true.
Proof.
  intros Fd Ff Hf. destruct (mul_bounds d f Fd Ff Hf) as (Fp & Pos & Neg & _).
  unfold Math_abs. rewrite leb_val by now rewrite finite_abs.
  rewrite !val_abs. apply Z.leb_le.
  destruct (Z.le_gt_cases 0 (val d)) as [H|H].
  - specialize (Pos H). lia.
  - specialize (Neg ltac:(lia)). lia.
Qed.

(** X27: [degToRad] and [radToDeg] are odd functions, give NaN only for
    NaN, and [degToRad] never increases the absolute value of a finite
    angle.  [degToRad(180)] is [Math.PI] and [radToDeg(Math.PI)] is [180],
    but the two are not exact inverses: [radToDeg(degToRad(3))] is
    [3.0000000000000004]. *)
Theorem angle_conversions (degrees radians : Number) :
  math.degToRad (- degrees) = - math.degToRad degrees /\
  math.radToDeg (- radians) = - math.radToDeg radians /\
  is_nan (math.degToRad degrees) = is_nan degrees /\
  is_nan (math.radToDeg radians) = is_nan radians /\
  (is_finite degrees = true ->
     (Math_abs (math.degToRad degrees) <=? Math_abs degrees) = true) /\
  math.degToRad 180 = Math_PI /\ math.radToDeg Math_PI = 180 /\
  math.radToDeg (math.degToRad 3) = 3.0000000000000004.
Proof.
  unfold math.degToRad, math.radToDeg.
  split; [apply mul_opp_l|]. split; [apply mul_opp_l|].
  split; [apply mul_finite_nan; reflexivity|].
  split; [apply mul_finite_nan; reflexivity|].
  split; [|repeat split; reflexivity].
  intros F. rewrite is_finite_spec in F.
  apply mul_shrinks; trivial.
  vm_compute. split; discriminate.
Qed.

Lemma angle_conversions_witness :
  (Math_abs (math.degToRad 90) <=? Math_abs 90) = true.
Proof.
  exact (proj1 (proj2 (proj2 (proj2 (proj2 (angle_conversions 90 0))))) eq_refl).
Defined.

Lemma sub_zero_r (a : Number) : a - 0 = a.
Proof.
  apply Prim2SF_inj. rewrite sub_spec. change (Prim2SF 0) with (S754_zero false).
  destruct (Prim2SF a) as [s|s| |s m e]; try reflexivity; destruct s; reflexivity.
Qed.

Lemma mul_minus_one (a : Number) : a * (-1) = - a.
Proof.
  rewrite (mul_comm a (-1)). change (-1) with (- (1)).
  rewrite mul_opp_l, (mul_comm 1 a), mul_one_r. reflexivity.
Qed.

Lemma sub_as_add (a b : Number) : a - b = a + (- b).
Proof. now rewrite add_sub_opp, opp_involutive. Qed.

(** X28: scaling a vector by [1] returns the same vector, subtracting is
    adding the vector scaled by [-1], a vector minus itself has every
    component [+0] (NaN where the component is not finite), and the length
    of a vector is its distance from the origin; all for all Numbers. *)
Theorem vector_identities (v w : Vector3) :
  vector.multiply v 1 = v /\
  vector.subtract v w = vector.add v (vector.multiply w (-1)) /\
  vector.subtract v v
  = {| x := if is_finite (x v) then 0 else nan;
       y := if is_finite (y v) then 0 else nan;
       z := if is_finite (z v) then 0 else nan |} /\
  vector.length v = math.distance3D {| x := 0; y := 0; z := 0 |} v.
Proof.
  unfold vector.multiply, vector.subtract, vector.add, vector.length,
    math.distance3D. cbv zeta. cbn [x y z]. repeat split.
  - rewrite !mul_one_r. now destruct v.
  - now rewrite !mul_minus_one, !sub_as_add.
  - now rewrite !sub_diag.
  - now rewrite !sub_zero_r.
Qed.

Lemma add_zero_eqb (a z : Number) :
  finite a = true -> a_zero z -> (a + z =? a) = true.
Proof.
  unfold finite, a_zero. rewrite eqb_spec, add_spec. unfold SFeqb.
  destruct (Prim2SF a) as [sa|sa| |sa ma ea] eqn:E, (Prim2SF z) as [sz|sz| |sz mz ez];
    try discriminate; try tauto; intros _ _.
  - destruct sa, sz; reflexivity.
  - cbn [SF64add SFadd]. unfold SF64add. cbn [SFadd].
    rewrite SFcompare_refl; [reflexivity|discriminate].
Qed.

Lemma abs_not_negative (a : Number) : (Math_abs a <? 0) = false.
Proof.
  unfold Math_abs. rewrite ltb_spec, abs_spec.
  change (Prim2SF 0) with (S754_zero false).
  destruct (Prim2SF a) as [s|s| |s m e]; reflexivity.
Qed.

(** X29: [lerp] between two equal finite Numbers is that Number for every
    finite factor, and [lerp] at factor [0] is the start when the difference
    of the two Numbers is finite (both as [==] compares them).  At factor
    [1] it is [start + (end - start)], which rounding can keep away from
    the end: [lerp(1e16, 1, 1)] is [0]. *)
Theorem lerp_endpoints (start end_ factor : Number) :
  (is_finite start = true -> is_finite factor = true ->
     (math.lerp start start factor =? start) = true) /\
  (is_finite start = true -> is_finite (end_ - start) = true ->
     (math.lerp start end_ 0 =? start) = true) /\
  math.lerp start end_ 1 = start + (end_ - start) /\
  math.lerp 1e16 1 1 = 0.
Proof.
  unfold math.lerp. split; [|split; [|split]].
  - intros Fs Ff. rewrite sub_diag, Fs. rewrite is_finite_spec in *.
    apply add_zero_eqb; trivial.
    rewrite (mul_comm 0 factor). apply mul_finite_a_zero; trivial. exact I.
  - intros Fs Fd. rewrite is_finite_spec in *.
    apply add_zero_eqb; trivial. apply mul_finite_a_zero; trivial. exact I.
  - now rewrite mul_one_r.
  - reflexivity.
Qed.

Lemma lerp_endpoints_witness :
  (math.lerp 2.5 2.5 0.3 =? 2.5) = true.
Proof.
  exact (proj1 (lerp_endpoints 2.5 7 0.3) eq_refl eq_refl).
Defined.

(** X30: a Number is approximately itself exactly when it is finite and
    the tolerance is positive; and with a tolerance that is zero, negative
    or NaN nothing is approximately anything. *)
Theorem approximately_reflexive (a b tolerance : Number) :
  math.approximately a a tolerance = is_finite a && (0 <? tolerance) /\
  ((0 <? tolerance) = false -> math.approximately a b tolerance = false).
Proof.
  unfold math.approximately, Math_abs. split.
  - rewrite sub_diag. destruct (is_finite a); [reflexivity|].
    rewrite ltb_spec. reflexivity.
  - intros H. destruct (abs (a - b) <? tolerance) eqn:E; trivial.
    destruct (proj1 (ltb_rank _ _) E) as (Na & Nt & _).
    assert (Z : (0 <=? abs (a - b)) = true).
    { apply not_ltb_leb; trivial. apply abs_not_negative. }
    rewrite (leb_ltb_trans _ _ _ Z E) in H. discriminate.
Qed.

Lemma approximately_reflexive_witness :
  math.approximately 1 1.00000001 (-0.5) = false.
Proof.
  exact (proj2 (approximately_reflexive 1 1.00000001 (-0.5)) eq_refl).
Defined.

End Conversions.

(** ** randomRange *)

Section RandomRange.

Local Open Scope Z_scope.

Lemma zero_plus_of_Z (z : Number) (n : Z) :
  0 <= n < 2 ^ 53 -> Prim2SF z = S754_zero false -> (z + of_Z n)%float = of_Z n.
Proof.
  intros Hn Ez. destruct (of_Z_value n Hn) as (F & _ & Sg).
  apply Prim2SF_inj. rewrite add_spec, Ez. unfold finite in F.
  destruct (Prim2SF (of_Z n)) as [s|s| |s m e]; try discriminate F;
    cbn [SFsign] in Sg; subst s; reflexivity.
Qed.

(** X26: for integers [0 <= min <= max] below [2 ^ 53] and every Number
    that [Math.random()] can return (at least 0 and below 1),
    [randomRange(min, max)] lies between [min] and [max], both included.
    Both ends occur: the result is [min] when the random Number is [0], and
    it is [max], although the random Number is below 1, in
    [randomRange(2^51, 2^51 + 1)] with the random Number [0.9]. *)
Theorem randomRange_inclusive (random : Number) (min max : Z) :
  0 <= min <= max -> max < 2 ^ 53 ->
  (0 <=? random)%float = true -> (random <? 1)%float = true ->
  ((of_Z min <=? math.randomRange random (of_Z min) (of_Z max))%float = true /\
   (math.randomRange random (of_Z min) (of_Z max) <=? of_Z max)%float = true) /\
  math.randomRange 0%float (of_Z min) (of_Z max) = of_Z min /\
  math.randomRange 0.9%float 2251799813685248%float 2251799813685249%float
  = 2251799813685249%float.
Proof.
  intros Hmin Hmax H0 H1.
  assert (HS : 0 < 2 ^ 1074) by (apply pow2_pos; lia).
  destruct val_constants as (_ & V1 & _).
  destruct (of_Z_value min ltac:(lia)) as (Fmin & Vmin & _).
  destruct (of_Z_value max ltac:(lia)) as (Fmax & Vmax & _).
  destruct (sub_of_Z min max ltac:(lia) ltac:(lia)) as (Fd & Vd).
  set (v := (of_Z max - of_Z min)%float) in *.
  assert (Hv : 0 <= val v) by (rewrite Vd; nia).
  split; [|split; [|reflexivity]].
  - destruct (nonneg_cases random H0) as [E|[F V]].
    { rewrite ltb_spec, E in H1. discriminate H1. }
    rewrite ltb_val in H1 by (trivial; reflexivity). apply Z.ltb_lt in H1.
    rewrite V1 in H1.
    destruct (mul_bounds v random Fd F ltac:(lia)) as (Fp & Pos & _).
    specialize (Pos Hv). rewrite (mul_comm v random) in Fp, Pos.
    assert (B : min * 2 ^ 1074 <= val (random * v)%float + val (of_Z min)
                <= max * 2 ^ 1074) by (rewrite Vmin; lia).
    destruct (add_bounds (random * v)%float (of_Z min) min max Fp Fmin
                ltac:(lia) ltac:(lia) ltac:(lia) ltac:(lia) B) as (Fr & Vr).
    unfold math.randomRange. fold v.
    rewrite !leb_val, Vmin, Vmax by trivial. split; apply Z.leb_le; lia.
  - unfold math.randomRange. fold v. apply zero_plus_of_Z; [lia|].
    rewrite mul_spec. change (Prim2SF 0%float) with (S754_zero false).
    destruct (Z.eq_dec min max) as [->|N].
    + unfold v. rewrite sub_diag, is_finite_spec, Fmax. reflexivity.
    + pose proof (positive_sign v Fd ltac:(nia)) as Sv.
      unfold finite in Fd.
      destruct (Prim2SF v) as [s|s| |s m e]; try discriminate Fd;
        cbn [SFsign] in Sv; subst s; reflexivity.
Qed.

Lemma randomRange_inclusive_witness :
  (of_Z 5 <=? math.randomRange 0.33%float (of_Z 5) (of_Z 15))%float = true /\
  (math.randomRange 0.33%float (of_Z 5) (of_Z 15) <=? of_Z 15)%float = true.
Proof.
  apply (randomRange_inclusive 0.33%float 5 15); try lia; reflexivity.
Defined.

End RandomRange.
